(** * The schema interpreter of [packages/schema/src/Parser.ts]

    A shallow embedding of [parserFor] and of the public operations built
    on it ([decode], [is], [encode]), with the properties of the
    interpreter stated and proved over it.

    - Host values are the inductive [value].  Numbers carry integers;
      symbols are identified by a natural number and stand for symbols
      created by [Symbol()]; an object is plain data, the list of its
      own properties (enumerable, writable data properties), the string
      keys in the order of [Object.keys]
      (array indexes first, in ascending order, then the other strings
      in the order of their creation) and the symbols in the order of
      their creation.  The prototype of an object is not part of a
      value; the objects that the interpreter creates with [{}] carry
      theirs while they are built ([PlainObject]), for an assignment to
      [__proto__] goes through the accessor of [Object.prototype].
    - A parser is a function from an input and the optional parse
      options to a [ParseResult].  The loops of the source are recursive
      functions over an explicit state ([output], [es], [isLeft], [i],
      ...) that either leave the parser with a result ([Return]) or go on
      ([Next]).
    - The thunk of a [Lazy] node is a function from [unit]; an AST is a
      finite tree.  The facts about the parsers of [Tuple], [TypeLiteral]
      and [Union] nodes are first proved for arbitrary parsers of the
      children.
    - The host's [BigInt], the hook registry and the regular expression
      of a template literal are parameters of the interpreter
      ([Environment]).
    - [ParseError.ts], [AST.ts] and [internal/common.ts] are not among
      the sources; what the interpreter uses of them is modelled and
      marked as such. *)

From Stdlib Require Import List ZArith String Bool Arith Lia.
Import ListNotations.

Set Implicit Arguments.
Set Warnings "-register-all".
Local Open Scope string_scope.
Local Open Scope list_scope.
Local Open Scope nat_scope.

(* ================================================================= *)
(** ** Host values *)

Inductive PropertyKey : Type :=
| KString (s : string)
| KSymbol (id : nat).

Inductive value : Type :=
| VUndefined
| VNull
| VBoolean (b : bool)
| VNumber (n : Z)
| VString (s : string)
| VBigInt (z : Z)
| VSymbol (id : nat)
| VArray (items : list value)
| VObject (props : list (PropertyKey * value)).

Definition PropertyKey_eqb (a b : PropertyKey) : bool :=
  match a, b with
  | KString s, KString t => String.eqb s t
  | KSymbol m, KSymbol n => Nat.eqb m n
  | _, _ => false
  end.

(** A property key seen as a value, as when a key is handed to a parser. *)
Definition keyValue (k : PropertyKey) : value :=
  match k with
  | KString s => VString s
  | KSymbol id => VSymbol id
  end.

Definition isStringKey (k : PropertyKey) : bool :=
  match k with KString _ => true | KSymbol _ => false end.

Definition isSymbolKey (k : PropertyKey) : bool :=
  match k with KString _ => false | KSymbol _ => true end.

(** [Object.prototype.hasOwnProperty.call(o, k)] *)
Definition hasOwnProperty (o : list (PropertyKey * value)) (k : PropertyKey) : bool :=
  existsb (fun p => PropertyKey_eqb (fst p) k) o.

(** [o[k]] for an own property; [undefined] when absent. *)
Fixpoint getProperty (o : list (PropertyKey * value)) (k : PropertyKey) : value :=
  match o with
  | [] => VUndefined
  | (k', v) :: o' => if PropertyKey_eqb k' k then v else getProperty o' k
  end.

(** The value of a string of decimal digits. *)
Fixpoint decimalValue (s : string) (acc : N) : option N :=
  match s with
  | EmptyString => Some acc
  | String c s' =>
      let n := Ascii.N_of_ascii c in
      if (48 <=? n)%N && (n <=? 57)%N
      then decimalValue s' (10 * acc + (n - 48))%N
      else None
  end.

(** An array index: a string that is the canonical decimal form of an
    integer from [0] to [2^32 - 2]. *)
Definition arrayIndex (s : string) : option N :=
  match s with
  | EmptyString => None
  | String c rest =>
      if (Ascii.N_of_ascii c =? 48)%N && negb (String.eqb rest EmptyString)
      then None
      else
        match decimalValue s 0%N with
        | Some n => if (n <=? 4294967294)%N then Some n else None
        | None => None
        end
  end.

(** [precedes k k']: a new own property [k] is enumerated before the own
    property [k'].  Array indexes come first, in ascending order; every
    other key comes after the keys that exist. *)
Definition precedes (k k' : PropertyKey) : bool :=
  match k, k' with
  | KString s, KString s' =>
      match arrayIndex s, arrayIndex s' with
      | Some n, Some n' => (n <? n')%N
      | Some _, None => true
      | None, _ => false
      end
  | _, _ => false
  end.

(** The own property [k] of [o] gets the value [v]; its place is kept. *)
Fixpoint replaceProperty (o : list (PropertyKey * value)) (k : PropertyKey) (v : value)
  : list (PropertyKey * value) :=
  match o with
  | [] => []
  | (k', v') :: o' =>
      if PropertyKey_eqb k' k then (k', v) :: o' else (k', v') :: replaceProperty o' k v
  end.

(** A new own property [k] with the value [v], at its place in the order
    of enumeration. *)
Fixpoint insertProperty (o : list (PropertyKey * value)) (k : PropertyKey) (v : value)
  : list (PropertyKey * value) :=
  match o with
  | [] => [(k, v)]
  | (k', v') :: o' =>
      if precedes k k' then (k, v) :: (k', v') :: o'
      else (k', v') :: insertProperty o' k v
  end.

(** The own data property [k] of [o] is set to [v]: an own property is
    overwritten in place, a new one is created. *)
Definition setProperty (o : list (PropertyKey * value)) (k : PropertyKey) (v : value)
  : list (PropertyKey * value) :=
  if hasOwnProperty o k then replaceProperty o k v else insertProperty o k v.

(** [Object.keys(o)] and [Object.getOwnPropertySymbols(o)] *)
Definition objectKeys (o : list (PropertyKey * value)) : list PropertyKey :=
  filter isStringKey (map fst o).

Definition getOwnPropertySymbols (o : list (PropertyKey * value)) : list PropertyKey :=
  filter isSymbolKey (map fst o).

Definition isString (u : value) : bool :=
  match u with VString _ => true | _ => false end.
Definition isNumber (u : value) : bool :=
  match u with VNumber _ => true | _ => false end.
Definition isBoolean (u : value) : bool :=
  match u with VBoolean _ => true | _ => false end.

(** [typeof u === "object"], which holds of [null], arrays and objects. *)
Definition typeofObject (u : value) : bool :=
  match u with VNull | VArray _ | VObject _ => true | _ => false end.

(* ================================================================= *)
(** ** Objects created by [{}] and assignment to them

    [expectedKeys] and [output] of the [TypeLiteral] parser are created
    by [{}] and filled by assignments [o[k] = v].  Such an assignment
    creates or overwrites an own property, but for the key [__proto__]:
    [Object.prototype] has an accessor of that name (ECMAScript, annex
    B), and an assignment that finds it calls its setter, which
    replaces the prototype of the object when the value is an object or
    [null], does nothing otherwise, and creates no own property. *)

Definition protoKey : PropertyKey := KString "__proto__".

(** The prototype of an object created by [{}]: [Object.prototype] as it
    is created, then what an assignment to [__proto__] made it. *)
Inductive Prototype : Type :=
| ObjectPrototype
| NullPrototype
| ValuePrototype (v : value).

Record PlainObject : Type := {
  o_own : list (PropertyKey * value);
  o_prototype : Prototype
}.

(** [{}] *)
Definition emptyObject : PlainObject :=
  {| o_own := []; o_prototype := ObjectPrototype |}.

(** What the lookup of [__proto__] finds along a prototype chain: the
    accessor of [Object.prototype], an own data property of an object of
    the chain, or nothing when the chain ends in [null] before. *)
Inductive ProtoLookup : Type :=
| FoundAccessor
| FoundData
| FoundNothing.

(** The lookup from a prototype on.  A value that has become a prototype
    is an array or an object; its own prototype is taken to be the one it
    was created with ([Array.prototype], [Object.prototype]). *)
Definition lookupProto (p : Prototype) : ProtoLookup :=
  match p with
  | ObjectPrototype => FoundAccessor
  | NullPrototype => FoundNothing
  | ValuePrototype (VObject props) =>
      if hasOwnProperty props protoKey then FoundData else FoundAccessor
  | ValuePrototype _ => FoundAccessor
  end.

(** The prototype that the setter of [__proto__] installs for [v], an
    object or [null]. *)
Definition prototypeOf (v : value) : Prototype :=
  match v with
  | VNull => NullPrototype
  | _ => ValuePrototype v
  end.

(** [o[k] = v] *)
Definition assign (o : PlainObject) (k : PropertyKey) (v : value) : PlainObject :=
  let stored := {| o_own := setProperty (o_own o) k v; o_prototype := o_prototype o |} in
  if PropertyKey_eqb k protoKey && negb (hasOwnProperty (o_own o) k) then
    match lookupProto (o_prototype o) with
    | FoundAccessor =>
        if typeofObject v
        then {| o_own := o_own o; o_prototype := prototypeOf v |}
        else o
    | FoundData => stored
    | FoundNothing => stored
    end
  else stored.

(* ================================================================= *)
(** ** Diagnostics ([ParseError.ts]) *)

Module PE.

(** Modelled from the spec: [ParseError.ts] is not among the sources.
    A ParseError is one of [Type(ast, actual)], [Missing],
    [Unexpected(actual)], [Equal(expected, actual)],
    [Transform(fromAst, toAst, actual)], [Index(i, errors)],
    [Key(k, errors)], [Member(errors)].  The type is parameterised by
    the type of AST nodes. *)
Inductive ParseError (A : Type) : Type :=
| Type_ (expected : A) (actual : value)
| Missing
| Unexpected (actual : value)
| Equal (expected : value) (actual : value)
| Transform (from to : A) (actual : value)
| Index (index : nat) (errors : list (ParseError A))
| Key (key : PropertyKey) (errors : list (ParseError A))
| Member (errors : list (ParseError A)).

Arguments Missing {A}.
Arguments Unexpected {A} actual.
Arguments Equal {A} expected actual.

(** Modelled from the spec: a ParseResult is [Success(value)],
    [Warning(errors, value)] or [Failure(errors)]; in the source it is
    a [These] whose [left] holds the errors and [right] the value. *)
Inductive ParseResult (A : Type) : Type :=
| Failure (left : list (ParseError A))
| Warning (left : list (ParseError A)) (right : value)
| Success (right : value).

Arguments Success {A} right.

Section Constructors.
Context {A : Type}.

Definition type (expected : A) (actual : value) : ParseError A := Type_ expected actual.
Definition missing : ParseError A := Missing.
Definition unexpected (actual : value) : ParseError A := Unexpected actual.
Definition equal (expected actual : value) : ParseError A := Equal expected actual.
Definition transform (from to : A) (actual : value) : ParseError A :=
  Transform from to actual.
Definition index (i : nat) (errors : list (ParseError A)) : ParseError A := Index i errors.
Definition key (k : PropertyKey) (errors : list (ParseError A)) : ParseError A :=
  Key k errors.
Definition member (errors : list (ParseError A)) : ParseError A := Member errors.

Definition success (a : value) : ParseResult A := Success a.
Definition failure (e : ParseError A) : ParseResult A := Failure [e].
Definition failures (es : list (ParseError A)) : ParseResult A := Failure es.
Definition warnings (es : list (ParseError A)) (a : value) : ParseResult A := Warning es a.

Definition isFailure (t : ParseResult A) : bool :=
  match t with Failure _ => true | _ => false end.
Definition hasWarnings (t : ParseResult A) : bool :=
  match t with Warning _ _ => true | _ => false end.

Definition isKey (e : ParseError A) : bool :=
  match e with Key _ _ => true | _ => false end.
Definition isIndex (e : ParseError A) : bool :=
  match e with Index _ _ => true | _ => false end.
Definition isUnexpected (e : ParseError A) : bool :=
  match e with Unexpected _ => true | _ => false end.

(** The error list of a result ([t.left]; empty for a success). *)
Definition errorsOf (t : ParseResult A) : list (ParseError A) :=
  match t with Failure es => es | Warning es _ => es | Success _ => [] end.

(** The value of a result ([t.right]), when it has one. *)
Definition valueOf (t : ParseResult A) : option value :=
  match t with Failure _ => None | Warning _ a => Some a | Success a => Some a end.
End Constructors.

End PE.

(* ================================================================= *)
(** ** Parse options *)

Record ParseOptions : Type := {
  isUnexpectedAllowed : option bool;
  allErrors : option bool
}.

(** [options?.allErrors] and [options?.isUnexpectedAllowed], read as
    conditions: an absent [options] or an absent field is falsy. *)
Definition optAllErrors (options : option ParseOptions) : bool :=
  match options with
  | Some o => match allErrors o with Some b => b | None => false end
  | None => false
  end.

Definition optIsUnexpectedAllowed (options : option ParseOptions) : bool :=
  match options with
  | Some o => match isUnexpectedAllowed o with Some b => b | None => false end
  | None => false
  end.

(* ================================================================= *)
(** ** The AST ([AST.ts]) *)

Module AST.

Record Element (A : Type) : Type := {
  e_type : A;
  e_isOptional : bool
}.

Record PropertySignature (A : Type) : Type := {
  ps_name : PropertyKey;
  ps_type : A;
  ps_isOptional : bool;
  ps_isReadonly : bool
}.

Record IndexSignature (A : Type) : Type := {
  is_parameter : A;
  is_type : A;
  is_isReadonly : bool
}.

(** The payload of a [Literal] node. *)
Inductive LiteralValue : Type :=
| LString (s : string)
| LNumber (n : Z)
| LBoolean (b : bool)
| LNull
| LBigInt (z : Z).

Inductive TemplateLiteralSpanType : Type := SpanString | SpanNumber.

(** Modelled from the spec: [AST.ts] is not among the sources.  The node
    kinds and payloads are those of the spec's table of AST node kinds.
    [rest], when present, is non-empty: its head and its tail.  The hook
    of a [TypeAlias], which the source keeps in the node's annotations,
    is looked up through [getHook] (a parameter of the interpreter). *)
Inductive AST : Type :=
| TypeAlias (typeParameters : list AST) (type : AST)
| Literal (literal : LiteralValue)
| UniqueSymbol (symbol : nat)
| UndefinedKeyword
| VoidKeyword
| NeverKeyword
| UnknownKeyword
| AnyKeyword
| StringKeyword
| NumberKeyword
| BooleanKeyword
| BigIntKeyword
| SymbolKeyword
| ObjectKeyword
| Tuple (elements : list (Element AST)) (rest : option (AST * list AST))
        (isReadonly : bool)
| TypeLiteral (propertySignatures : list (PropertySignature AST))
              (indexSignatures : list (IndexSignature AST))
| Union (types : list AST)
| Lazy (identifier : string) (f : unit -> AST)
| Enums (enums : list (string * value))
| Refinement (from : AST) (decode : value -> PE.ParseResult AST)
| TemplateLiteral (head : string)
                  (spans : list (TemplateLiteralSpanType * string))
| Transform (from to : AST)
            (decode encode : value -> option ParseOptions -> PE.ParseResult AST).

Definition neverKeyword : AST := NeverKeyword.
Definition unknownKeyword : AST := UnknownKeyword.
Definition stringKeyword : AST := StringKeyword.
Definition numberKeyword : AST := NumberKeyword.
Definition booleanKeyword : AST := BooleanKeyword.
Definition symbolKeyword : AST := SymbolKeyword.

Definition tuple (elements : list (Element AST)) (rest : option (AST * list AST))
           (isReadonly : bool) : AST :=
  Tuple elements rest isReadonly.

Definition indexSignature (parameter type : AST) (isReadonly : bool)
  : IndexSignature AST :=
  {| is_parameter := parameter; is_type := type; is_isReadonly := isReadonly |}.

Definition typeLiteral (propertySignatures : list (PropertySignature AST))
           (indexSignatures : list (IndexSignature AST)) : AST :=
  TypeLiteral propertySignatures indexSignatures.

Definition union (candidates : list AST) : AST := Union candidates.

Definition literalValue (l : LiteralValue) : value :=
  match l with
  | LString s => VString s
  | LNumber n => VNumber n
  | LBoolean b => VBoolean b
  | LNull => VNull
  | LBigInt z => VBigInt z
  end.

End AST.

Definition ParseError : Type := PE.ParseError AST.AST.
Definition ParseResult : Type := PE.ParseResult AST.AST.

(** A compiled parser: [(i, options?) => ParseResult]. *)
Definition Parser : Type := value -> option ParseOptions -> ParseResult.

Import AST.

(* ================================================================= *)
(** ** Helpers of [internal/common.ts] *)

Module I.

(** Modelled from the spec: [internal/common.ts] is not among the sources.
    [fromRefinement] is the parser that "tests with a refinement" and
    emits the given error on mismatch. *)
Definition fromRefinement (refinement : value -> bool) (onFalse : value -> ParseError)
  : Parser :=
  fun u _ => if refinement u then PE.success u else PE.failure (onFalse u).

(** Modelled from the spec: [flatMap] sequences two parse steps ("parse
    [from] first, and on success apply [decode]"); a failure of the first
    step is returned as it is, and the warnings of the first step are
    kept in front of the diagnostics of the second. *)
Definition flatMap (f : value -> ParseResult) (self : ParseResult) : ParseResult :=
  match self with
  | PE.Failure es => PE.Failure es
  | PE.Success a => f a
  | PE.Warning es a =>
      match f a with
      | PE.Failure es' => PE.Failure (es ++ es')
      | PE.Success b => PE.Warning es b
      | PE.Warning es' b => PE.Warning (es ++ es') b
      end
  end.

(** Modelled from the spec: [mutableAppend(es, e)] pushes [e] onto [es]
    and returns the array. *)
Definition mutableAppend (es : list ParseError) (e : ParseError) : list ParseError :=
  es ++ [e].

Definition isNonEmpty (es : list ParseError) : bool :=
  match es with [] => false | _ :: _ => true end.

Definition isUndefined (u : value) : bool :=
  match u with VUndefined => true | _ => false end.

Definition isBigInt (u : value) : bool :=
  match u with VBigInt _ => true | _ => false end.

Definition isSymbol (u : value) : bool :=
  match u with VSymbol _ => true | _ => false end.

(** Modelled from the spec: the test of [ObjectKeyword]
    ([typeof u === "object"] and not [null]). *)
Definition isObject (u : value) : bool :=
  match u with VArray _ | VObject _ => true | _ => false end.

(** [I.isNotNull] of [internal/common.ts], the test of the empty type
    literal: by its name, [u !== null]. *)
Definition isNotNull (u : value) : bool :=
  match u with VNull => false | _ => true end.

(** Modelled from the spec: a record input is an object that is neither
    [null] nor an array ("reject non-object-non-null"). *)
Definition isUnknownObject (u : value) : bool :=
  match u with VObject _ => true | _ => false end.

(** Modelled from the spec: the own keys of an object, string keys
    first, then symbols. *)
Definition ownKeys (o : list (PropertyKey * value)) : list PropertyKey :=
  objectKeys o ++ getOwnPropertySymbols o.

(** Modelled from the spec: "the keys of [input] that match the
    parameter's key kind (string keys, symbol keys, or
    template-literal-constrained keys)"; a refinement has the key kind of
    what it refines.  No other node is the parameter of an index
    signature. *)
Fixpoint getKeysForIndexSignature (input : list (PropertyKey * value)) (parameter : AST)
  : list PropertyKey :=
  match parameter with
  | StringKeyword => objectKeys input
  | TemplateLiteral _ _ => objectKeys input
  | SymbolKeyword => getOwnPropertySymbols input
  | Refinement from _ => getKeysForIndexSignature input from
  | _ => []
  end.

End I.

(* ================================================================= *)
(** ** Control flow of the loops

    A loop body of the source either leaves the parser with [return] or
    goes on to the next iteration (by [continue] or by reaching its end)
    with an updated state. *)

Inductive Loop (S : Type) : Type :=
| Return (t : ParseResult)
| Next (s : S).

Arguments Return {S} t.
Arguments Next {S} s.

(** The state of the [Tuple] parser: [output], [es], [isLeft], [i]. *)
Record TupleState : Type := {
  t_output : list value;
  t_es : list ParseError;
  t_isLeft : bool;
  t_i : nat
}.

(** The state of the [TypeLiteral] parser: [output], [expectedKeys], [es],
    [isLeft]. *)
Record RecordState : Type := {
  r_output : PlainObject;
  r_expectedKeys : PlainObject;
  r_es : list ParseError;
  r_isLeft : bool
}.

(** The state of the [Union] parser: [es] and [output]. *)
Record UnionState : Type := {
  u_es : list ParseError;
  u_output : option (list ParseError * value)
}.

Inductive Direction : Type := decoder | guard | encoder.

Definition unknownArray : AST :=
  AST.tuple [] (Some (AST.unknownKeyword, [])) true.

Definition unknownRecord : AST :=
  AST.typeLiteral [] [
    AST.indexSignature AST.stringKeyword AST.unknownKeyword true;
    AST.indexSignature AST.symbolKeyword AST.unknownKeyword true
  ].

Definition primitive : AST :=
  AST.union [AST.stringKeyword; AST.numberKeyword; AST.booleanKeyword].

Definition hasUnexpectedError (e : ParseError) : bool :=
  match e with
  | PE.Key _ errors => existsb PE.isUnexpected errors
  | PE.Index _ errors => existsb PE.isUnexpected errors
  | _ => false
  end.

(* ================================================================= *)
(** ** The [Tuple] parser *)

Module TupleParser.

Definition push (e : ParseError) (st : TupleState) : TupleState :=
  {| t_output := t_output st; t_es := t_es st ++ [e];
     t_isLeft := t_isLeft st; t_i := t_i st |}.

Definition pushOutput (a : value) (st : TupleState) : TupleState :=
  {| t_output := t_output st ++ [a]; t_es := t_es st;
     t_isLeft := t_isLeft st; t_i := t_i st |}.

Definition setLeft (st : TupleState) : TupleState :=
  {| t_output := t_output st; t_es := t_es st; t_isLeft := true; t_i := t_i st |}.

Definition setIndex (i : nat) (st : TupleState) : TupleState :=
  {| t_output := t_output st; t_es := t_es st; t_isLeft := t_isLeft st; t_i := i |}.

(** [i++], the update of the [for] loops on [i]. *)
Definition incr (st : TupleState) : TupleState := setIndex (t_i st + 1) st.

(** [input[i]] *)
Definition at_ (input : list value) (i : nat) : value := nth i input VUndefined.

Section Loops.
Variable input : list value.
Variable options : option ParseOptions.

(** The body of the loop over [elements], at [i = t_i st]. *)
Definition elementBody (e : Element AST) (parser : Parser) (st : TupleState)
  : Loop TupleState :=
  let i := t_i st in
  if List.length input <? i + 1 then
    if e_isOptional e then Next st
    else
      let e := PE.index i [PE.missing] in
      if optAllErrors options then Next (setLeft (push e st))
      else Return (PE.failure e)
  else
    match parser (at_ input i) options with
    | PE.Failure left_ =>
        let e := PE.index i left_ in
        if optAllErrors options then Next (setLeft (push e st))
        else Return (PE.failures (I.mutableAppend (t_es st) e))
    | PE.Warning left_ right_ => Next (pushOutput right_ (push (PE.index i left_) st))
    | PE.Success right_ => Next (pushOutput right_ st)
    end.

(** [for (; i < elements.length; i++)]: [todo] holds the elements from
    index [i] on, each with its compiled parser. *)
Fixpoint forElements (todo : list (Element AST * Parser)) (st : TupleState)
  : Loop TupleState :=
  match todo with
  | [] => Next st
  | (e, parser) :: todo' =>
      match elementBody e parser st with
      | Return t => Return t
      | Next st' => forElements todo' (incr st')
      end
  end.

(** The body of the loop over the rest region. *)
Definition restBody (head : Parser) (st : TupleState) : Loop TupleState :=
  let i := t_i st in
  match head (at_ input i) options with
  | PE.Failure left_ =>
      let e := PE.index i left_ in
      if optAllErrors options then Next (setLeft (push e st))
      else Return (PE.failures (I.mutableAppend (t_es st) e))
  | PE.Warning left_ right_ => Next (pushOutput right_ (push (PE.index i left_) st))
  | PE.Success right_ => Next (pushOutput right_ st)
  end.

(** [for (; i < input.length - tail.length; i++)], run for the [n]
    iterations that the bound leaves. *)
Fixpoint forRest (head : Parser) (n : nat) (st : TupleState) : Loop TupleState :=
  match n with
  | O => Next st
  | S n' =>
      match restBody head st with
      | Return t => Return t
      | Next st' => forRest head n' (incr st')
      end
  end.

(** The body of the loop over the post-rest elements, which starts with
    [i += j]. *)
Definition postRestBody (parser : Parser) (j : nat) (st0 : TupleState)
  : Loop TupleState :=
  let st := setIndex (t_i st0 + j) st0 in
  let i := t_i st in
  if List.length input <? i + 1 then
    Return (PE.failures (I.mutableAppend (t_es st) (PE.index i [PE.missing])))
  else
    match parser (at_ input i) options with
    | PE.Failure left_ =>
        let e := PE.index i left_ in
        if optAllErrors options then Next (setLeft (push e st))
        else Return (PE.failures (I.mutableAppend (t_es st) e))
    | PE.Warning left_ right_ => Next (pushOutput right_ (push (PE.index i left_) st))
    | PE.Success right_ => Next (pushOutput right_ st)
    end.

(** [for (let j = 0; j < tail.length; j++)]: [todo] holds [tail] from
    index [j] on. *)
Fixpoint forPostRest (todo : list Parser) (j : nat) (st : TupleState)
  : Loop TupleState :=
  match todo with
  | [] => Next st
  | parser :: todo' =>
      match postRestBody parser j st with
      | Return t => Return t
      | Next st' => forPostRest todo' (j + 1) st'
      end
  end.

(** The body of the loop over the unexpected indexes. *)
Definition unexpectedBody (st : TupleState) : Loop TupleState :=
  let i := t_i st in
  let e := PE.index i [PE.unexpected (at_ input i)] in
  if optIsUnexpectedAllowed options then Next (push e st)
  else if optAllErrors options then Next (setLeft (push e st))
  else Return (PE.failures (I.mutableAppend (t_es st) e)).

(** [for (; i < input.length; i++)], run for the [n] iterations that the
    bound leaves. *)
Fixpoint forUnexpected (n : nat) (st : TupleState) : Loop TupleState :=
  match n with
  | O => Next st
  | S n' =>
      match unexpectedBody st with
      | Return t => Return t
      | Next st' => forUnexpected n' (incr st')
      end
  end.

(** The part of the parser after the loop over [elements]. *)
Definition afterElements (rest : option (Parser * list Parser)) (st : TupleState)
  : Loop TupleState :=
  match rest with
  | Some (head, tail) =>
      match forRest head (List.length input - List.length tail - t_i st) st with
      | Return t => Return t
      | Next st' => forPostRest tail 0 st'
      end
  | None => forUnexpected (List.length input - t_i st) st
  end.

(** "compute output" *)
Definition computeOutput (st : TupleState) : ParseResult :=
  if I.isNonEmpty (t_es st) then
    if t_isLeft st then PE.failures (t_es st)
    else PE.warnings (t_es st) (VArray (t_output st))
  else PE.success (VArray (t_output st)).

Definition initial : TupleState :=
  {| t_output := []; t_es := []; t_isLeft := false; t_i := 0 |}.

Definition parseArray (astElements : list (Element AST)) (elements : list Parser)
  (rest : option (Parser * list Parser)) : ParseResult :=
  match forElements (combine astElements elements) initial with
  | Return t => t
  | Next st =>
      match afterElements rest st with
      | Return t => t
      | Next st' => computeOutput st'
      end
  end.

End Loops.

(** The parser of a [Tuple] node, from the node's elements and the
    compiled parsers of its elements and of its rest. *)
Definition parse (astElements : list (Element AST)) (elements : list Parser)
  (rest : option (Parser * list Parser)) : Parser :=
  fun input options =>
    match input with
    | VArray items => parseArray items options astElements elements rest
    | _ => PE.failure (PE.type unknownArray input)
    end.

End TupleParser.

(* ================================================================= *)
(** ** The [TypeLiteral] parser *)

Module RecordParser.

Definition push (e : ParseError) (st : RecordState) : RecordState :=
  {| r_output := r_output st; r_expectedKeys := r_expectedKeys st;
     r_es := r_es st ++ [e]; r_isLeft := r_isLeft st |}.

(** [output[k] = a] *)
Definition setOutput (k : PropertyKey) (a : value) (st : RecordState) : RecordState :=
  {| r_output := assign (r_output st) k a; r_expectedKeys := r_expectedKeys st;
     r_es := r_es st; r_isLeft := r_isLeft st |}.

Definition setLeft (st : RecordState) : RecordState :=
  {| r_output := r_output st; r_expectedKeys := r_expectedKeys st;
     r_es := r_es st; r_isLeft := true |}.

(** [expectedKeys[name] = null] *)
Definition expect (name : PropertyKey) (st : RecordState) : RecordState :=
  {| r_output := r_output st;
     r_expectedKeys := assign (r_expectedKeys st) name VNull;
     r_es := r_es st; r_isLeft := r_isLeft st |}.

(** [Object.prototype.hasOwnProperty.call(expectedKeys, key)] *)
Definition isExpected (st : RecordState) (key : PropertyKey) : bool :=
  hasOwnProperty (o_own (r_expectedKeys st)) key.

Section Loops.
Variable input : list (PropertyKey * value).
Variable options : option ParseOptions.

(** The body of the loop over the property signatures. *)
Definition propertyBody (ps : PropertySignature AST) (parser : Parser)
  (st0 : RecordState) : Loop RecordState :=
  let name := ps_name ps in
  let st := expect name st0 in
  if negb (hasOwnProperty input name) then
    if ps_isOptional ps then Next st
    else
      let e := PE.key name [PE.missing] in
      if optAllErrors options then Next (setLeft (push e st))
      else Return (PE.failure e)
  else
    match parser (getProperty input name) options with
    | PE.Failure left_ =>
        let e := PE.key name left_ in
        if optAllErrors options then Next (setLeft (push e st))
        else Return (PE.failures (I.mutableAppend (r_es st) e))
    | PE.Warning left_ right_ =>
        Next (setOutput name right_ (push (PE.key name left_) st))
    | PE.Success right_ => Next (setOutput name right_ st)
    end.

(** [for (let i = 0; i < propertySignaturesTypes.length; i++)] *)
Fixpoint forProperties (todo : list (PropertySignature AST * Parser))
  (st : RecordState) : Loop RecordState :=
  match todo with
  | [] => Next st
  | (ps, parser) :: todo' =>
      match propertyBody ps parser st with
      | Return t => Return t
      | Next st' => forProperties todo' st'
      end
  end.

(** "handle values", the second half of the body of the loop over the
    keys of an index signature. *)
Definition indexValue (type : Parser) (key : PropertyKey) (st : RecordState)
  : Loop RecordState :=
  match type (getProperty input key) options with
  | PE.Failure left_ =>
      let e := PE.key key left_ in
      if optAllErrors options then Next (setLeft (push e st))
      else Return (PE.failures (I.mutableAppend (r_es st) e))
  | PE.Warning left_ right_ =>
      Next (setOutput key right_ (push (PE.key key left_) st))
  | PE.Success right_ => Next (setOutput key right_ st)
  end.

(** The body of the loop over the keys of an index signature: "handle
    keys", then "handle values". *)
Definition indexBody (parameter type : Parser) (key : PropertyKey) (st : RecordState)
  : Loop RecordState :=
  match parameter (keyValue key) options with
  | PE.Failure left_ =>
      let e := PE.key key left_ in
      if optAllErrors options then Next (setLeft (push e st))
      else Return (PE.failures (I.mutableAppend (r_es st) e))
  | PE.Warning left_ _ => indexValue type key (push (PE.key key left_) st)
  | PE.Success _ => indexValue type key st
  end.

(** [for (const key of keys)] *)
Fixpoint forKeys (parameter type : Parser) (keys : list PropertyKey)
  (st : RecordState) : Loop RecordState :=
  match keys with
  | [] => Next st
  | key :: keys' =>
      match indexBody parameter type key st with
      | Return t => Return t
      | Next st' => forKeys parameter type keys' st'
      end
  end.

(** [for (let i = 0; i < indexSignatures.length; i++)]: each index
    signature of the node with its two compiled parsers. *)
Fixpoint forIndexSignatures (todo : list (IndexSignature AST * (Parser * Parser)))
  (st : RecordState) : Loop RecordState :=
  match todo with
  | [] => Next st
  | (sig, (parameter, type)) :: todo' =>
      let keys := I.getKeysForIndexSignature input (is_parameter sig) in
      match forKeys parameter type keys st with
      | Return t => Return t
      | Next st' => forIndexSignatures todo' st'
      end
  end.

(** The body of the loop over the own keys, "handle unexpected keys". *)
Definition unexpectedBody (key : PropertyKey) (st : RecordState) : Loop RecordState :=
  if negb (isExpected st key) then
    let e := PE.key key [PE.unexpected (getProperty input key)] in
    if optIsUnexpectedAllowed options then Next (push e st)
    else if optAllErrors options then Next (setLeft (push e st))
    else Return (PE.failures (I.mutableAppend (r_es st) e))
  else Next st.

(** [for (const key of I.ownKeys(input))] *)
Fixpoint forUnexpected (keys : list PropertyKey) (st : RecordState)
  : Loop RecordState :=
  match keys with
  | [] => Next st
  | key :: keys' =>
      match unexpectedBody key st with
      | Return t => Return t
      | Next st' => forUnexpected keys' st'
      end
  end.

(** The part of the parser after the loop over the property signatures. *)
Definition afterProperties (astIndexSignatures : list (IndexSignature AST))
  (indexSignatures : list (Parser * Parser)) (st : RecordState) : Loop RecordState :=
  if 0 <? List.length indexSignatures
  then forIndexSignatures (combine astIndexSignatures indexSignatures) st
  else forUnexpected (I.ownKeys input) st.

(** "compute output" *)
Definition computeOutput (st : RecordState) : ParseResult :=
  if I.isNonEmpty (r_es st) then
    if r_isLeft st then PE.failures (r_es st)
    else PE.warnings (r_es st) (VObject (o_own (r_output st)))
  else PE.success (VObject (o_own (r_output st))).

Definition initial : RecordState :=
  {| r_output := emptyObject; r_expectedKeys := emptyObject;
     r_es := []; r_isLeft := false |}.

Definition parseObject (propertySignatures : list (PropertySignature AST))
  (propertySignaturesTypes : list Parser)
  (astIndexSignatures : list (IndexSignature AST))
  (indexSignatures : list (Parser * Parser)) : ParseResult :=
  match forProperties (combine propertySignatures propertySignaturesTypes) initial with
  | Return t => t
  | Next st =>
      match afterProperties astIndexSignatures indexSignatures st with
      | Return t => t
      | Next st' => computeOutput st'
      end
  end.

End Loops.

(** The parser of a [TypeLiteral] node, from the node and the compiled
    parsers of its signatures. *)
Definition parse (ast : AST) (propertySignatures : list (PropertySignature AST))
  (propertySignaturesTypes : list Parser)
  (astIndexSignatures : list (IndexSignature AST))
  (indexSignatures : list (Parser * Parser)) : Parser :=
  if (List.length propertySignaturesTypes =? 0) && (List.length indexSignatures =? 0)
  then I.fromRefinement I.isNotNull (fun u => PE.type ast u)
  else
    fun input options =>
      match input with
      | VObject props =>
          parseObject props options propertySignatures propertySignaturesTypes
            astIndexSignatures indexSignatures
      | _ => PE.failure (PE.type unknownRecord input)
      end.

End RecordParser.

(* ================================================================= *)
(** ** The [Union] parser *)

Module UnionParser.

(** [left.filter(hasUnexpectedError).length] *)
Definition unexpectedCount (left_ : list ParseError) : nat :=
  List.length (filter hasUnexpectedError left_).

Section Loop.
Variable u : value.
Variable options : option ParseOptions.

(** The body of the loop "compute best output". *)
Definition memberBody (parser : Parser) (st : UnionState) : Loop UnionState :=
  match parser u options with
  | PE.Success right_ => Return (PE.Success right_)
  | PE.Warning left_ right_ =>
      match u_output st with
      | None => Next {| u_es := u_es st; u_output := Some (left_, right_) |}
      | Some (oleft, oright) =>
          if unexpectedCount left_ <? unexpectedCount oleft
          then Next {| u_es := u_es st; u_output := Some (left_, right_) |}
          else Next st
      end
  | PE.Failure left_ =>
      Next {| u_es := u_es st ++ [PE.member left_]; u_output := u_output st |}
  end.

(** [for (let i = 0; i < types.length; i++)] *)
Fixpoint forTypes (todo : list Parser) (st : UnionState) : Loop UnionState :=
  match todo with
  | [] => Next st
  | parser :: todo' =>
      match memberBody parser st with
      | Return t => Return t
      | Next st' => forTypes todo' st'
      end
  end.

(** "compute output" *)
Definition computeOutput (st : UnionState) : ParseResult :=
  match u_output st with
  | Some (left_, right_) => PE.Warning left_ right_
  | None =>
      if I.isNonEmpty (u_es st) then PE.failures (u_es st)
      else PE.failure (PE.type AST.neverKeyword u)
  end.

Definition initial : UnionState := {| u_es := []; u_output := None |}.

End Loop.

Definition parse (types : list Parser) : Parser :=
  fun u options =>
    match forTypes u options types initial with
    | Return t => t
    | Next st => computeOutput u st
    end.

End UnionParser.

(** *** The diagnostics a [Union] compares, as the specification names them

    An unexpected-key/index diagnostic is an error [Key(k, errors)] or
    [Index(i, errors)] one of whose [errors] is an [Unexpected].  This
    is written from the specification and compared with
    [hasUnexpectedError] below. *)
Inductive UnexpectedDiagnostic : ParseError -> Prop :=
| unexpectedKey (k : PropertyKey) (errors : list ParseError) (actual : value) :
    In (PE.Unexpected actual) errors ->
    UnexpectedDiagnostic (PE.Key k errors)
| unexpectedIndex (i : nat) (errors : list ParseError) (actual : value) :
    In (PE.Unexpected actual) errors ->
    UnexpectedDiagnostic (PE.Index i errors).

(** [unexpectedDiagnostics es n]: [n] of the errors [es] are
    unexpected-key/index diagnostics. *)
Inductive unexpectedDiagnostics : list ParseError -> nat -> Prop :=
| noDiagnostics : unexpectedDiagnostics [] 0
| oneMore (e : ParseError) (es : list ParseError) (n : nat) :
    UnexpectedDiagnostic e ->
    unexpectedDiagnostics es n ->
    unexpectedDiagnostics (e :: es) (S n)
| noMore (e : ParseError) (es : list ParseError) (n : nat) :
    ~ UnexpectedDiagnostic e ->
    unexpectedDiagnostics es n ->
    unexpectedDiagnostics (e :: es) n.

(* ================================================================= *)
(** ** The interpreter [parserFor] *)

(** [a === b] where one side is a primitive (the payload of a literal,
    of a unique symbol or of an enum member). *)
Definition strictEquals (a b : value) : bool :=
  match a, b with
  | VUndefined, VUndefined => true
  | VNull, VNull => true
  | VBoolean x, VBoolean y => Bool.eqb x y
  | VNumber x, VNumber y => Z.eqb x y
  | VString x, VString y => String.eqb x y
  | VBigInt x, VBigInt y => Z.eqb x y
  | VSymbol x, VSymbol y => Nat.eqb x y
  | _, _ => false
  end.

(** What the interpreter takes from its environment: the host's
    [BigInt(u)] ([None] when it throws), the hook registry (the handler
    registered for a node, if any) and the test
    [I.getTemplateLiteralRegex(ast).test(s)]. *)
Record Environment : Type := {
  BigInt : value -> option Z;
  getHook : AST -> option (list Parser -> Parser);
  getTemplateLiteralRegex : AST -> string -> bool
}.

Section Interpreter.
Variable env : Environment.

Section Go.
Variable as_ : Direction.

Fixpoint go (ast : AST) {struct ast} : Parser :=
  match ast with
  | TypeAlias typeParameters type =>
      match getHook env (TypeAlias typeParameters type) with
      | None => go type
      | Some handler => handler (map go typeParameters)
      end
  | Literal literal =>
      I.fromRefinement (fun u => strictEquals u (literalValue literal))
        (fun u => PE.equal (literalValue literal) u)
  | UniqueSymbol symbol =>
      I.fromRefinement (fun u => strictEquals u (VSymbol symbol))
        (fun u => PE.equal (VSymbol symbol) u)
  | UndefinedKeyword =>
      I.fromRefinement I.isUndefined (fun u => PE.type UndefinedKeyword u)
  | VoidKeyword =>
      I.fromRefinement I.isUndefined (fun u => PE.type VoidKeyword u)
  | NeverKeyword => fun u _ => PE.failure (PE.type NeverKeyword u)
  | UnknownKeyword => fun u _ => PE.success u
  | AnyKeyword => fun u _ => PE.success u
  | StringKeyword => I.fromRefinement isString (fun u => PE.type StringKeyword u)
  | NumberKeyword =>
      fun u _ => if isNumber u then PE.success u
                 else PE.failure (PE.type NumberKeyword u)
  | BooleanKeyword => I.fromRefinement isBoolean (fun u => PE.type BooleanKeyword u)
  | BigIntKeyword =>
      fun u _ =>
        if I.isBigInt u then PE.success u
        else if isString u || isNumber u || isBoolean u then
          match BigInt env u with
          | Some z => PE.success (VBigInt z)
          | None => PE.failure (PE.transform primitive BigIntKeyword u)
          end
        else PE.failure (PE.type primitive u)
  | SymbolKeyword => I.fromRefinement I.isSymbol (fun u => PE.type SymbolKeyword u)
  | ObjectKeyword => I.fromRefinement I.isObject (fun u => PE.type ObjectKeyword u)
  | Tuple astElements astRest isReadonly =>
      let elements := map (fun e => go (e_type e)) astElements in
      let rest :=
        match astRest with
        | Some (head, tail) => Some (go head, map go tail)
        | None => None
        end in
      TupleParser.parse astElements elements rest
  | TypeLiteral astPropertySignatures astIndexSignatures =>
      let propertySignaturesTypes :=
        map (fun f => go (ps_type f)) astPropertySignatures in
      let indexSignatures :=
        map (fun s => (go (is_parameter s), go (is_type s))) astIndexSignatures in
      RecordParser.parse (TypeLiteral astPropertySignatures astIndexSignatures)
        astPropertySignatures propertySignaturesTypes
        astIndexSignatures indexSignatures
  | Union astTypes => UnionParser.parse (map go astTypes)
  | Lazy identifier f => fun a options => go (f tt) a options
  | Enums enums =>
      fun u _ =>
        if existsb (fun e => strictEquals (snd e) u) enums then PE.success u
        else PE.failure (PE.type (Enums enums) u)
  | Refinement from decode =>
      let type := go from in
      fun u options => I.flatMap decode (type u options)
  | TemplateLiteral head spans =>
      let regex := getTemplateLiteralRegex env (TemplateLiteral head spans) in
      fun u _ =>
        match u with
        | VString s =>
            if regex s then PE.success u
            else PE.failure (PE.type (TemplateLiteral head spans) u)
        | _ => PE.failure (PE.type AST.stringKeyword u)
        end
  | Transform from to decode encode =>
      match as_ with
      | decoder =>
          let from := go from in
          fun u options => I.flatMap (fun a => decode a options) (from u options)
      | guard => go to
      | encoder =>
          let from := go from in
          fun a options => I.flatMap (fun a => from a options) (encode a options)
      end
  end.

End Go.

(** [parserFor(schema, as)]; a schema is identified with its AST. *)
Definition parserFor (schema : AST) (as_ : Direction) : Parser := go as_ schema.

Definition decode (schema : AST) : Parser := parserFor schema decoder.

(** [is] of the source, the guard operation. *)
Definition is_ (schema : AST) (input : value) (options : option ParseOptions) : bool :=
  negb (PE.isFailure (parserFor schema guard input options)).

Definition encode (schema : AST) : Parser := parserFor schema encoder.

End Interpreter.

(* ================================================================= *)
(** ** A host for the examples *)

Module Host.

Fixpoint digitsValue (s : string) (acc : Z) : option Z :=
  match s with
  | EmptyString => Some acc
  | String c s' =>
      let n := Ascii.nat_of_ascii c in
      if (48 <=? n) && (n <=? 57)
      then digitsValue s' (10 * acc + Z.of_nat (n - 48))%Z
      else None
  end.

(** [BigInt(u)] on booleans, on the integers and on strings of decimal
    digits; every other argument throws. *)
Definition bigInt (u : value) : option Z :=
  match u with
  | VBoolean true => Some 1%Z
  | VBoolean false => Some 0%Z
  | VNumber n => Some n
  | VString s => digitsValue s 0%Z
  | _ => None
  end.

(** No node has a hook. *)
Definition noHook (ast : AST) : option (list Parser -> Parser) := None.

(** A template literal whose pattern accepts every string. *)
Definition anyString (ast : AST) (s : string) : bool := true.

Definition env : Environment :=
  {| BigInt := bigInt; getHook := noHook; getTemplateLiteralRegex := anyString |}.

Definition go : Direction -> AST -> Parser := go env.
Definition decode : AST -> Parser := decode env.
Definition is_ : AST -> value -> option ParseOptions -> bool := is_ env.
Definition encode : AST -> Parser := encode env.

Definition element (type : AST) : Element AST :=
  {| e_type := type; e_isOptional := false |}.

Definition property (name : string) (type : AST) : PropertySignature AST :=
  {| ps_name := KString name; ps_type := type;
     ps_isOptional := false; ps_isReadonly := true |}.

Definition optionalProperty (name : string) (type : AST) : PropertySignature AST :=
  {| ps_name := KString name; ps_type := type;
     ps_isOptional := true; ps_isReadonly := true |}.

Definition opts (unexpectedAllowed all : bool) : option ParseOptions :=
  Some {| isUnexpectedAllowed := Some unexpectedAllowed; allErrors := Some all |}.

End Host.

(* ================================================================= *)
(** ** Structure of AST nodes *)

(** The nodes that a node refers to directly. *)
Definition children (ast : AST) : list AST :=
  match ast with
  | TypeAlias typeParameters type => type :: typeParameters
  | Tuple elements rest _ =>
      map (@e_type AST) elements
        ++ match rest with Some (head, tail) => head :: tail | None => [] end
  | TypeLiteral propertySignatures indexSignatures =>
      map (@ps_type AST) propertySignatures
        ++ map (@is_parameter AST) indexSignatures
        ++ map (@is_type AST) indexSignatures
  | Union types => types
  | Lazy _ f => [f tt]
  | Refinement from _ => [from]
  | Transform from to _ _ => [from; to]
  | _ => []
  end.

(** [transformFree ast]: no [Transform] node occurs in [ast]. *)
Fixpoint transformFree (ast : AST) : bool :=
  match ast with
  | TypeAlias typeParameters type =>
      transformFree type && forallb transformFree typeParameters
  | Tuple elements rest _ =>
      forallb (fun e => transformFree (e_type e)) elements
        && match rest with
           | Some (head, tail) => transformFree head && forallb transformFree tail
           | None => true
           end
  | TypeLiteral propertySignatures indexSignatures =>
      forallb (fun f => transformFree (ps_type f)) propertySignatures
        && forallb (fun s => transformFree (is_parameter s) && transformFree (is_type s))
             indexSignatures
  | Union types => forallb transformFree types
  | Lazy _ f => transformFree (f tt)
  | Refinement from _ => transformFree from
  | Transform _ _ _ _ => false
  | _ => true
  end.

Section Induction.
Variable P : AST -> Prop.
Hypothesis step : forall ast, Forall P (children ast) -> P ast.

Definition Forall_all (rec : forall a, P a) : forall l, Forall P l :=
  fix all l :=
    match l with
    | [] => Forall_nil P
    | a :: l' => Forall_cons a (rec a) (all l')
    end.

Definition Forall_all_map (B : Type) (g : B -> AST) (rec : forall a, P a)
  : forall l, Forall P (map g l) :=
  fix all l :=
    match l with
    | [] => Forall_nil P
    | b :: l' => Forall_cons (g b) (rec (g b)) (all l')
    end.

Definition Forall_append (l1 l2 : list AST) (H1 : Forall P l1) (H2 : Forall P l2)
  : Forall P (l1 ++ l2) :=
  proj2 (Forall_app P l1 l2) (conj H1 H2).

(** Induction on an AST through [children]. *)
Fixpoint AST_children_ind (ast : AST) : P ast :=
  step ast
    (match ast as a return Forall P (children a) with
     | TypeAlias typeParameters type =>
         Forall_cons type (AST_children_ind type)
           (Forall_all AST_children_ind typeParameters)
     | Tuple elements rest _ =>
         Forall_append
           (Forall_all_map (@e_type AST) AST_children_ind elements)
           (match rest as r
                  return Forall P (match r with
                                   | Some (head, tail) => head :: tail
                                   | None => []
                                   end) with
            | Some (head, tail) =>
                Forall_cons head (AST_children_ind head)
                  (Forall_all AST_children_ind tail)
            | None => Forall_nil P
            end)
     | TypeLiteral propertySignatures indexSignatures =>
         Forall_append
           (Forall_all_map (@ps_type AST) AST_children_ind propertySignatures)
           (Forall_append
              (Forall_all_map (@is_parameter AST) AST_children_ind indexSignatures)
              (Forall_all_map (@is_type AST) AST_children_ind indexSignatures))
     | Union types => Forall_all AST_children_ind types
     | Lazy _ f => Forall_cons (f tt) (AST_children_ind (f tt)) (Forall_nil P)
     | Refinement from _ =>
         Forall_cons from (AST_children_ind from) (Forall_nil P)
     | Transform from to _ _ =>
         Forall_cons from (AST_children_ind from)
           (Forall_cons to (AST_children_ind to) (Forall_nil P))
     | _ => Forall_nil P
     end).

End Induction.

(* ================================================================= *)
(** ** The tuple walk of the specification

    The specification describes the [Tuple] parser position by position:
    every position of the input is visited and contributes what was found
    there.  The definitions of this module follow those words; they are
    what the loops of [TupleParser] are compared with. *)

Module Walk.

(** What a visit finds at one position. *)
Inductive Outcome : Type :=
| Skipped                                  (* an optional element that is absent *)
| Fatal (e : ParseError)                   (* a fatal error *)
| Warned (e : ParseError) (a : value)      (* a value with warnings *)
| Noted (e : ParseError)                   (* a tolerated unexpected index *)
| Valid (a : value).                       (* a value *)

Definition errorOf (o : Outcome) : list ParseError :=
  match o with
  | Fatal e => [e]
  | Warned e _ => [e]
  | Noted e => [e]
  | Skipped => []
  | Valid _ => []
  end.

Definition valueOf (o : Outcome) : list value :=
  match o with
  | Warned _ a => [a]
  | Valid a => [a]
  | _ => []
  end.

Definition isFatal (o : Outcome) : bool :=
  match o with Fatal _ => true | _ => false end.

Definition errorsOf (outcomes : list Outcome) : list ParseError :=
  flat_map errorOf outcomes.

Definition valuesOf (outcomes : list Outcome) : list value :=
  flat_map valueOf outcomes.

(** The result of a walk: [Failure] if at least one error is fatal,
    otherwise [Warning] if there are diagnostics, otherwise [Success]; the
    value is the array of the values found, in input order. *)
Definition report (outcomes : list Outcome) : ParseResult :=
  match errorsOf outcomes with
  | [] => PE.Success (VArray (valuesOf outcomes))
  | es =>
      if existsb isFatal outcomes then PE.Failure es
      else PE.Warning es (VArray (valuesOf outcomes))
  end.

Section Positions.
Variable input : list value.
Variable options : option ParseOptions.

Definition present (i : nat) : bool := i <? List.length input.

(** A present position parsed with [parser]: a failure is wrapped as
    [Index(i, errs)], warnings are attached as [Index(i, warns)] and the
    value is kept. *)
Definition parsed (i : nat) (parser : Parser) : Outcome :=
  match parser (nth i input VUndefined) options with
  | PE.Failure errs => Fatal (PE.Index i errs)
  | PE.Warning warns a => Warned (PE.Index i warns) a
  | PE.Success a => Valid a
  end.

(** Position [i] of the fixed elements. *)
Definition element (i : nat) (e : Element AST) (parser : Parser) : Outcome :=
  if present i then parsed i parser
  else if e_isOptional e then Skipped
  else Fatal (PE.Index i [PE.Missing]).

(** Position [i] of the post-rest tail. *)
Definition postRest (i : nat) (parser : Parser) : Outcome :=
  if present i then parsed i parser
  else Fatal (PE.Index i [PE.Missing]).

(** An extra position [i] of a tuple without rest. *)
Definition unexpected (i : nat) : Outcome :=
  let e := PE.Index i [PE.Unexpected (nth i input VUndefined)] in
  if optIsUnexpectedAllowed options then Noted e else Fatal e.

(** The fixed elements, from position [i] on. *)
Fixpoint elements (i : nat) (todo : list (Element AST * Parser)) : list Outcome :=
  match todo with
  | [] => []
  | (e, parser) :: todo' => element i e parser :: elements (i + 1) todo'
  end.

(** The rest region: positions [from], ..., [from + n - 1], each parsed
    with the head of the rest. *)
Definition restRegion (head : Parser) (from n : nat) : list Outcome :=
  map (fun i => parsed i head) (seq from n).

(** The post-rest tail, every position of it, from position [i] on. *)
Fixpoint postRestAll (i : nat) (tail : list Parser) : list Outcome :=
  match tail with
  | [] => []
  | parser :: tail' => postRest i parser :: postRestAll (i + 1) tail'
  end.


(** The extra positions [from], ..., [from + n - 1]. *)
Definition unexpectedRegion (from n : nat) : list Outcome :=
  map unexpected (seq from n).

(** Where the post-rest tail starts: after the fixed elements and after
    the rest region, which ends [m] positions before the end of the
    input. *)
Definition postRestStart (n m : nat) : nat := Nat.max n (List.length input - m).

(** The walk of a whole tuple; [post] walks the post-rest tail. *)
Definition tuple (post : nat -> list Parser -> list Outcome)
  (astElements : list (Element AST)) (parsers : list Parser)
  (rest : option (Parser * list Parser)) : list Outcome :=
  let todo := combine astElements parsers in
  let n := List.length todo in
  elements 0 todo
    ++ match rest with
       | Some (head, tail) =>
           let m := List.length tail in
           restRegion head n (List.length input - m - n)
             ++ post (postRestStart n m) tail
       | None => unexpectedRegion n (List.length input - n)
       end.

End Positions.

(** Every position is visited. *)
Definition everyPosition input options := tuple input options (postRestAll input options).


End Walk.

(** ** The state of the [Tuple] parser after a walk *)

(** What the loops of [TupleParser] do to the state for one outcome, and
    for a list of them. *)
Definition absorb (st : TupleState) (o : Walk.Outcome) : TupleState :=
  match o with
  | Walk.Skipped => st
  | Walk.Fatal e => TupleParser.setLeft (TupleParser.push e st)
  | Walk.Warned e a => TupleParser.pushOutput a (TupleParser.push e st)
  | Walk.Noted e => TupleParser.push e st
  | Walk.Valid a => TupleParser.pushOutput a st
  end.

Definition absorbAll (outcomes : list Walk.Outcome) (st : TupleState) : TupleState :=
  fold_left absorb outcomes st.

(** The result of the parser when a loop has ended. *)
Definition finish (l : Loop TupleState) : ParseResult :=
  match l with
  | Return t => t
  | Next st => TupleParser.computeOutput st
  end.

(* ================================================================= *)
(** ** The record walk of the specification

    As for tuples, the specification describes the [TypeLiteral] parser
    key by key: the property signatures in declaration order, then the
    keys of each index signature or, without index signatures, the own
    keys that are not expected.  The definitions of this module follow
    those words, with what the host does at the key [__proto__]; they
    are what the loops of [RecordParser] are compared with. *)

Module RecordWalk.

(** What a visit finds at one key. *)
Inductive Outcome : Type :=
| Skipped                                              (* nothing to report *)
| Fatal (e : ParseError)                               (* a fatal error *)
| Warned (e : ParseError) (k : PropertyKey) (a : value)  (* a value with warnings *)
| Noted (e : ParseError)                               (* a warning without value *)
| Valid (k : PropertyKey) (a : value).                 (* a value *)

Definition errorOf (o : Outcome) : list ParseError :=
  match o with
  | Fatal e => [e]
  | Warned e _ _ => [e]
  | Noted e => [e]
  | Skipped => []
  | Valid _ _ => []
  end.

Definition isFatal (o : Outcome) : bool :=
  match o with Fatal _ => true | _ => false end.

Definition errorsOf (outcomes : list Outcome) : list ParseError :=
  flat_map errorOf outcomes.

(** The output object: a fresh object to which the validated keys are
    assigned, each with its value, in the order of the walk. *)
Definition store (output : PlainObject) (o : Outcome) : PlainObject :=
  match o with
  | Warned _ k a => assign output k a
  | Valid k a => assign output k a
  | _ => output
  end.

Definition outputOf (outcomes : list Outcome) : list (PropertyKey * value) :=
  o_own (fold_left store outcomes emptyObject).

(** [storesAt k o]: the outcome [o] has a value for the key [k]. *)
Definition storesAt (k : PropertyKey) (o : Outcome) : bool :=
  match o with
  | Warned _ k' _ => PropertyKey_eqb k' k
  | Valid k' _ => PropertyKey_eqb k' k
  | _ => false
  end.

(** The keys that are expected when the property signatures with the
    names [names] have been walked: the names, but [__proto__], which is
    expected only when two signatures at least have that name (the
    first assignment [expectedKeys["__proto__"] = null] sets the
    prototype of [expectedKeys] to [null] and creates no own
    property). *)
Definition expected (names : list PropertyKey) (key : PropertyKey) : bool :=
  if PropertyKey_eqb key protoKey
  then 2 <=? List.length (filter (fun name => PropertyKey_eqb name protoKey) names)
  else existsb (fun name => PropertyKey_eqb name key) names.

(** The result of a walk: [Failure] if at least one error is fatal,
    otherwise [Warning] if there are diagnostics, otherwise [Success]. *)
Definition report (outcomes : list Outcome) : ParseResult :=
  match errorsOf outcomes with
  | [] => PE.Success (VObject (outputOf outcomes))
  | es =>
      if existsb isFatal outcomes then PE.Failure es
      else PE.Warning es (VObject (outputOf outcomes))
  end.

Section Keys.
Variable input : list (PropertyKey * value).
Variable options : option ParseOptions.

(** The value of a present key, parsed: a failure is wrapped as
    [Key(k, errs)], warnings are attached as [Key(k, warns)] and the value
    is kept. *)
Definition parsed (k : PropertyKey) (parser : Parser) : Outcome :=
  match parser (getProperty input k) options with
  | PE.Failure errs => Fatal (PE.Key k errs)
  | PE.Warning warns a => Warned (PE.Key k warns) k a
  | PE.Success a => Valid k a
  end.

(** A property signature. *)
Definition property (q : PropertySignature AST * Parser) : Outcome :=
  let name := ps_name (fst q) in
  if hasOwnProperty input name then parsed name (snd q)
  else if ps_isOptional (fst q) then Skipped
  else Fatal (PE.Key name [PE.Missing]).

(** A key of an index signature: the key itself is parsed with the
    parameter parser, then its value with the value parser. *)
Definition indexKey (parameter type : Parser) (key : PropertyKey) : list Outcome :=
  match parameter (keyValue key) options with
  | PE.Failure errs => [Fatal (PE.Key key errs)]
  | PE.Warning warns _ => [Noted (PE.Key key warns); parsed key type]
  | PE.Success _ => [parsed key type]
  end.

(** An index signature: its keys are those of its parameter's key kind. *)
Definition indexSignature (q : IndexSignature AST * (Parser * Parser)) : list Outcome :=
  flat_map (indexKey (fst (snd q)) (snd (snd q)))
    (I.getKeysForIndexSignature input (is_parameter (fst q))).

(** An own key, when there is no index signature: it is unexpected if it
    is not an expected key. *)
Definition unexpected (names : list PropertyKey) (key : PropertyKey) : Outcome :=
  if expected names key then Skipped
  else
    let e := PE.Key key [PE.Unexpected (getProperty input key)] in
    if optIsUnexpectedAllowed options then Noted e else Fatal e.

(** The walk of a whole record. *)
Definition record (propertySignatures : list (PropertySignature AST))
  (parsers : list Parser) (indexSignatures : list (IndexSignature AST))
  (sigParsers : list (Parser * Parser)) : list Outcome :=
  let todo := combine propertySignatures parsers in
  map property todo
    ++ match sigParsers with
       | [] => map (unexpected (map (fun q => ps_name (fst q)) todo)) (I.ownKeys input)
       | _ :: _ => flat_map indexSignature (combine indexSignatures sigParsers)
       end.

End Keys.

End RecordWalk.

(** What the loops of [RecordParser] do to the state for one outcome, and
    for a list of them. *)
Definition absorbKey (st : RecordState) (o : RecordWalk.Outcome) : RecordState :=
  match o with
  | RecordWalk.Skipped => st
  | RecordWalk.Fatal e => RecordParser.setLeft (RecordParser.push e st)
  | RecordWalk.Warned e k a => RecordParser.setOutput k a (RecordParser.push e st)
  | RecordWalk.Noted e => RecordParser.push e st
  | RecordWalk.Valid k a => RecordParser.setOutput k a st
  end.

Definition absorbKeys (outcomes : list RecordWalk.Outcome) (st : RecordState)
  : RecordState :=
  fold_left absorbKey outcomes st.

(** [expectedKeys[name] = null] for each of [names]. *)
Definition expectAll (names : list PropertyKey) (st : RecordState) : RecordState :=
  fold_left (fun s name => RecordParser.expect name s) names st.

(** The same on the object [expectedKeys] alone. *)
Definition declareAll (names : list PropertyKey) (expectedKeys : PlainObject)
  : PlainObject :=
  fold_left (fun o name => assign o name VNull) names expectedKeys.

(** The number of the names that are [__proto__]. *)
Definition protoCount (names : list PropertyKey) : nat :=
  List.length (filter (fun name => PropertyKey_eqb name protoKey) names).

(** [expectedKeys] after [n] assignments [expectedKeys["__proto__"] =
    null]: the first sets the prototype to [null], the second creates
    the own property. *)
Definition declaredProto (n : nat) (expectedKeys : PlainObject) : Prop :=
  o_prototype expectedKeys = (if n =? 0 then ObjectPrototype else NullPrototype)
  /\ hasOwnProperty (o_own expectedKeys) protoKey = (2 <=? n).

(** ** The results of the branches of a union *)

Definition branchResults (u : value) (options : option ParseOptions)
  (types : list Parser) : list ParseResult :=
  map (fun parser => parser u options) types.

(** ** Validated property signatures *)

(** A property signature, with its compiled parser, that does not make
    the parse of [input] fail: its key is present and its value is
    validated, or its key is absent and it is optional. *)
Definition propertyOk (input : list (PropertyKey * value))
  (options : option ParseOptions) (q : PropertySignature AST * Parser) : Prop :=
  (hasOwnProperty input (ps_name (fst q)) = true
   /\ PE.isFailure (snd q (getProperty input (ps_name (fst q))) options) = false)
  \/ (hasOwnProperty input (ps_name (fst q)) = false /\ ps_isOptional (fst q) = true).

(** ** Keys of the diagnostics and of the output of a record parse *)

(** Every error of [es] is a [Key(k, ...)] whose key satisfies [A]. *)
Definition keysWithin (A : PropertyKey -> Prop) (es : list ParseError) : Prop :=
  forall e, In e es -> exists k errs, e = PE.Key k errs /\ A k.

(** The errors and the output of a state have keys that satisfy [A]. *)
Definition stateWithin (A : PropertyKey -> Prop) (st : RecordState) : Prop :=
  keysWithin A (r_es st)
  /\ forall k, hasOwnProperty (o_own (r_output st)) k = true -> A k.

Definition loopWithin (A : PropertyKey -> Prop) (l : Loop RecordState) : Prop :=
  match l with
  | Return t => keysWithin A (PE.errorsOf t) /\ PE.isFailure t = true
  | Next st => stateWithin A st
  end.

(** ** Schemas and inputs of the examples *)

Module Examples.

(** A transform between the strings ["true"], ["false"] and the
    booleans. *)
Definition booleanFromString : AST :=
  Transform StringKeyword BooleanKeyword
    (fun a _ =>
       match a with
       | VString "true" => PE.Success (VBoolean true)
       | VString "false" => PE.Success (VBoolean false)
       | _ => PE.Failure [PE.Transform StringKeyword BooleanKeyword a]
       end)
    (fun a _ =>
       match a with
       | VBoolean true => PE.Success (VString "true")
       | VBoolean false => PE.Success (VString "false")
       | _ => PE.Failure [PE.Transform BooleanKeyword StringKeyword a]
       end).

(** [[string]] *)
Definition oneString : AST := Tuple [Host.element StringKeyword] None true.

(** [[[], string]]: an empty tuple, then a string. *)
Definition emptyThenString : AST :=
  Tuple [Host.element (Tuple [] None true); Host.element StringKeyword] None true.

(** [{ a: [], b: string }] *)
Definition recordEmptyThenString : AST :=
  TypeLiteral [Host.property "a" (Tuple [] None true);
               Host.property "b" StringKeyword] [].

(** [[...unknown[], string, string]] *)
Definition restThenTwoStrings : AST :=
  Tuple [] (Some (UnknownKeyword, [StringKeyword; StringKeyword])) true.

(** [[...unknown[], string, string, string]] *)
Definition restThenThreeStrings : AST :=
  Tuple [] (Some (UnknownKeyword, [StringKeyword; StringKeyword; StringKeyword])) true.

(** [{kind: "a", x: number} | {kind: "b", y: number}] *)
Definition kindA : AST :=
  TypeLiteral [Host.property "kind" (Literal (LString "a"));
               Host.property "x" NumberKeyword] [].

Definition kindB : AST :=
  TypeLiteral [Host.property "kind" (Literal (LString "b"));
               Host.property "y" NumberKeyword] [].

Definition kindUnion : AST := Union [kindA; kindB].

(** [{kind: "b", y: 3, extra: 1}] *)
Definition kindBExtra : value :=
  VObject [(KString "kind", VString "b"); (KString "y", VNumber 3);
           (KString "extra", VNumber 1)].

(** [{a: number} | {a: number, b: number} | {a: number, c: number}] *)
Definition onlyA : AST := TypeLiteral [Host.property "a" NumberKeyword] [].

Definition withB : AST :=
  TypeLiteral [Host.property "a" NumberKeyword; Host.property "b" NumberKeyword] [].

Definition withC : AST :=
  TypeLiteral [Host.property "a" NumberKeyword; Host.property "c" NumberKeyword] [].

(** [{a: 1, b: 2, c: 3}] *)
Definition abc : value :=
  VObject [(KString "a", VNumber 1); (KString "b", VNumber 2);
           (KString "c", VNumber 3)].

(** [{ a: string }] *)
Definition recordA : AST := TypeLiteral [Host.property "a" StringKeyword] [].

(** [{ [k: symbol]: unknown }] *)
Definition symbolRecord : AST :=
  TypeLiteral [] [AST.indexSignature SymbolKeyword UnknownKeyword true].

(** [{}] *)
Definition emptyRecord : AST := TypeLiteral [] [].

End Examples.

(* ================================================================= *)
(** ** The throwing variants *)

(** The outcome of a call that returns or throws [new Error(message)]. *)
Inductive Thrown (A : Type) : Type :=
| Throws (message : string)
| Returns (a : A).

Arguments Throws {A} message.
Arguments Returns {A} a.

Section Throwing.
Variable env : Environment.

(** [formatErrors] of [formatter/Tree.ts] renders the errors as the
    message of the exception; it is kept abstract. *)
Variable formatErrors : list ParseError -> string.

Definition decodeOrThrow (schema : AST) (u : value) (options : option ParseOptions)
  : Thrown value :=
  match parserFor env schema decoder u options with
  | PE.Failure left_ => Throws (formatErrors left_)
  | PE.Warning _ right_ => Returns right_
  | PE.Success right_ => Returns right_
  end.

Definition asserts (schema : AST) (input : value) (options : option ParseOptions)
  : Thrown unit :=
  match parserFor env schema guard input options with
  | PE.Failure left_ => Throws (formatErrors left_)
  | _ => Returns tt
  end.

Definition encodeOrThrow (schema : AST) (a : value) (options : option ParseOptions)
  : Thrown value :=
  match parserFor env schema encoder a options with
  | PE.Failure left_ => Throws (formatErrors left_)
  | PE.Warning _ right_ => Returns right_
  | PE.Success right_ => Returns right_
  end.

End Throwing.

(* ================================================================= *)
(** ** Classes of schemas and of results *)

(** [structural ast]: no [Refinement] and no [Transform] node occurs in
    [ast], so that no function of the schema's author is run. *)
Fixpoint structural (ast : AST) : bool :=
  match ast with
  | TypeAlias typeParameters type =>
      structural type && forallb structural typeParameters
  | Tuple elements rest _ =>
      forallb (fun e => structural (e_type e)) elements
        && match rest with
           | Some (head, tail) => structural head && forallb structural tail
           | None => true
           end
  | TypeLiteral propertySignatures indexSignatures =>
      forallb (fun f => structural (ps_type f)) propertySignatures
        && forallb (fun s => structural (is_parameter s) && structural (is_type s))
             indexSignatures
  | Union types => forallb structural types
  | Lazy _ f => structural (f tt)
  | Refinement _ _ => false
  | Transform _ _ _ _ => false
  | _ => true
  end.

(** No node has a hook. *)
Definition hookFree (env : Environment) : Prop :=
  forall ast, getHook env ast = None.

(** A well-formed error: a path error wraps a non-empty list of
    well-formed errors. *)
Fixpoint wellFormed (e : ParseError) : bool :=
  match e with
  | PE.Index _ errors => I.isNonEmpty errors && forallb wellFormed errors
  | PE.Key _ errors => I.isNonEmpty errors && forallb wellFormed errors
  | PE.Member errors => I.isNonEmpty errors && forallb wellFormed errors
  | _ => true
  end.

(** A well-formed result: the errors of a failure or of a warning are a
    non-empty list of well-formed errors. *)
Definition wellFormedResult (t : ParseResult) : bool :=
  match t with
  | PE.Success _ => true
  | PE.Failure es => I.isNonEmpty es && forallb wellFormed es
  | PE.Warning es _ => I.isNonEmpty es && forallb wellFormed es
  end.

(** Two results that agree: both are failures, or they are the same
    result. *)
Definition agree (t1 t2 : ParseResult) : Prop :=
  (PE.isFailure t1 = true /\ PE.isFailure t2 = true) \/ t1 = t2.

(** A run of the [Tuple] parser that can only end in a failure: it has
    returned one, or it goes on with [isLeft] set and an error
    collected. *)
Definition doomedState (st : TupleState) : Prop :=
  t_isLeft st = true /\ I.isNonEmpty (t_es st) = true.

Definition doomed (l : Loop TupleState) : Prop :=
  match l with
  | Return t => PE.isFailure t = true
  | Next st => doomedState st
  end.

(** The same for the [TypeLiteral] parser. *)
Definition doomedRecordState (st : RecordState) : Prop :=
  r_isLeft st = true /\ I.isNonEmpty (r_es st) = true.

Definition doomedRecord (l : Loop RecordState) : Prop :=
  match l with
  | Return t => PE.isFailure t = true
  | Next st => doomedRecordState st
  end.

(** The result of the [TypeLiteral] parser when a loop has ended. *)
Definition finishRecord (l : Loop RecordState) : ParseResult :=
  match l with
  | Return t => t
  | Next st => RecordParser.computeOutput st
  end.

(** [0 + 1 + ... ]: the sum of the [n] numbers from [j] on. *)
Fixpoint sumFrom (j n : nat) : nat :=
  match n with
  | O => 0
  | S n' => j + sumFrom (j + 1) n'
  end.

(* ================================================================= *)
(** ** The positions that the post-rest loop looks at *)

(** The post-rest loop adds [j] to the index [i] at its [j]-th iteration
    and keeps the sum: [postRestAsRun i j tail] are the outcomes at the
    positions it looks at, up to a missing one, when it is entered with
    index [i] at iteration [j]. *)
Fixpoint postRestAsRun (input : list value) (options : option ParseOptions)
  (i j : nat) (tail : list Parser) : list Walk.Outcome :=
  match tail with
  | [] => []
  | parser :: tail' =>
      if Walk.present input (i + j)
      then Walk.parsed input options (i + j) parser
             :: postRestAsRun input options (i + j) (j + 1) tail'
      else [Walk.Fatal (PE.Index (i + j) [PE.Missing])]
  end.

(** The walk of a tuple at the positions that the parser looks at. *)
Definition asRun (input : list value) (options : option ParseOptions)
  : list (Element AST) -> list Parser -> option (Parser * list Parser)
    -> list Walk.Outcome :=
  Walk.tuple input options (fun start tail => postRestAsRun input options start 0 tail).

(** Two walks that agree: both have a fatal outcome, or they are the
    same walk. *)
Definition agreeWalk (os1 os2 : list Walk.Outcome) : Prop :=
  (existsb Walk.isFatal os1 = true /\ existsb Walk.isFatal os2 = true) \/ os1 = os2.

Definition agreeRecordWalk (os1 os2 : list RecordWalk.Outcome) : Prop :=
  (existsb RecordWalk.isFatal os1 = true /\ existsb RecordWalk.isFatal os2 = true)
  \/ os1 = os2.

(** A parser whose results under two options agree, for every input. *)
Definition agreeParser (o1 o2 : option ParseOptions) (parser : Parser) : Prop :=
  forall x, agree (parser x o1) (parser x o2).

(** A parser that never warns under given options. *)
Definition neverWarns (options : option ParseOptions) (parser : Parser) : Prop :=
  forall x, PE.hasWarnings (parser x options) = false.

(** A parser all of whose results are well formed. *)
Definition wellFormedParser (parser : Parser) : Prop :=
  forall x options, wellFormedResult (parser x options) = true.

(** An outcome that is not a warning. *)
Definition quiet (o : Walk.Outcome) : bool :=
  match o with
  | Walk.Warned _ _ => false
  | Walk.Noted _ => false
  | _ => true
  end.

Definition quietKey (o : RecordWalk.Outcome) : bool :=
  match o with
  | RecordWalk.Warned _ _ _ => false
  | RecordWalk.Noted _ => false
  | _ => true
  end.

(** [blind as_ ast]: in the direction [as_], no function of a [Transform]
    node of [ast] is run: the direction is [guard], or [ast] has no
    [Transform] node. *)
Definition blind (as_ : Direction) (ast : AST) : bool :=
  match as_ with
  | guard => true
  | _ => transformFree ast
  end.

(** [located outer t]: the errors of a failure or of a warning are a
    non-empty list of errors that satisfy [outer]. *)
Definition located (outer : ParseError -> bool) (t : ParseResult) : bool :=
  match t with
  | PE.Success _ => true
  | PE.Failure es => I.isNonEmpty es && forallb outer es
  | PE.Warning es _ => I.isNonEmpty es && forallb outer es
  end.

(** [childOk inner t]: the error list of a failure or of a warning
    satisfies [inner]. *)
Definition childOk (inner : list ParseError -> bool) (t : ParseResult) : bool :=
  match t with
  | PE.Success _ => true
  | PE.Failure es => inner es
  | PE.Warning es _ => inner es
  end.

(** A non-empty list of well-formed errors. *)
Definition nonEmptyWellFormed (es : list ParseError) : bool :=
  I.isNonEmpty es && forallb wellFormed es.

(** A run of the [Tuple] parser all of whose errors satisfy [outer]. *)
Definition locatedTuple (outer : ParseError -> bool) (l : Loop TupleState) : Prop :=
  match l with
  | Return t => located outer t = true
  | Next st => forallb outer (t_es st) = true
  end.

(** The same for the [TypeLiteral] parser. *)
Definition locatedRecord (outer : ParseError -> bool) (l : Loop RecordState) : Prop :=
  match l with
  | Return t => located outer t = true
  | Next st => forallb outer (r_es st) = true
  end.

(** A run of the [Union] parser whose errors and whose candidate are well
    formed. *)
Definition wellFormedUnionState (st : UnionState) : Prop :=
  forallb wellFormed (u_es st) = true
  /\ match u_output st with
     | Some (left_, _) => nonEmptyWellFormed left_ = true
     | None => True
     end.

Definition wellFormedUnion (l : Loop UnionState) : Prop :=
  match l with
  | Return t => wellFormedResult t = true
  | Next st => wellFormedUnionState st
  end.

(** An outcome without an error. *)
Definition clean (o : Walk.Outcome) : bool :=
  match o with
  | Walk.Skipped => true
  | Walk.Valid _ => true
  | _ => false
  end.

Definition cleanKey (o : RecordWalk.Outcome) : bool :=
  match o with
  | RecordWalk.Skipped => true
  | RecordWalk.Valid _ _ => true
  | _ => false
  end.

(** A parser whose successes do not depend on the options. *)
Definition stable (parser : Parser) : Prop :=
  forall o1 o2 x a, parser x o1 = PE.Success a -> parser x o2 = PE.Success a.

(** [holdsOutput input options type output k]: the object [output] has
    the key [k], with the output of [type] on the property [k] of
    [input]. *)
Definition holdsOutput (input : list (PropertyKey * value))
  (options : option ParseOptions) (type : Parser)
  (output : list (PropertyKey * value)) (k : PropertyKey) : Prop :=
  hasOwnProperty output k = true
  /\ PE.valueOf (type (getProperty input k) options) = Some (getProperty output k).

(* ================================================================= *)
(** * Properties *)

Section Properties.
Variable env : Environment.

(* ----------------------------------------------------------------- *)
(** ** Guard and decoder *)

Lemma map_go_ext (B : Type) (g : B -> AST) (l : list B) :
  Forall (fun a => transformFree a = true -> go env guard a = go env decoder a) (map g l) ->
  forallb (fun b => transformFree (g b)) l = true ->
  map (fun b => go env guard (g b)) l = map (fun b => go env decoder (g b)) l.
Proof.
  induction l as [|b l IH]; simpl; intros HF Hb.
  - reflexivity.
  - apply andb_true_iff in Hb. destruct Hb as [Hb Hl].
    inversion HF as [|x xs Hx Hxs]; subst.
    rewrite (Hx Hb), (IH Hxs Hl). reflexivity.
Qed.

(** The direction matters at [Transform] nodes only: on an AST without
    them the guard and the decoder are the same parser. *)
Lemma go_guard_decoder (ast : AST) :
  transformFree ast = true -> go env guard ast = go env decoder ast.
Proof.
  induction ast as [ast IH] using AST_children_ind.
  destruct ast; simpl in *; intros Hfree; try reflexivity.
  - (* TypeAlias *)
    apply andb_true_iff in Hfree. destruct Hfree as [Ht Hps].
    inversion IH as [|x xs Hx Hxs]; subst.
    destruct (getHook env (TypeAlias typeParameters ast)).
    + f_equal.
      change (map (fun b => go env guard (id b)) typeParameters
              = map (fun b => go env decoder (id b)) typeParameters).
      apply map_go_ext; [rewrite map_id; assumption | exact Hps].
    + exact (Hx Ht).
  - (* Tuple *)
    apply andb_true_iff in Hfree. destruct Hfree as [Hels Hrest].
    apply Forall_app in IH. destruct IH as [IHels IHrest].
    simpl.
    f_equal.
    + apply map_go_ext; assumption.
    + destruct rest as [[head tail]|]; [|reflexivity].
      apply andb_true_iff in Hrest. destruct Hrest as [Hh Ht].
      inversion IHrest as [|x xs Hx Hxs]; subst.
      rewrite (Hx Hh). do 2 f_equal.
      change (map (fun b => go env guard (id b)) tail
              = map (fun b => go env decoder (id b)) tail).
      apply map_go_ext; [rewrite map_id; assumption | exact Ht].
  - (* TypeLiteral *)
    apply andb_true_iff in Hfree. destruct Hfree as [Hps His].
    apply Forall_app in IH. destruct IH as [IHps IHis].
    apply Forall_app in IHis. destruct IHis as [IHpar IHty].
    simpl.
    f_equal.
    + apply map_go_ext; assumption.
    + clear - IHpar IHty His.
      induction indexSignatures as [|s l IHl]; simpl in *; [reflexivity|].
      apply andb_true_iff in His. destruct His as [Hs Hl].
      apply andb_true_iff in Hs. destruct Hs as [Hp Ht].
      inversion IHpar as [|x xs Hx Hxs]; subst.
      inversion IHty as [|y ys Hy Hys]; subst.
      rewrite (Hx Hp), (Hy Ht), (IHl Hxs Hys Hl). reflexivity.
  - (* Union *)
    unfold go in *. simpl. fold go in *. f_equal.
    change (map (fun b => go env guard (id b)) types
            = map (fun b => go env decoder (id b)) types).
    apply map_go_ext; [rewrite map_id; assumption | exact Hfree].
  - (* Lazy *)
    inversion IH as [|x xs Hx Hxs]; subst.
    simpl.
    rewrite (Hx Hfree). reflexivity.
  - (* Refinement *)
    inversion IH as [|x xs Hx Hxs]; subst.
    simpl.
    rewrite (Hx Hfree). reflexivity.
  - (* Transform *)
    discriminate.
Qed.

(** C2 (as amended).  For every AST without a [Transform] node, every
    input and all options, the guard [is] returns [true] exactly when
    decoding the input does not fail (it yields [Success] or [Warning]). *)
Theorem is_iff_decode_transformFree (schema : AST) (x : value)
  (options : option ParseOptions) :
  transformFree schema = true ->
  (is_ env schema x options = true <-> PE.isFailure (decode env schema x options) = false).
Proof.
  intros Hfree.
  unfold is_, decode, parserFor.
  rewrite (go_guard_decoder schema Hfree).
  destruct (PE.isFailure (go env decoder schema x options)); simpl; split; congruence.
Qed.

(* ----------------------------------------------------------------- *)
(** ** Union *)

Section UnionFacts.
Variable u : value.
Variable options : option ParseOptions.

Lemma forTypes_first_success (ps : list Parser) :
  forall (st : UnionState) (i : nat) (a : value),
    nth_error (branchResults u options ps) i = Some (PE.Success a) ->
    (forall j b, j < i -> nth_error (branchResults u options ps) j <> Some (PE.Success b)) ->
    UnionParser.forTypes u options ps st = Return (PE.Success a).
Proof.
  induction ps as [|p ps IH]; intros st i a Hi Hbefore.
  - destruct i; discriminate.
  - destruct i as [|i]; simpl in *.
    + unfold UnionParser.memberBody. injection Hi as Hi. rewrite Hi. reflexivity.
    + unfold UnionParser.memberBody.
      destruct (p u options) as [es|es b|b] eqn:Hp.
      * apply (IH _ i); [exact Hi|].
        intros j b Hj. apply (Hbefore (S j) b). lia.
      * destruct (u_output st) as [[oleft oright]|];
          [destruct (UnionParser.unexpectedCount es <? UnionParser.unexpectedCount oleft)|];
          (apply (IH _ i); [exact Hi|]; intros j c Hj; apply (Hbefore (S j) c); lia).
      * exfalso. apply (Hbefore 0 b); [lia|]. reflexivity.
Qed.

Lemma forTypes_no_success (ps : list Parser) :
  (forall b, ~ In (PE.Success b) (branchResults u options ps)) ->
  forall st, exists st', UnionParser.forTypes u options ps st = Next st'.
Proof.
  induction ps as [|p ps IH]; intros Hno st; simpl.
  - eexists; reflexivity.
  - unfold UnionParser.memberBody.
    assert (Hps : forall b, ~ In (PE.Success b) (branchResults u options ps)).
    { intros b Hb. apply (Hno b). right. exact Hb. }
    destruct (p u options) as [es|es b|b] eqn:Hp.
    + apply IH; exact Hps.
    + destruct (u_output st) as [[oleft oright]|];
        [destruct (UnionParser.unexpectedCount es <? UnionParser.unexpectedCount oleft)|];
        apply IH; exact Hps.
    + exfalso. apply (Hno b). left. simpl. exact Hp.
Qed.

(** A candidate stays when no later warning has strictly fewer
    unexpected diagnostics. *)
Lemma forTypes_keeps_candidate (ps : list Parser) :
  forall st st' es a,
    UnionParser.forTypes u options ps st = Next st' ->
    u_output st = Some (es, a) ->
    (forall j es' a', nth_error (branchResults u options ps) j = Some (PE.Warning es' a') ->
       UnionParser.unexpectedCount es <= UnionParser.unexpectedCount es') ->
    u_output st' = Some (es, a).
Proof.
  induction ps as [|p ps IH]; intros st st' es a Hrun Hout Hmin; simpl in Hrun.
  - injection Hrun as <-. exact Hout.
  - unfold UnionParser.memberBody in Hrun.
    assert (Hrest : forall j es' a',
               nth_error (branchResults u options ps) j = Some (PE.Warning es' a') ->
               UnionParser.unexpectedCount es <= UnionParser.unexpectedCount es').
    { intros j es' a' Hj. apply (Hmin (S j) es' a'). exact Hj. }
    destruct (p u options) as [es1|es1 b|b] eqn:Hp.
    + apply (IH _ _ es a Hrun); [exact Hout | exact Hrest].
    + rewrite Hout in Hrun.
      assert (Hle : UnionParser.unexpectedCount es <= UnionParser.unexpectedCount es1).
      { apply (Hmin 0 es1 b). simpl. rewrite Hp. reflexivity. }
      apply Nat.ltb_ge in Hle. rewrite Hle in Hrun.
      apply (IH _ _ es a Hrun); [exact Hout | exact Hrest].
    + discriminate.
Qed.

(** The warning that is chosen: the first one with the fewest
    unexpected diagnostics, when it also beats the candidate held at the
    start. *)
Lemma forTypes_best_warning (ps : list Parser) :
  forall st st' k es a,
    UnionParser.forTypes u options ps st = Next st' ->
    nth_error (branchResults u options ps) k = Some (PE.Warning es a) ->
    (forall j es' a', nth_error (branchResults u options ps) j = Some (PE.Warning es' a') ->
       UnionParser.unexpectedCount es <= UnionParser.unexpectedCount es') ->
    (forall j es' a', j < k -> nth_error (branchResults u options ps) j = Some (PE.Warning es' a') ->
       UnionParser.unexpectedCount es < UnionParser.unexpectedCount es') ->
    (forall oes oa, u_output st = Some (oes, oa) ->
       UnionParser.unexpectedCount es < UnionParser.unexpectedCount oes) ->
    u_output st' = Some (es, a).
Proof.
  induction ps as [|p ps IH]; intros st st' k es a Hrun Hk Hmin Hfirst Hbeats.
  - destruct k; discriminate.
  - simpl in Hrun. unfold UnionParser.memberBody in Hrun.
    assert (Hrest : forall j es' a',
               nth_error (branchResults u options ps) j = Some (PE.Warning es' a') ->
               UnionParser.unexpectedCount es <= UnionParser.unexpectedCount es').
    { intros j es' a' Hj. apply (Hmin (S j) es' a'). exact Hj. }
    destruct k as [|k]; simpl in Hk.
    + injection Hk as Hk. rewrite Hk in Hrun.
      destruct (u_output st) as [[oleft oright]|] eqn:Hout.
      * specialize (Hbeats oleft oright eq_refl).
        apply Nat.ltb_lt in Hbeats. rewrite Hbeats in Hrun.
        apply (forTypes_keeps_candidate ps _ Hrun); [reflexivity | exact Hrest].
      * apply (forTypes_keeps_candidate ps _ Hrun); [reflexivity | exact Hrest].
    + assert (Hfirst' : forall j es' a', j < k ->
                 nth_error (branchResults u options ps) j = Some (PE.Warning es' a') ->
                 UnionParser.unexpectedCount es < UnionParser.unexpectedCount es').
      { intros j es' a' Hj Hnth. apply (Hfirst (S j) es' a'); [lia | exact Hnth]. }
      destruct (p u options) as [es1|es1 b|b] eqn:Hp.
      * apply (IH _ _ k es a Hrun Hk Hrest Hfirst'). simpl. exact Hbeats.
      * assert (Hlt : UnionParser.unexpectedCount es < UnionParser.unexpectedCount es1).
        { apply (Hfirst 0 es1 b); [lia|]. simpl. rewrite Hp. reflexivity. }
        destruct (u_output st) as [[oleft oright]|] eqn:Hout.
        -- destruct (UnionParser.unexpectedCount es1 <? UnionParser.unexpectedCount oleft).
           ++ apply (IH _ _ k es a Hrun Hk Hrest Hfirst'). simpl.
              intros oes oa Heq. injection Heq as <- <-. exact Hlt.
           ++ apply (IH _ _ k es a Hrun Hk Hrest Hfirst').
              rewrite Hout. exact Hbeats.
        -- apply (IH _ _ k es a Hrun Hk Hrest Hfirst'). simpl.
           intros oes oa Heq. injection Heq as <- <-. exact Hlt.
      * discriminate.
Qed.

Lemma forTypes_all_fail (ps : list Parser) :
  (forall t, In t (branchResults u options ps) -> PE.isFailure t = true) ->
  forall st,
    UnionParser.forTypes u options ps st
    = Next {| u_es := u_es st ++ map (fun t => PE.member (PE.errorsOf t)) (branchResults u options ps);
              u_output := u_output st |}.
Proof.
  induction ps as [|p ps IH]; intros Hall st; simpl.
  - rewrite app_nil_r. destruct st; reflexivity.
  - unfold UnionParser.memberBody.
    assert (Hp : PE.isFailure (p u options) = true) by (apply Hall; left; reflexivity).
    destruct (p u options) as [es|es b|b]; try discriminate.
    rewrite IH by (intros t Ht; apply Hall; right; exact Ht).
    simpl. rewrite <- app_assoc. reflexivity.
Qed.

End UnionFacts.

(** [hasUnexpectedError] tests what the specification calls an
    unexpected-key/index diagnostic. *)
Lemma hasUnexpectedError_diagnostic (e : ParseError) :
  hasUnexpectedError e = true <-> UnexpectedDiagnostic e.
Proof.
  split.
  - destruct e as [| | | | |i errors|k errors|]; simpl; try discriminate;
      intros H; apply existsb_exists in H as [e' [Hin He']];
      destruct e'; try discriminate He'.
    + apply (@unexpectedIndex i errors _ Hin).
    + apply (@unexpectedKey k errors _ Hin).
  - intros [k errors actual Hin | i errors actual Hin]; simpl;
      apply existsb_exists; exists (PE.Unexpected actual); split;
      [exact Hin | reflexivity | exact Hin | reflexivity].
Qed.

(** [left.filter(hasUnexpectedError).length] is their number. *)
Lemma unexpectedDiagnostics_count (es : list ParseError) :
  unexpectedDiagnostics es (UnionParser.unexpectedCount es).
Proof.
  unfold UnionParser.unexpectedCount.
  induction es as [|e es IH]; simpl.
  - apply noDiagnostics.
  - destruct (hasUnexpectedError e) eqn:He; simpl.
    + apply oneMore; [apply hasUnexpectedError_diagnostic; exact He | exact IH].
    + apply noMore; [|exact IH].
      intros H. apply hasUnexpectedError_diagnostic in H. congruence.
Qed.

Lemma unexpectedDiagnostics_unique (es : list ParseError) (n : nat) :
  unexpectedDiagnostics es n -> n = UnionParser.unexpectedCount es.
Proof.
  unfold UnionParser.unexpectedCount.
  induction 1 as [|e es n He _ IH|e es n He _ IH]; simpl.
  - reflexivity.
  - apply hasUnexpectedError_diagnostic in He. rewrite He. simpl. rewrite IH. reflexivity.
  - destruct (hasUnexpectedError e) eqn:Hb; [|exact IH].
    exfalso. apply He. apply hasUnexpectedError_diagnostic. exact Hb.
Qed.

(** C5.  A [Union] tries its branches in declaration order.  The first
    branch that yields [Success] is the result.  When no branch succeeds,
    the result is the [Warning] with the fewest unexpected-key/index
    diagnostics, the first such one on ties.  When every branch fails and
    there is one at least, the result is the [Failure] of the branch
    errors, each list wrapped in [Member].  With no branch at all it is
    [Failure([Type(neverKeyword, input)])].  The unexpected-key/index
    diagnostics of a warning are the errors [Key(k, errors)] and
    [Index(i, errors)] of its list that hold an [Unexpected]; they are
    the errors that [hasUnexpectedError] selects. *)
Theorem union_branch_selection (as_ : Direction) (types : list AST) (u : value)
  (options : option ParseOptions) :
  let results := map (fun t => go env as_ t u options) types in
  let r := go env as_ (Union types) u options in
  (forall i a,
      nth_error results i = Some (PE.Success a) ->
      (forall j b, j < i -> nth_error results j <> Some (PE.Success b)) ->
      r = PE.Success a)
  /\ ((forall b, ~ In (PE.Success b) results) ->
      forall k es a n,
        nth_error results k = Some (PE.Warning es a) ->
        unexpectedDiagnostics es n ->
        (forall j es' a' n',
           nth_error results j = Some (PE.Warning es' a') ->
           unexpectedDiagnostics es' n' -> n <= n') ->
        (forall j es' a' n', j < k ->
           nth_error results j = Some (PE.Warning es' a') ->
           unexpectedDiagnostics es' n' -> n < n') ->
        r = PE.Warning es a)
  /\ ((forall t, In t results -> PE.isFailure t = true) ->
      types <> [] ->
      r = PE.Failure (map (fun t => PE.member (PE.errorsOf t)) results))
  /\ (types = [] -> r = PE.Failure [PE.type AST.neverKeyword u])
  /\ (forall e, hasUnexpectedError e = true <-> UnexpectedDiagnostic e).
Proof.
  intros results r.
  assert (Hres : results = map (fun p : Parser => p u options) (map (go env as_) types)).
  { unfold results. rewrite map_map. reflexivity. }
  assert (Hr : r = UnionParser.parse (map (go env as_) types) u options) by reflexivity.
  clearbody results r. subst results r.
  unfold UnionParser.parse.
  split; [|split; [|split; [|split]]].
  - intros i a Hi Hbefore.
    erewrite forTypes_first_success; [reflexivity | exact Hi | exact Hbefore].
  - intros Hno k es a n Hk Hn Hmin Hfirst.
    apply unexpectedDiagnostics_unique in Hn. subst n.
    destruct (@forTypes_no_success u options _ Hno UnionParser.initial) as [st' Hrun].
    rewrite Hrun. unfold UnionParser.computeOutput.
    erewrite forTypes_best_warning; [reflexivity | exact Hrun | exact Hk | | |].
    + intros j es' a' Hj.
      apply (Hmin j es' a' _ Hj (unexpectedDiagnostics_count es')).
    + intros j es' a' Hlt Hj.
      apply (Hfirst j es' a' _ Hlt Hj (unexpectedDiagnostics_count es')).
    + intros oes oa Hout. discriminate.
  - intros Hall Hne.
    erewrite forTypes_all_fail; [|exact Hall]. simpl.
    destruct types as [|t types]; [congruence|]. reflexivity.
  - intros ->. reflexivity.
  - apply hasUnexpectedError_diagnostic.
Qed.

(* ----------------------------------------------------------------- *)
(** ** BigInt *)

(** C8.  At a [BigIntKeyword] node a bigint input succeeds with itself; a
    string, number or boolean input is coerced with [BigInt(u)],
    succeeding with the coerced value, or failing with
    [Transform(primitive, bigIntAst, input)] when the coercion throws;
    every other input fails with [Type(primitive, input)].  Here
    [primitive] is the union of string, number and boolean. *)
Theorem bigint_keyword (as_ : Direction) (u : value) (options : option ParseOptions) :
  let r := go env as_ BigIntKeyword u options in
  primitive = Union [StringKeyword; NumberKeyword; BooleanKeyword]
  /\ (I.isBigInt u = true -> r = PE.Success u)
  /\ (isString u || isNumber u || isBoolean u = true ->
      (forall z, BigInt env u = Some z -> r = PE.Success (VBigInt z))
      /\ (BigInt env u = None ->
          r = PE.Failure [PE.Transform primitive BigIntKeyword u]))
  /\ (I.isBigInt u = false -> isString u || isNumber u || isBoolean u = false ->
      r = PE.Failure [PE.Type_ primitive u]).
Proof.
  simpl. split; [reflexivity|]. split; [|split].
  - intros ->. reflexivity.
  - intros Hprim.
    assert (Hbig : I.isBigInt u = false) by (destruct u; simpl in *; congruence).
    rewrite Hbig, Hprim. split.
    + intros z ->. reflexivity.
    + intros ->. reflexivity.
  - intros -> ->. reflexivity.
Qed.

(* ----------------------------------------------------------------- *)
(** ** Tuple: the loops and the walk *)

Section TupleFacts.
Variable input : list value.
Variable options : option ParseOptions.

Lemma absent_iff_not_present (i : nat) :
  (List.length input <? i + 1) = negb (Walk.present input i).
Proof.
  unfold Walk.present.
  destruct (Nat.ltb_spec (List.length input) (i + 1));
    destruct (Nat.ltb_spec i (List.length input)); simpl; try reflexivity; lia.
Qed.

Lemma absorb_setIndex (o : Walk.Outcome) (i : nat) (st : TupleState) :
  absorb (TupleParser.setIndex i st) o = TupleParser.setIndex i (absorb st o).
Proof. destruct o; reflexivity. Qed.

Lemma absorb_index (o : Walk.Outcome) (st : TupleState) : t_i (absorb st o) = t_i st.
Proof. destruct o; reflexivity. Qed.

Lemma absorbAll_setIndex (os : list Walk.Outcome) :
  forall i st,
    absorbAll os (TupleParser.setIndex i st) = TupleParser.setIndex i (absorbAll os st).
Proof.
  unfold absorbAll. induction os as [|o os IH]; intros i st; simpl.
  - reflexivity.
  - rewrite absorb_setIndex. apply IH.
Qed.

Lemma setIndex_setIndex (i j : nat) (st : TupleState) :
  TupleParser.setIndex i (TupleParser.setIndex j st) = TupleParser.setIndex i st.
Proof. reflexivity. Qed.

Lemma absorbAll_index (os : list Walk.Outcome) :
  forall st, t_i (absorbAll os st) = t_i st.
Proof.
  unfold absorbAll. induction os as [|o os IH]; intros st; simpl.
  - reflexivity.
  - rewrite IH. destruct o; reflexivity.
Qed.

Lemma absorbAll_es (os : list Walk.Outcome) :
  forall st, t_es (absorbAll os st) = t_es st ++ Walk.errorsOf os.
Proof.
  unfold absorbAll. induction os as [|o os IH]; intros st; simpl.
  - rewrite app_nil_r. reflexivity.
  - rewrite IH. destruct o; simpl; try reflexivity; rewrite <- app_assoc; reflexivity.
Qed.

Lemma absorbAll_output (os : list Walk.Outcome) :
  forall st, t_output (absorbAll os st) = t_output st ++ Walk.valuesOf os.
Proof.
  unfold absorbAll. induction os as [|o os IH]; intros st; simpl.
  - rewrite app_nil_r. reflexivity.
  - rewrite IH. destruct o; simpl; try reflexivity; rewrite <- app_assoc; reflexivity.
Qed.

Lemma absorbAll_isLeft (os : list Walk.Outcome) :
  forall st, t_isLeft (absorbAll os st) = t_isLeft st || existsb Walk.isFatal os.
Proof.
  unfold absorbAll. induction os as [|o os IH]; intros st; simpl.
  - rewrite orb_false_r. reflexivity.
  - rewrite IH. destruct o; simpl; try reflexivity. rewrite orb_true_r. reflexivity.
Qed.

Lemma absorbAll_app (os1 os2 : list Walk.Outcome) (st : TupleState) :
  absorbAll (os1 ++ os2) st = absorbAll os2 (absorbAll os1 st).
Proof. unfold absorbAll. apply fold_left_app. Qed.

(** The result computed from the state left by a walk is the report of
    the walk. *)
Lemma computeOutput_absorbAll (os : list Walk.Outcome) :
  TupleParser.computeOutput (absorbAll os TupleParser.initial) = Walk.report os.
Proof.
  unfold TupleParser.computeOutput, Walk.report.
  rewrite absorbAll_es, absorbAll_output, absorbAll_isLeft. simpl.
  destruct (Walk.errorsOf os); reflexivity.
Qed.

(** A present position, parsed: the three loops share this body. *)
Lemma parsed_body (parser : Parser) (st : TupleState) :
  optAllErrors options = true
  \/ Walk.isFatal (Walk.parsed input options (t_i st) parser) = false ->
  match parser (TupleParser.at_ input (t_i st)) options with
  | PE.Failure left_ =>
      let e := PE.index (t_i st) left_ in
      if optAllErrors options then Next (TupleParser.setLeft (TupleParser.push e st))
      else Return (PE.failures (I.mutableAppend (t_es st) e))
  | PE.Warning left_ right_ =>
      Next (TupleParser.pushOutput right_ (TupleParser.push (PE.index (t_i st) left_) st))
  | PE.Success right_ => Next (TupleParser.pushOutput right_ st)
  end = Next (absorb st (Walk.parsed input options (t_i st) parser)).
Proof.
  unfold Walk.parsed, TupleParser.at_.
  destruct (parser (nth (t_i st) input VUndefined) options); simpl; try reflexivity.
  intros [-> | H]; [reflexivity | discriminate].
Qed.

Lemma elementBody_walk (e : Element AST) (parser : Parser) (st : TupleState) :
  optAllErrors options = true
  \/ Walk.isFatal (Walk.element input options (t_i st) e parser) = false ->
  TupleParser.elementBody input options e parser st
  = Next (absorb st (Walk.element input options (t_i st) e parser)).
Proof.
  unfold TupleParser.elementBody, Walk.element.
  rewrite absent_iff_not_present.
  destruct (Walk.present input (t_i st)); simpl.
  - apply parsed_body.
  - destruct (e_isOptional e); simpl; [reflexivity|].
    intros [-> | H]; [reflexivity | discriminate].
Qed.

Lemma forElements_walk (todo : list (Element AST * Parser)) :
  forall st,
    optAllErrors options = true
    \/ existsb Walk.isFatal (Walk.elements input options (t_i st) todo) = false ->
    TupleParser.forElements input options todo st
    = Next (TupleParser.setIndex (t_i st + List.length todo)
              (absorbAll (Walk.elements input options (t_i st) todo) st)).
Proof.
  induction todo as [|[e parser] todo IH]; intros st Hok; simpl.
  - rewrite Nat.add_0_r. destruct st; reflexivity.
  - assert (Hhead : optAllErrors options = true
                    \/ Walk.isFatal (Walk.element input options (t_i st) e parser) = false).
    { destruct Hok as [Hall | Hnone]; [left; exact Hall | right].
      simpl in Hnone. apply orb_false_iff in Hnone. tauto. }
    assert (Htail : optAllErrors options = true
                    \/ existsb Walk.isFatal
                         (Walk.elements input options (t_i st + 1) todo) = false).
    { destruct Hok as [Hall | Hnone]; [left; exact Hall | right].
      simpl in Hnone. apply orb_false_iff in Hnone. tauto. }
    rewrite (elementBody_walk e parser st Hhead).
    set (o := Walk.element input options (t_i st) e parser).
    assert (Hi : TupleParser.incr (absorb st o)
                 = TupleParser.setIndex (t_i st + 1) (absorb st o)).
    { unfold TupleParser.incr. rewrite absorb_index. reflexivity. }
    rewrite Hi, IH; simpl t_i.
    + rewrite absorbAll_setIndex, setIndex_setIndex.
      replace (t_i st + 1 + List.length todo) with (t_i st + S (List.length todo)) by lia.
      reflexivity.
    + exact Htail.
Qed.

Lemma restBody_walk (head : Parser) (st : TupleState) :
  optAllErrors options = true
  \/ Walk.isFatal (Walk.parsed input options (t_i st) head) = false ->
  TupleParser.restBody input options head st
  = Next (absorb st (Walk.parsed input options (t_i st) head)).
Proof. apply parsed_body. Qed.

Lemma forRest_walk (head : Parser) (n : nat) :
  forall st,
    optAllErrors options = true
    \/ existsb Walk.isFatal (Walk.restRegion input options head (t_i st) n) = false ->
    TupleParser.forRest input options head n st
    = Next (TupleParser.setIndex (t_i st + n)
              (absorbAll (Walk.restRegion input options head (t_i st) n) st)).
Proof.
  unfold Walk.restRegion.
  induction n as [|n IH]; intros st Hok; simpl.
  - rewrite Nat.add_0_r. destruct st; reflexivity.
  - assert (Hhead : optAllErrors options = true
                    \/ Walk.isFatal (Walk.parsed input options (t_i st) head) = false).
    { destruct Hok as [Hall | Hnone]; [left; exact Hall | right].
      simpl in Hnone. apply orb_false_iff in Hnone. tauto. }
    assert (Htail : optAllErrors options = true
                    \/ existsb Walk.isFatal
                         (map (fun i => Walk.parsed input options i head)
                              (seq (t_i st + 1) n)) = false).
    { destruct Hok as [Hall | Hnone]; [left; exact Hall | right].
      simpl in Hnone. apply orb_false_iff in Hnone.
      replace (t_i st + 1) with (S (t_i st)) by lia. tauto. }
    rewrite (restBody_walk head st Hhead).
    set (o := Walk.parsed input options (t_i st) head).
    assert (Hi : TupleParser.incr (absorb st o)
                 = TupleParser.setIndex (t_i st + 1) (absorb st o)).
    { unfold TupleParser.incr. rewrite absorb_index. reflexivity. }
    rewrite Hi, IH; simpl t_i.
    + rewrite absorbAll_setIndex, setIndex_setIndex.
      replace (t_i st + 1 + n) with (t_i st + S n) by lia.
      replace (t_i st + 1) with (S (t_i st)) by lia.
      reflexivity.
    + exact Htail.
Qed.

Lemma unexpectedBody_walk (st : TupleState) :
  optAllErrors options = true
  \/ Walk.isFatal (Walk.unexpected input options (t_i st)) = false ->
  TupleParser.unexpectedBody input options st
  = Next (absorb st (Walk.unexpected input options (t_i st))).
Proof.
  unfold TupleParser.unexpectedBody, Walk.unexpected, TupleParser.at_.
  destruct (optIsUnexpectedAllowed options); simpl; [reflexivity|].
  intros [-> | H]; [reflexivity | discriminate].
Qed.

Lemma forUnexpected_walk (n : nat) :
  forall st,
    optAllErrors options = true
    \/ existsb Walk.isFatal (Walk.unexpectedRegion input options (t_i st) n) = false ->
    TupleParser.forUnexpected input options n st
    = Next (TupleParser.setIndex (t_i st + n)
              (absorbAll (Walk.unexpectedRegion input options (t_i st) n) st)).
Proof.
  unfold Walk.unexpectedRegion.
  induction n as [|n IH]; intros st Hok; simpl.
  - rewrite Nat.add_0_r. destruct st; reflexivity.
  - assert (Hhead : optAllErrors options = true
                    \/ Walk.isFatal (Walk.unexpected input options (t_i st)) = false).
    { destruct Hok as [Hall | Hnone]; [left; exact Hall | right].
      simpl in Hnone. apply orb_false_iff in Hnone. tauto. }
    assert (Htail : optAllErrors options = true
                    \/ existsb Walk.isFatal
                         (map (Walk.unexpected input options) (seq (t_i st + 1) n))
                       = false).
    { destruct Hok as [Hall | Hnone]; [left; exact Hall | right].
      simpl in Hnone. apply orb_false_iff in Hnone.
      replace (t_i st + 1) with (S (t_i st)) by lia. tauto. }
    rewrite (unexpectedBody_walk st Hhead).
    set (o := Walk.unexpected input options (t_i st)).
    assert (Hi : TupleParser.incr (absorb st o)
                 = TupleParser.setIndex (t_i st + 1) (absorb st o)).
    { unfold TupleParser.incr. rewrite absorb_index. reflexivity. }
    rewrite Hi, IH; simpl t_i.
    + rewrite absorbAll_setIndex, setIndex_setIndex.
      replace (t_i st + 1 + n) with (t_i st + S n) by lia.
      replace (t_i st + 1) with (S (t_i st)) by lia.
      reflexivity.
    + exact Htail.
Qed.

Lemma computeOutput_setIndex (i : nat) (st : TupleState) :
  TupleParser.computeOutput (TupleParser.setIndex i st) = TupleParser.computeOutput st.
Proof. reflexivity. Qed.

Lemma isNonEmpty_snoc (es : list ParseError) (e : ParseError) :
  I.isNonEmpty (es ++ [e]) = true.
Proof. destruct es; reflexivity. Qed.



Lemma setIndex_same (st : TupleState) : TupleParser.setIndex (t_i st) st = st.
Proof. destruct st; reflexivity. Qed.



(** Without a rest, and when no position is fatal, the [Tuple] parser is
    the walk whatever [allErrors] is. *)
Lemma parseArray_no_fatal (astElements : list (Element AST)) (parsers : list Parser) :
  existsb Walk.isFatal
    (Walk.everyPosition input options astElements parsers None) = false ->
  TupleParser.parseArray input options astElements parsers None
  = Walk.report (Walk.everyPosition input options astElements parsers None).
Proof.
  unfold Walk.everyPosition, Walk.tuple. intros Hnone.
  rewrite existsb_app in Hnone. apply orb_false_iff in Hnone.
  destruct Hnone as [HE HU].
  unfold TupleParser.parseArray.
  rewrite forElements_walk by (right; exact HE). simpl t_i.
  unfold TupleParser.afterElements.
  rewrite forUnexpected_walk by (right; exact HU). simpl t_i.
  rewrite !absorbAll_setIndex, !computeOutput_setIndex.
  rewrite <- !absorbAll_app.
  apply computeOutput_absorbAll.
Qed.

End TupleFacts.

Lemma nth_error_combine_map (B C : Type) (f : B -> C) (l : list B) :
  forall i b c,
    nth_error (combine l (map f l)) i = Some (b, c) ->
    nth_error l i = Some b /\ c = f b.
Proof.
  induction l as [|x l IH]; intros i b c Hi.
  - destruct i; discriminate.
  - destruct i as [|i]; simpl in *.
    + injection Hi as <- <-. split; reflexivity.
    + apply IH. exact Hi.
Qed.

(** The walk of fixed elements that are all present and none of which
    fails: no outcome is fatal and every position gives its value. *)
Lemma elements_valid (input : list value) (options : option ParseOptions)
  (todo : list (Element AST * Parser)) :
  forall i0,
    i0 + List.length todo <= List.length input ->
    (forall i e p, nth_error todo i = Some (e, p) ->
       PE.isFailure (p (nth (i0 + i) input VUndefined) options) = false) ->
    existsb Walk.isFatal (Walk.elements input options i0 todo) = false
    /\ List.length (Walk.valuesOf (Walk.elements input options i0 todo))
       = List.length todo
    /\ (forall i e p, nth_error todo i = Some (e, p) ->
          nth_error (Walk.valuesOf (Walk.elements input options i0 todo)) i
          = PE.valueOf (p (nth (i0 + i) input VUndefined) options)).
Proof.
  induction todo as [|[e p] todo IH]; intros i0 Hlen Hvalid.
  - simpl. repeat split. intros i e p Hi. destruct i; discriminate.
  - simpl in Hlen.
    destruct (IH (i0 + 1)) as [Hfatal [Hlength Hnth]]; [lia| |].
    { intros i e' p' Hi.
      replace (i0 + 1 + i) with (i0 + S i) by lia.
      apply (Hvalid (S i) e' p'). exact Hi. }
    assert (Hp : PE.isFailure (p (nth i0 input VUndefined) options) = false).
    { replace i0 with (i0 + 0) at 1 by lia. apply (Hvalid 0 e p). reflexivity. }
    assert (Hpresent : Walk.present input i0 = true).
    { unfold Walk.present. apply Nat.ltb_lt. lia. }
    simpl. unfold Walk.element, Walk.parsed.
    rewrite Hpresent.
    destruct (p (nth i0 input VUndefined) options) as [es|es a|a] eqn:Hres;
      try discriminate; simpl.
    + repeat split; [exact Hfatal | f_equal; exact Hlength |].
      intros i e' p' Hi. destruct i as [|i]; simpl in *.
      * injection Hi as <- <-. rewrite Nat.add_0_r, Hres. reflexivity.
      * replace (i0 + S i) with (i0 + 1 + i) by lia. apply (Hnth i e' p'). exact Hi.
    + repeat split; [exact Hfatal | f_equal; exact Hlength |].
      intros i e' p' Hi. destruct i as [|i]; simpl in *.
      * injection Hi as <- <-. rewrite Nat.add_0_r, Hres. reflexivity.
      * replace (i0 + S i) with (i0 + 1 + i) by lia. apply (Hnth i e' p'). exact Hi.
Qed.

Lemma unexpectedRegion_allowed (input : list value) (options : option ParseOptions)
  (from n : nat) :
  optIsUnexpectedAllowed options = true ->
  existsb Walk.isFatal (Walk.unexpectedRegion input options from n) = false
  /\ Walk.valuesOf (Walk.unexpectedRegion input options from n) = []
  /\ Walk.errorsOf (Walk.unexpectedRegion input options from n)
     = map (fun i => PE.Index i [PE.Unexpected (nth i input VUndefined)]) (seq from n).
Proof.
  intros Hallowed. unfold Walk.unexpectedRegion.
  revert from. induction n as [|n IH]; intros from; simpl.
  - repeat split.
  - destruct (IH (S from)) as [Hfatal [Hvalues Herrors]].
    unfold Walk.valuesOf, Walk.errorsOf in *. simpl.
    rewrite Hfatal, Hvalues, Herrors.
    unfold Walk.unexpected. rewrite Hallowed. simpl. repeat split.
Qed.

(** C10 (as amended).  For a [Tuple] node without rest, with
    [isUnexpectedAllowed] and an array input longer than
    [elements.length], each of whose first
    [elements.length] positions is validated by its element, the result
    is a [Warning]; its value is the array of the values of these first
    [elements.length] positions and of nothing else, and every extra
    position [i] is reported as the warning
    [Index(i, [Unexpected(input[i])])]. *)
Theorem tuple_unexpected_allowed (as_ : Direction) (elements : list (Element AST))
  (isReadonly : bool) (input : list value) (options : option ParseOptions) :
  optIsUnexpectedAllowed options = true ->
  List.length elements < List.length input ->
  (forall i e, nth_error elements i = Some e ->
     PE.isFailure (go env as_ (e_type e) (nth i input VUndefined) options) = false) ->
  exists es output,
    go env as_ (Tuple elements None isReadonly) (VArray input) options
    = PE.Warning es (VArray output)
    /\ List.length output = List.length elements
    /\ (forall i e, nth_error elements i = Some e ->
          nth_error output i
          = PE.valueOf (go env as_ (e_type e) (nth i input VUndefined) options))
    /\ (forall i, List.length elements <= i < List.length input ->
          In (PE.Index i [PE.Unexpected (nth i input VUndefined)]) es).
Proof.
  intros Hallowed Hlonger Hvalid.
  set (parsers := map (fun e => go env as_ (e_type e)) elements).
  set (todo := combine elements parsers).
  assert (Hlen : List.length todo = List.length elements).
  { unfold todo, parsers. rewrite length_combine, length_map. lia. }
  destruct (elements_valid input options todo 0) as [Hfatal [Hlength Hnth]].
  { lia. }
  { intros i e p Hi. apply nth_error_combine_map in Hi. destruct Hi as [Hi ->].
    apply (Hvalid i e Hi). }
  set (n := List.length input - List.length todo).
  destruct (unexpectedRegion_allowed input options (List.length todo) n Hallowed)
    as [HfatalU [HvaluesU HerrorsU]].
  set (E := Walk.elements input options 0 todo) in *.
  set (U := Walk.unexpectedRegion input options (List.length todo) n) in *.
  assert (Hrun : go env as_ (Tuple elements None isReadonly) (VArray input) options
                 = Walk.report (E ++ U)).
  { simpl. unfold TupleParser.parse. fold parsers.
    rewrite parseArray_no_fatal.
    - reflexivity.
    - unfold Walk.everyPosition, Walk.tuple. fold todo. fold n. fold E. fold U.
      rewrite existsb_app, Hfatal, HfatalU. reflexivity. }
  assert (Hin : forall i, List.length elements <= i < List.length input ->
                  In (PE.Index i [PE.Unexpected (nth i input VUndefined)])
                     (Walk.errorsOf (E ++ U))).
  { intros i Hi. unfold Walk.errorsOf. rewrite flat_map_app. apply in_or_app. right.
    fold (Walk.errorsOf U). rewrite HerrorsU.
    apply in_map_iff. exists i. split; [reflexivity|].
    apply in_seq. unfold n. lia. }
  exists (Walk.errorsOf (E ++ U)), (Walk.valuesOf E).
  split; [|split; [|split]].
  - rewrite Hrun. unfold Walk.report.
    assert (Hvalues : Walk.valuesOf (E ++ U) = Walk.valuesOf E).
    { unfold Walk.valuesOf. rewrite flat_map_app.
      fold (Walk.valuesOf U). rewrite HvaluesU. apply app_nil_r. }
    rewrite existsb_app, Hfatal, HfatalU, Hvalues. simpl.
    destruct (Walk.errorsOf (E ++ U)) eqn:Hes; [|reflexivity].
    exfalso. apply (Hin (List.length elements)). lia.
  - rewrite Hlength. exact Hlen.
  - intros i e Hi.
    assert (Hcomb : nth_error todo i = Some (e, go env as_ (e_type e))).
    { unfold todo, parsers. clear - Hi. revert i Hi.
      induction elements as [|x l IH]; intros i Hi; destruct i; simpl in *;
        try discriminate.
      - injection Hi as ->. reflexivity.
      - apply IH. exact Hi. }
    apply (Hnth i e _ Hcomb).
  - exact Hin.
Qed.

(* ----------------------------------------------------------------- *)
(** ** TypeLiteral: the loops *)

Lemma PropertyKey_eqb_eq (a b : PropertyKey) : PropertyKey_eqb a b = true <-> a = b.
Proof.
  destruct a as [s|m], b as [t|n]; simpl; split; intros H; try discriminate.
  - apply String.eqb_eq in H. congruence.
  - injection H as ->. apply String.eqb_refl.
  - apply Nat.eqb_eq in H. congruence.
  - injection H as ->. apply Nat.eqb_refl.
Qed.

Lemma PropertyKey_eqb_refl (a : PropertyKey) : PropertyKey_eqb a a = true.
Proof. apply PropertyKey_eqb_eq. reflexivity. Qed.

Lemma PropertyKey_eqb_neq (a b : PropertyKey) : a <> b -> PropertyKey_eqb a b = false.
Proof.
  intros H. destruct (PropertyKey_eqb a b) eqn:E; [|reflexivity].
  apply PropertyKey_eqb_eq in E. contradiction.
Qed.

Lemma PropertyKey_eqb_sym (a b : PropertyKey) : PropertyKey_eqb a b = PropertyKey_eqb b a.
Proof.
  destruct (PropertyKey_eqb b a) eqn:E.
  - apply PropertyKey_eqb_eq in E. subst b. apply PropertyKey_eqb_refl.
  - apply PropertyKey_eqb_neq. intros ->. rewrite PropertyKey_eqb_refl in E. discriminate.
Qed.

(** *** Own properties after an assignment *)

Lemma hasOwnProperty_replaceProperty (o : list (PropertyKey * value))
  (k k' : PropertyKey) (v : value) :
  hasOwnProperty (replaceProperty o k v) k' = hasOwnProperty o k'.
Proof.
  unfold hasOwnProperty. induction o as [|[k0 v0] o IH]; simpl; [reflexivity|].
  destruct (PropertyKey_eqb k0 k); simpl; [reflexivity|]. rewrite IH. reflexivity.
Qed.

Lemma hasOwnProperty_insertProperty (o : list (PropertyKey * value))
  (k k' : PropertyKey) (v : value) :
  hasOwnProperty (insertProperty o k v) k' = hasOwnProperty o k' || PropertyKey_eqb k k'.
Proof.
  unfold hasOwnProperty. induction o as [|[k0 v0] o IH]; simpl.
  - apply orb_comm.
  - destruct (precedes k k0); simpl.
    + destruct (PropertyKey_eqb k k'), (PropertyKey_eqb k0 k'),
        (existsb (fun p : PropertyKey * value => PropertyKey_eqb (fst p) k') o);
        reflexivity.
    + rewrite IH, orb_assoc. reflexivity.
Qed.

Lemma hasOwnProperty_set (o : list (PropertyKey * value)) (k k' : PropertyKey)
  (v : value) :
  hasOwnProperty (setProperty o k v) k' = hasOwnProperty o k' || PropertyKey_eqb k k'.
Proof.
  unfold setProperty. destruct (hasOwnProperty o k) eqn:Hown.
  - rewrite hasOwnProperty_replaceProperty.
    destruct (PropertyKey_eqb k k') eqn:Hk; [|rewrite orb_false_r; reflexivity].
    apply PropertyKey_eqb_eq in Hk. subst k'. rewrite Hown. reflexivity.
  - apply hasOwnProperty_insertProperty.
Qed.

Lemma hasOwnProperty_setProperty (o : list (PropertyKey * value)) (k k' : PropertyKey)
  (v : value) :
  hasOwnProperty (setProperty o k v) k' = true ->
  k' = k \/ hasOwnProperty o k' = true.
Proof.
  rewrite hasOwnProperty_set. intros H. apply orb_true_iff in H.
  destruct H as [H | H]; [right; exact H | left].
  symmetry. apply PropertyKey_eqb_eq. exact H.
Qed.

Lemma hasOwnProperty_setProperty_same (o : list (PropertyKey * value))
  (k : PropertyKey) (v : value) :
  hasOwnProperty (setProperty o k v) k = true.
Proof. rewrite hasOwnProperty_set, PropertyKey_eqb_refl. apply orb_true_r. Qed.

Lemma hasOwnProperty_setProperty_other (o : list (PropertyKey * value))
  (k k' : PropertyKey) (v : value) :
  k' <> k -> hasOwnProperty (setProperty o k v) k' = hasOwnProperty o k'.
Proof.
  intros Hne. rewrite hasOwnProperty_set, PropertyKey_eqb_neq by congruence.
  apply orb_false_r.
Qed.

Lemma getProperty_replaceProperty_same (o : list (PropertyKey * value))
  (k : PropertyKey) (v : value) :
  hasOwnProperty o k = true -> getProperty (replaceProperty o k v) k = v.
Proof.
  unfold hasOwnProperty. induction o as [|[k0 v0] o IH]; simpl; [discriminate|].
  destruct (PropertyKey_eqb k0 k) eqn:E; simpl; rewrite E; [reflexivity|].
  intros H. apply IH. exact H.
Qed.

Lemma getProperty_replaceProperty_other (o : list (PropertyKey * value))
  (k k' : PropertyKey) (v : value) :
  k' <> k -> getProperty (replaceProperty o k v) k' = getProperty o k'.
Proof.
  intros Hne. induction o as [|[k0 v0] o IH]; simpl; [reflexivity|].
  destruct (PropertyKey_eqb k0 k) eqn:E; simpl.
  - apply PropertyKey_eqb_eq in E. subst k0.
    rewrite PropertyKey_eqb_neq by congruence. reflexivity.
  - rewrite IH. reflexivity.
Qed.

Lemma getProperty_insertProperty_same (o : list (PropertyKey * value))
  (k : PropertyKey) (v : value) :
  hasOwnProperty o k = false -> getProperty (insertProperty o k v) k = v.
Proof.
  unfold hasOwnProperty. induction o as [|[k0 v0] o IH]; simpl.
  - rewrite PropertyKey_eqb_refl. reflexivity.
  - intros H. apply orb_false_iff in H. destruct H as [H0 H].
    destruct (precedes k k0); simpl.
    + rewrite PropertyKey_eqb_refl. reflexivity.
    + rewrite H0. apply IH. exact H.
Qed.

Lemma getProperty_insertProperty_other (o : list (PropertyKey * value))
  (k k' : PropertyKey) (v : value) :
  k' <> k -> getProperty (insertProperty o k v) k' = getProperty o k'.
Proof.
  intros Hne. induction o as [|[k0 v0] o IH]; simpl.
  - rewrite PropertyKey_eqb_neq by congruence. reflexivity.
  - destruct (precedes k k0); simpl.
    + rewrite PropertyKey_eqb_neq by congruence. reflexivity.
    + rewrite IH. reflexivity.
Qed.

Lemma getProperty_setProperty_same (o : list (PropertyKey * value)) (k : PropertyKey)
  (v : value) :
  getProperty (setProperty o k v) k = v.
Proof.
  unfold setProperty. destruct (hasOwnProperty o k) eqn:Hown.
  - apply getProperty_replaceProperty_same. exact Hown.
  - apply getProperty_insertProperty_same. exact Hown.
Qed.

Lemma getProperty_setProperty_other (o : list (PropertyKey * value))
  (k k' : PropertyKey) (v : value) :
  k' <> k -> getProperty (setProperty o k v) k' = getProperty o k'.
Proof.
  intros Hne. unfold setProperty. destruct (hasOwnProperty o k).
  - apply getProperty_replaceProperty_other. exact Hne.
  - apply getProperty_insertProperty_other. exact Hne.
Qed.

(** An assignment gives the object no own key but the assigned one. *)
Lemma hasOwnProperty_assign (o : PlainObject) (k k' : PropertyKey) (v : value) :
  hasOwnProperty (o_own (assign o k v)) k' = true ->
  k' = k \/ hasOwnProperty (o_own o) k' = true.
Proof.
  unfold assign.
  destruct (PropertyKey_eqb k protoKey && negb (hasOwnProperty (o_own o) k)).
  - destruct (lookupProto (o_prototype o)); simpl.
    + destruct (typeofObject v); simpl; intros H; right; exact H.
    + apply hasOwnProperty_setProperty.
    + apply hasOwnProperty_setProperty.
  - simpl. apply hasOwnProperty_setProperty.
Qed.

(** An assignment to a key other than [__proto__] creates or overwrites
    the own property. *)
Lemma assign_ordinary (o : PlainObject) (k : PropertyKey) (v : value) :
  k <> protoKey ->
  assign o k v = {| o_own := setProperty (o_own o) k v; o_prototype := o_prototype o |}.
Proof.
  intros Hne. unfold assign. rewrite PropertyKey_eqb_neq by exact Hne. reflexivity.
Qed.

(** An assignment leaves the other own properties as they are. *)
Lemma assign_other (o : PlainObject) (k k' : PropertyKey) (v : value) :
  k' <> k ->
  hasOwnProperty (o_own (assign o k v)) k' = hasOwnProperty (o_own o) k'
  /\ getProperty (o_own (assign o k v)) k' = getProperty (o_own o) k'.
Proof.
  intros Hne. unfold assign.
  destruct (PropertyKey_eqb k protoKey && negb (hasOwnProperty (o_own o) k)).
  - destruct (lookupProto (o_prototype o)); simpl.
    + destruct (typeofObject v); simpl; split; reflexivity.
    + split; [apply hasOwnProperty_setProperty_other | apply getProperty_setProperty_other];
        exact Hne.
    + split; [apply hasOwnProperty_setProperty_other | apply getProperty_setProperty_other];
        exact Hne.
  - simpl.
    split; [apply hasOwnProperty_setProperty_other | apply getProperty_setProperty_other];
      exact Hne.
Qed.

(** *** The expected keys *)

Lemma declaredProto_other (n : nat) (o : PlainObject) (name : PropertyKey) :
  name <> protoKey -> declaredProto n o -> declaredProto n (assign o name VNull).
Proof.
  intros Hne [Hproto Hown]. rewrite (assign_ordinary o VNull Hne). split; simpl.
  - exact Hproto.
  - rewrite hasOwnProperty_setProperty_other by congruence. exact Hown.
Qed.

Lemma declaredProto_proto (n : nat) (o : PlainObject) :
  declaredProto n o -> declaredProto (S n) (assign o protoKey VNull).
Proof.
  intros [Hproto Hown]. unfold assign, declaredProto.
  destruct n as [|[|n]]; simpl in *; rewrite Hown, Hproto; simpl.
  - split; [reflexivity | exact Hown].
  - split; [reflexivity|]. apply hasOwnProperty_setProperty_same.
  - split; [reflexivity|]. apply hasOwnProperty_setProperty_same.
Qed.

Lemma declareAll_declaredProto (names : list PropertyKey) :
  forall n o,
    declaredProto n o -> declaredProto (n + protoCount names) (declareAll names o).
Proof.
  unfold declareAll, protoCount.
  induction names as [|name names IH]; intros n o Ho; simpl.
  - rewrite Nat.add_0_r. exact Ho.
  - destruct (PropertyKey_eqb name protoKey) eqn:Hname; simpl.
    + apply PropertyKey_eqb_eq in Hname. subst name.
      rewrite <- Nat.add_succ_comm. apply IH. apply declaredProto_proto. exact Ho.
    + apply IH. apply declaredProto_other; [|exact Ho].
      intros ->. rewrite PropertyKey_eqb_refl in Hname. discriminate.
Qed.

Lemma declareAll_other (names : list PropertyKey) (key : PropertyKey) :
  key <> protoKey ->
  forall o,
    hasOwnProperty (o_own (declareAll names o)) key
    = hasOwnProperty (o_own o) key || existsb (fun name => PropertyKey_eqb name key) names.
Proof.
  intros Hkey. unfold declareAll.
  induction names as [|name names IH]; intros o; simpl.
  - rewrite orb_false_r. reflexivity.
  - rewrite IH, orb_assoc. f_equal.
    destruct (PropertyKey_eqb name key) eqn:Hname.
    + apply PropertyKey_eqb_eq in Hname. subst name.
      rewrite (assign_ordinary o VNull Hkey). simpl.
      rewrite hasOwnProperty_setProperty_same, orb_true_r. reflexivity.
    + rewrite orb_false_r. apply assign_other.
      intros ->. rewrite PropertyKey_eqb_refl in Hname. discriminate.
Qed.

(** The own keys of [expectedKeys] when the names [names] have been
    declared are the expected keys of the walk. *)
Lemma declareAll_expected (names : list PropertyKey) (key : PropertyKey) :
  hasOwnProperty (o_own (declareAll names emptyObject)) key
  = RecordWalk.expected names key.
Proof.
  unfold RecordWalk.expected.
  destruct (PropertyKey_eqb key protoKey) eqn:Hkey.
  - apply PropertyKey_eqb_eq in Hkey. subst key.
    destruct (@declareAll_declaredProto names 0 emptyObject (conj eq_refl eq_refl))
      as [_ Hown].
    exact Hown.
  - rewrite declareAll_other.
    + reflexivity.
    + intros ->. rewrite PropertyKey_eqb_refl in Hkey. discriminate.
Qed.

(** An expected key is the name of a property signature. *)
Lemma expected_declared (names : list PropertyKey) (key : PropertyKey) :
  RecordWalk.expected names key = true -> In key names.
Proof.
  unfold RecordWalk.expected.
  destruct (PropertyKey_eqb key protoKey) eqn:Hkey.
  - apply PropertyKey_eqb_eq in Hkey. subst key. intros H.
    destruct (filter (fun name => PropertyKey_eqb name protoKey) names) as [|x l] eqn:Hf;
      [discriminate|].
    assert (Hin : In x (filter (fun name => PropertyKey_eqb name protoKey) names))
      by (rewrite Hf; left; reflexivity).
    apply filter_In in Hin. destruct Hin as [Hin Hx].
    apply PropertyKey_eqb_eq in Hx. subst x. exact Hin.
  - intros H. apply existsb_exists in H. destruct H as [x [Hin Hx]].
    apply PropertyKey_eqb_eq in Hx. subst x. exact Hin.
Qed.

Section RecordFacts.
Variable input : list (PropertyKey * value).
Variable options : option ParseOptions.

(** *** What a loop leaves untouched *)

Lemma propertyBody_expected (ps : PropertySignature AST) (parser : Parser)
  (st st' : RecordState) :
  RecordParser.propertyBody input options ps parser st = Next st' ->
  r_expectedKeys st' = assign (r_expectedKeys st) (ps_name ps) VNull.
Proof.
  unfold RecordParser.propertyBody.
  destruct (negb (hasOwnProperty input (ps_name ps))).
  - destruct (ps_isOptional ps); [intros H; injection H as <-; reflexivity|].
    destruct (optAllErrors options); [|discriminate].
    intros H; injection H as <-; reflexivity.
  - destruct (parser (getProperty input (ps_name ps)) options).
    + destruct (optAllErrors options); [|discriminate].
      intros H; injection H as <-; reflexivity.
    + intros H; injection H as <-; reflexivity.
    + intros H; injection H as <-; reflexivity.
Qed.

Lemma forProperties_expected (todo : list (PropertySignature AST * Parser)) :
  forall st st',
    RecordParser.forProperties input options todo st = Next st' ->
    r_expectedKeys st'
    = declareAll (map (fun q => ps_name (fst q)) todo) (r_expectedKeys st).
Proof.
  induction todo as [|[ps parser] todo IH]; intros st st' Hrun; simpl in *.
  - injection Hrun as <-. reflexivity.
  - destruct (RecordParser.propertyBody input options ps parser st) as [t|st1] eqn:Hbody;
      [discriminate|].
    rewrite (IH _ _ Hrun), (propertyBody_expected _ _ _ Hbody). reflexivity.
Qed.

(** *** Every [return] of the loops is a failure *)

Lemma propertyBody_return (ps : PropertySignature AST) (parser : Parser)
  (st : RecordState) (t : ParseResult) :
  RecordParser.propertyBody input options ps parser st = Return t ->
  PE.isFailure t = true /\ optAllErrors options = false.
Proof.
  unfold RecordParser.propertyBody.
  destruct (negb (hasOwnProperty input (ps_name ps))).
  - destruct (ps_isOptional ps); [discriminate|].
    destruct (optAllErrors options); [discriminate|].
    intros H; injection H as <-. split; reflexivity.
  - destruct (parser (getProperty input (ps_name ps)) options); try discriminate.
    destruct (optAllErrors options); [discriminate|].
    intros H; injection H as <-. split; reflexivity.
Qed.

Lemma forProperties_return (todo : list (PropertySignature AST * Parser)) :
  forall st t,
    RecordParser.forProperties input options todo st = Return t ->
    PE.isFailure t = true /\ optAllErrors options = false.
Proof.
  induction todo as [|[ps parser] todo IH]; intros st t Hrun; simpl in *.
  - discriminate.
  - destruct (RecordParser.propertyBody input options ps parser st) as [t1|st1] eqn:Hbody.
    + injection Hrun as <-. apply (propertyBody_return _ _ _ Hbody).
    + apply (IH _ _ Hrun).
Qed.

Lemma forProperties_ok (todo : list (PropertySignature AST * Parser)) :
  Forall (propertyOk input options) todo ->
  forall st, exists st',
    RecordParser.forProperties input options todo st = Next st'
    /\ r_isLeft st' = r_isLeft st.
Proof.
  induction 1 as [|[ps parser] todo Hq Hrest IH]; intros st; simpl.
  - exists st. split; reflexivity.
  - unfold RecordParser.propertyBody.
    destruct Hq as [[Hown Hvalid] | [Hown Hopt]]; simpl in *; rewrite Hown; simpl.
    + destruct (parser (getProperty input (ps_name ps)) options) as [es|es a|a];
        try discriminate.
      * destruct (IH (RecordParser.setOutput (ps_name ps) a
                        (RecordParser.push (PE.key (ps_name ps) es)
                           (RecordParser.expect (ps_name ps) st)))) as [st' [Hrun Hleft]].
        exists st'. split; [exact Hrun | rewrite Hleft; reflexivity].
      * destruct (IH (RecordParser.setOutput (ps_name ps) a
                        (RecordParser.expect (ps_name ps) st))) as [st' [Hrun Hleft]].
        exists st'. split; [exact Hrun | rewrite Hleft; reflexivity].
    + rewrite Hopt.
      destruct (IH (RecordParser.expect (ps_name ps) st)) as [st' [Hrun Hleft]].
      exists st'. split; [exact Hrun | rewrite Hleft; reflexivity].
Qed.

(** *** The loop over the unexpected keys *)

Lemma unexpectedBody_keeps (key : PropertyKey) (st st' : RecordState) :
  RecordParser.unexpectedBody input options key st = Next st' ->
  r_expectedKeys st' = r_expectedKeys st
  /\ r_output st' = r_output st
  /\ (exists more, r_es st' = r_es st ++ more)
  /\ (r_isLeft st = true -> r_isLeft st' = true).
Proof.
  unfold RecordParser.unexpectedBody.
  destruct (negb (RecordParser.isExpected st key)).
  - destruct (optIsUnexpectedAllowed options).
    + intros H; injection H as <-. simpl. repeat split; eauto.
    + destruct (optAllErrors options); [|discriminate].
      intros H; injection H as <-. simpl. repeat split; eauto.
  - intros H; injection H as <-. repeat split; auto. exists []. symmetry. apply app_nil_r.
Qed.

Lemma forUnexpected_keeps (keys : list PropertyKey) :
  forall st st',
    RecordParser.forUnexpected input options keys st = Next st' ->
    r_expectedKeys st' = r_expectedKeys st
    /\ r_output st' = r_output st
    /\ (exists more, r_es st' = r_es st ++ more)
    /\ (r_isLeft st = true -> r_isLeft st' = true).
Proof.
  induction keys as [|key keys IH]; intros st st' Hrun; simpl in *.
  - injection Hrun as <-. repeat split; auto. exists []. symmetry. apply app_nil_r.
  - destruct (RecordParser.unexpectedBody input options key st) as [t|st1] eqn:Hbody;
      [discriminate|].
    destruct (unexpectedBody_keeps _ _ Hbody) as [He [Ho [[m1 Hes] Hl]]].
    destruct (IH _ _ Hrun) as [He' [Ho' [[m2 Hes'] Hl']]].
    repeat split; try congruence.
    + exists (m1 ++ m2). rewrite Hes', Hes, app_assoc. reflexivity.
    + auto.
Qed.

Lemma forUnexpected_return (keys : list PropertyKey) :
  forall st t,
    RecordParser.forUnexpected input options keys st = Return t ->
    PE.isFailure t = true /\ optAllErrors options = false.
Proof.
  induction keys as [|key keys IH]; intros st t Hrun; simpl in *.
  - discriminate.
  - destruct (RecordParser.unexpectedBody input options key st) as [t1|st1] eqn:Hbody.
    + injection Hrun as <-. revert Hbody. unfold RecordParser.unexpectedBody.
      destruct (negb (RecordParser.isExpected st key)); [|discriminate].
      destruct (optIsUnexpectedAllowed options); [discriminate|].
      destruct (optAllErrors options); [discriminate|].
      intros H; injection H as <-. split; reflexivity.
    + apply (IH _ _ Hrun).
Qed.

Lemma isExpected_same (st st' : RecordState) (k : PropertyKey) :
  r_expectedKeys st' = r_expectedKeys st ->
  RecordParser.isExpected st' k = RecordParser.isExpected st k.
Proof. unfold RecordParser.isExpected. intros ->. reflexivity. Qed.

(** An unexpected key that is reached is reported. *)
Lemma forUnexpected_reports (keys : list PropertyKey) :
  forall st st' key,
    RecordParser.forUnexpected input options keys st = Next st' ->
    In key keys ->
    RecordParser.isExpected st key = false ->
    In (PE.Key key [PE.Unexpected (getProperty input key)]) (r_es st').
Proof.
  induction keys as [|k keys IH]; intros st st' key Hrun Hin Hnot; simpl in *.
  - contradiction.
  - destruct (RecordParser.unexpectedBody input options k st) as [t|st1] eqn:Hbody;
      [discriminate|].
    destruct (unexpectedBody_keeps _ _ Hbody) as [He _].
    destruct Hin as [-> | Hin].
    + destruct (forUnexpected_keeps _ _ Hrun) as [_ [_ [[more Hes] _]]].
      rewrite Hes. apply in_or_app. left.
      revert Hbody. unfold RecordParser.unexpectedBody. rewrite Hnot. simpl.
      destruct (optIsUnexpectedAllowed options).
      * intros H; injection H as <-. simpl. apply in_or_app. right. left. reflexivity.
      * destruct (optAllErrors options); [|discriminate].
        intros H; injection H as <-. simpl. apply in_or_app. right. left. reflexivity.
    + apply (IH _ _ key Hrun Hin).
      rewrite (@isExpected_same st st1 key He). exact Hnot.
Qed.

(** An unexpected key is fatal when unexpected keys are not allowed. *)
Lemma forUnexpected_fatal (keys : list PropertyKey) :
  forall st key,
    optIsUnexpectedAllowed options = false ->
    In key keys ->
    RecordParser.isExpected st key = false ->
    match RecordParser.forUnexpected input options keys st with
    | Return t => PE.isFailure t = true
    | Next st' => r_isLeft st' = true /\ I.isNonEmpty (r_es st') = true
    end.
Proof.
  induction keys as [|k keys IH]; intros st key Hallowed Hin Hnot; simpl in *.
  - contradiction.
  - destruct (RecordParser.unexpectedBody input options k st) as [t|st1] eqn:Hbody.
    + revert Hbody. unfold RecordParser.unexpectedBody. rewrite Hallowed.
      destruct (negb (RecordParser.isExpected st k)); [|discriminate].
      destruct (optAllErrors options); [discriminate|].
      intros H; injection H as <-. reflexivity.
    + destruct (unexpectedBody_keeps _ _ Hbody) as [He _].
      destruct Hin as [-> | Hin].
      * revert Hbody. unfold RecordParser.unexpectedBody. rewrite Hallowed, Hnot. simpl.
        destruct (optAllErrors options); [|discriminate].
        intros H; injection H as <-.
        destruct (RecordParser.forUnexpected input options keys _) as [t|st2] eqn:Hrun.
        -- apply (forUnexpected_return _ _ Hrun).
        -- destruct (forUnexpected_keeps _ _ Hrun) as [_ [_ [[more Hes] Hl]]].
           split; [apply Hl; reflexivity|].
           rewrite Hes. simpl. destruct (r_es st); reflexivity.
      * apply (IH st1 key Hallowed Hin).
        rewrite (@isExpected_same st st1 key He). exact Hnot.
Qed.

(** Unexpected keys are tolerated when they are allowed. *)
Lemma forUnexpected_allowed (keys : list PropertyKey) :
  optIsUnexpectedAllowed options = true ->
  forall st, exists st',
    RecordParser.forUnexpected input options keys st = Next st'
    /\ r_isLeft st' = r_isLeft st.
Proof.
  intros Hallowed.
  induction keys as [|k keys IH]; intros st; simpl.
  - exists st. split; reflexivity.
  - unfold RecordParser.unexpectedBody. rewrite Hallowed.
    destruct (negb (RecordParser.isExpected st k)).
    + destruct (IH (RecordParser.push
                      (PE.key k [PE.unexpected (getProperty input k)]) st))
        as [st' [Hrun Hleft]].
      exists st'. split; [exact Hrun | rewrite Hleft; reflexivity].
    + apply IH.
Qed.

End RecordFacts.

(* ----------------------------------------------------------------- *)
(** ** TypeLiteral: the loops and the walk *)

Section RecordWalkFacts.
Variable input : list (PropertyKey * value).
Variable options : option ParseOptions.
Hypothesis all : optAllErrors options = true.

Lemma absorbKey_expect (name : PropertyKey) (st : RecordState) (o : RecordWalk.Outcome) :
  absorbKey (RecordParser.expect name st) o = RecordParser.expect name (absorbKey st o).
Proof. destruct o; reflexivity. Qed.

Lemma absorbKeys_expect (name : PropertyKey) (os : list RecordWalk.Outcome) :
  forall st,
    absorbKeys os (RecordParser.expect name st)
    = RecordParser.expect name (absorbKeys os st).
Proof.
  unfold absorbKeys. induction os as [|o os IH]; intros st; simpl.
  - reflexivity.
  - rewrite absorbKey_expect. apply IH.
Qed.

Lemma absorbKeys_expectAll (names : list PropertyKey) (os : list RecordWalk.Outcome) :
  forall st, absorbKeys os (expectAll names st) = expectAll names (absorbKeys os st).
Proof.
  unfold expectAll. induction names as [|name names IH]; intros st; simpl.
  - reflexivity.
  - rewrite IH, absorbKeys_expect. reflexivity.
Qed.

Lemma absorbKeys_app (os1 os2 : list RecordWalk.Outcome) (st : RecordState) :
  absorbKeys (os1 ++ os2) st = absorbKeys os2 (absorbKeys os1 st).
Proof. unfold absorbKeys. apply fold_left_app. Qed.

Lemma absorbKeys_expectedKeys (os : list RecordWalk.Outcome) :
  forall st, r_expectedKeys (absorbKeys os st) = r_expectedKeys st.
Proof.
  unfold absorbKeys. induction os as [|o os IH]; intros st; simpl.
  - reflexivity.
  - rewrite IH. destruct o; reflexivity.
Qed.

Lemma absorbKeys_es (os : list RecordWalk.Outcome) :
  forall st, r_es (absorbKeys os st) = r_es st ++ RecordWalk.errorsOf os.
Proof.
  unfold absorbKeys. induction os as [|o os IH]; intros st; simpl.
  - rewrite app_nil_r. reflexivity.
  - rewrite IH. destruct o; simpl; try reflexivity; rewrite <- app_assoc; reflexivity.
Qed.

Lemma absorbKeys_isLeft (os : list RecordWalk.Outcome) :
  forall st, r_isLeft (absorbKeys os st) = r_isLeft st || existsb RecordWalk.isFatal os.
Proof.
  unfold absorbKeys. induction os as [|o os IH]; intros st; simpl.
  - rewrite orb_false_r. reflexivity.
  - rewrite IH. destruct o; simpl; try reflexivity. rewrite orb_true_r. reflexivity.
Qed.

Lemma absorbKeys_output (os : list RecordWalk.Outcome) :
  forall st, r_output (absorbKeys os st) = fold_left RecordWalk.store os (r_output st).
Proof.
  unfold absorbKeys. induction os as [|o os IH]; intros st; simpl.
  - reflexivity.
  - rewrite IH. destruct o; reflexivity.
Qed.

Lemma computeOutput_expectAll (names : list PropertyKey) :
  forall st,
    RecordParser.computeOutput (expectAll names st) = RecordParser.computeOutput st.
Proof.
  unfold expectAll. induction names as [|name names IH]; intros st; simpl.
  - reflexivity.
  - rewrite IH. reflexivity.
Qed.


Lemma expectedKeys_expectAll (names : list PropertyKey) :
  forall st, r_expectedKeys (expectAll names st) = declareAll names (r_expectedKeys st).
Proof.
  unfold expectAll, declareAll. induction names as [|name names IH]; intros st; simpl.
  - reflexivity.
  - rewrite IH. reflexivity.
Qed.

(** The keys that are expected when the property signatures have been
    walked from the initial state. *)
Lemma isExpected_walked (names : list PropertyKey) (os : list RecordWalk.Outcome)
  (key : PropertyKey) :
  RecordParser.isExpected (expectAll names (absorbKeys os RecordParser.initial)) key
  = RecordWalk.expected names key.
Proof.
  unfold RecordParser.isExpected.
  rewrite expectedKeys_expectAll, absorbKeys_expectedKeys. apply declareAll_expected.
Qed.









End RecordWalkFacts.

Lemma recordErrors_nil_no_fatal (os : list RecordWalk.Outcome) :
  RecordWalk.errorsOf os = [] -> existsb RecordWalk.isFatal os = false.
Proof.
  unfold RecordWalk.errorsOf. induction os as [|o os IH]; simpl; [reflexivity|].
  destruct o; simpl; try discriminate; exact IH.
Qed.

Lemma recordReport_fails (os : list RecordWalk.Outcome) :
  PE.isFailure (RecordWalk.report os) = existsb RecordWalk.isFatal os.
Proof.
  unfold RecordWalk.report.
  destruct (RecordWalk.errorsOf os) as [|e es] eqn:Hes.
  - rewrite (recordErrors_nil_no_fatal os Hes). reflexivity.
  - destruct (existsb RecordWalk.isFatal os); reflexivity.
Qed.


Lemma fast_path_not_taken (B C : Type) (f : PropertySignature AST -> B)
  (g : IndexSignature AST -> C)
  (propertySignatures : list (PropertySignature AST))
  (indexSignatures : list (IndexSignature AST)) :
  propertySignatures <> [] \/ indexSignatures <> [] ->
  (List.length (map f propertySignatures) =? 0)
  && (List.length (map g indexSignatures) =? 0) = false.
Proof.
  intros [H | H].
  - destruct propertySignatures; [congruence | reflexivity].
  - destruct indexSignatures; [congruence|]. apply andb_false_r.
Qed.


(** C7 (as amended).  For every [TypeLiteral] node with at least one
    property signature or index signature: an input that is not an object,
    or is [null], is rejected with [Failure([Type(unknownRecord, input)])];
    and when the node has no index signature, every own key of the input
    that is not the name of a property signature is reported as
    [Key(key, [Unexpected(input[key])])] whenever the parse runs to its end
    (with [allErrors], or when the result is not a [Failure]), makes the
    result a [Failure] unless [isUnexpectedAllowed] is set, and with
    [isUnexpectedAllowed] does not make it one (the result is not a
    [Failure] when every property signature is validated). *)
Theorem typeLiteral_unexpected_keys (as_ : Direction)
  (propertySignatures : list (PropertySignature AST))
  (indexSignatures : list (IndexSignature AST)) (options : option ParseOptions) :
  propertySignatures <> [] \/ indexSignatures <> [] ->
  let parse := go env as_ (TypeLiteral propertySignatures indexSignatures) in
  (forall input,
      typeofObject input = false \/ input = VNull ->
      parse input options = PE.Failure [PE.Type_ unknownRecord input])
  /\ (indexSignatures = [] ->
      forall props key,
        In key (I.ownKeys props) ->
        ~ In key (map (@ps_name AST) propertySignatures) ->
        let r := parse (VObject props) options in
        (optAllErrors options = true \/ PE.isFailure r = false ->
         In (PE.Key key [PE.Unexpected (getProperty props key)]) (PE.errorsOf r))
        /\ (optIsUnexpectedAllowed options = false -> PE.isFailure r = true)
        /\ (optIsUnexpectedAllowed options = true ->
            Forall (propertyOk props options)
              (combine propertySignatures
                 (map (fun f => go env as_ (ps_type f)) propertySignatures)) ->
            PE.isFailure r = false)).
Proof.
  intros Hnonempty parse.
  assert (Hparse : parse
                   = fun input options =>
                       match input with
                       | VObject props =>
                           RecordParser.parseObject props options propertySignatures
                             (map (fun f => go env as_ (ps_type f)) propertySignatures)
                             indexSignatures
                             (map (fun s => (go env as_ (is_parameter s),
                                             go env as_ (is_type s))) indexSignatures)
                       | _ => PE.failure (PE.type unknownRecord input)
                       end).
  { unfold parse. simpl. unfold RecordParser.parse.
    rewrite (@fast_path_not_taken _ _ _ _ _ _ Hnonempty). reflexivity. }
  clearbody parse. subst parse. split.
  - intros input [Htypeof | ->]; [|reflexivity].
    destruct input; try discriminate; reflexivity.
  - intros -> props key Hown Hundeclared. simpl.
    set (parsers := map (fun f => go env as_ (ps_type f)) propertySignatures).
    unfold RecordParser.parseObject.
    destruct (RecordParser.forProperties props options
                (combine propertySignatures parsers) RecordParser.initial)
      as [t|st1] eqn:Hprops.
    + (* the loop over the property signatures returned *)
      destruct (@forProperties_return props options _ _ _ Hprops) as [Hfail Hall].
      split; [|split].
      * intros [H | H]; congruence.
      * intros _. exact Hfail.
      * intros _ Hok.
        destruct (@forProperties_ok props options _ Hok RecordParser.initial) as [st' [Hrun _]].
        congruence.
    + (* the loop over the own keys is reached *)
      assert (Hnot : RecordParser.isExpected st1 key = false).
      { unfold RecordParser.isExpected.
        rewrite (@forProperties_expected props options _ _ _ Hprops). simpl.
        rewrite declareAll_expected.
        destruct (RecordWalk.expected
                    (map (fun q : PropertySignature AST * Parser => ps_name (fst q))
                       (combine propertySignatures parsers)) key) eqn:Hexpected;
          [|reflexivity].
        exfalso. apply Hundeclared.
        apply expected_declared in Hexpected.
        apply in_map_iff in Hexpected. destruct Hexpected as [[f p] [<- Hin]].
        apply in_map. apply (in_combine_l _ _ _ _ Hin). }
      unfold RecordParser.afterProperties. simpl.
      destruct (RecordParser.forUnexpected props options (I.ownKeys props) st1)
        as [t|st2] eqn:Hrun.
      * destruct (@forUnexpected_return props options _ _ _ Hrun) as [Hfail Hall].
        split; [|split].
        -- intros [H | H]; congruence.
        -- intros _. exact Hfail.
        -- intros Hallowed _.
           destruct (@forUnexpected_allowed props options (I.ownKeys props) Hallowed st1)
             as [st' [Hrun' _]].
           congruence.
      * pose proof (@forUnexpected_reports props options _ _ _ key Hrun Hown Hnot) as Hreported.
        split; [|split].
        -- intros _. unfold RecordParser.computeOutput.
           destruct (r_es st2) eqn:Hes; [contradiction|]. simpl.
           destruct (r_isLeft st2); simpl; exact Hreported.
        -- intros Hallowed.
           pose proof (@forUnexpected_fatal props options (I.ownKeys props) st1 key Hallowed Hown Hnot)
             as Hfatal.
           rewrite Hrun in Hfatal. destruct Hfatal as [Hleft Hes].
           unfold RecordParser.computeOutput. rewrite Hes, Hleft. reflexivity.
        -- intros Hallowed Hok.
           destruct (@forProperties_ok props options _ Hok RecordParser.initial) as [s1 [Hrun1 Hleft1]].
           fold parsers in Hrun1. rewrite Hprops in Hrun1. injection Hrun1 as <-.
           destruct (@forUnexpected_allowed props options (I.ownKeys props) Hallowed st1)
             as [s2 [Hrun2 Hleft2]].
           rewrite Hrun in Hrun2. injection Hrun2 as <-.
           unfold RecordParser.computeOutput.
           rewrite Hleft2, Hleft1. simpl.
           destruct (I.isNonEmpty (r_es st2)); reflexivity.
Qed.

(* ----------------------------------------------------------------- *)
(** ** TypeLiteral: which keys are reported and output *)

Section KeysWithin.
Variable A : PropertyKey -> Prop.
Variable input : list (PropertyKey * value).
Variable options : option ParseOptions.

Lemma keysWithin_snoc (es : list ParseError) (k : PropertyKey) (errs : list ParseError) :
  keysWithin A es -> A k -> keysWithin A (es ++ [PE.Key k errs]).
Proof.
  intros Hes Hk e Hin. apply in_app_or in Hin. destruct Hin as [Hin | [<- | []]].
  - apply Hes. exact Hin.
  - exists k, errs. split; [reflexivity | exact Hk].
Qed.

Lemma within_push (st : RecordState) (k : PropertyKey) (errs : list ParseError) :
  stateWithin A st -> A k -> stateWithin A (RecordParser.push (PE.key k errs) st).
Proof.
  intros [Hes Hout] Hk. split; simpl.
  - apply keysWithin_snoc; assumption.
  - exact Hout.
Qed.

Lemma within_setOutput (st : RecordState) (k : PropertyKey) (a : value) :
  stateWithin A st -> A k -> stateWithin A (RecordParser.setOutput k a st).
Proof.
  intros [Hes Hout] Hk. split; simpl.
  - exact Hes.
  - intros k' Hk'. apply hasOwnProperty_assign in Hk'.
    destruct Hk' as [-> | Hk']; [exact Hk | apply Hout; exact Hk'].
Qed.

Lemma within_setLeft (st : RecordState) :
  stateWithin A st -> stateWithin A (RecordParser.setLeft st).
Proof. intros H. exact H. Qed.

Lemma within_expect (st : RecordState) (name : PropertyKey) :
  stateWithin A st -> stateWithin A (RecordParser.expect name st).
Proof. intros H. exact H. Qed.

(** What a parsed value does to the state, in the three loops alike. *)
Lemma within_parsed (t : ParseResult) (k : PropertyKey) (st : RecordState) :
  stateWithin A st -> A k ->
  loopWithin A
    match t with
    | PE.Failure left_ =>
        let e := PE.key k left_ in
        if optAllErrors options then Next (RecordParser.setLeft (RecordParser.push e st))
        else Return (PE.failures (I.mutableAppend (r_es st) e))
    | PE.Warning left_ right_ =>
        Next (RecordParser.setOutput k right_ (RecordParser.push (PE.key k left_) st))
    | PE.Success right_ => Next (RecordParser.setOutput k right_ st)
    end.
Proof.
  intros Hst Hk. destruct t as [es|es a|a]; simpl.
  - destruct (optAllErrors options); simpl.
    + apply within_setLeft, within_push; assumption.
    + split; [|reflexivity]. apply keysWithin_snoc; [apply Hst | exact Hk].
  - apply within_setOutput; [apply within_push|]; assumption.
  - apply within_setOutput; assumption.
Qed.

Lemma propertyBody_within (ps : PropertySignature AST) (parser : Parser)
  (st : RecordState) :
  stateWithin A st -> A (ps_name ps) ->
  loopWithin A (RecordParser.propertyBody input options ps parser st).
Proof.
  intros Hst Hk. unfold RecordParser.propertyBody.
  destruct (negb (hasOwnProperty input (ps_name ps))).
  - destruct (ps_isOptional ps); [apply within_expect; exact Hst|].
    destruct (optAllErrors options); simpl.
    + apply within_setLeft, within_push; [apply within_expect|]; assumption.
    + split; [|reflexivity].
      intros e [<- | []]. exists (ps_name ps), [PE.missing]. split; [reflexivity | exact Hk].
  - apply (@within_parsed _ (ps_name ps) (RecordParser.expect (ps_name ps) st));
      [apply within_expect|]; assumption.
Qed.

Lemma forProperties_within (todo : list (PropertySignature AST * Parser)) :
  forall st,
    stateWithin A st ->
    (forall q, In q todo -> A (ps_name (fst q))) ->
    loopWithin A (RecordParser.forProperties input options todo st).
Proof.
  induction todo as [|[ps parser] todo IH]; intros st Hst Hnames; simpl.
  - exact Hst.
  - pose proof (@propertyBody_within ps parser st Hst (Hnames (ps, parser) (or_introl eq_refl)))
      as Hbody.
    destruct (RecordParser.propertyBody input options ps parser st) as [t|st1].
    + exact Hbody.
    + apply IH; [exact Hbody|]. intros q Hq. apply Hnames. right. exact Hq.
Qed.

Lemma indexValue_within (type : Parser) (key : PropertyKey) (st : RecordState) :
  stateWithin A st -> A key ->
  loopWithin A (RecordParser.indexValue input options type key st).
Proof. intros Hst Hk. apply (@within_parsed _ key st); assumption. Qed.

Lemma indexBody_within (parameter type : Parser) (key : PropertyKey) (st : RecordState) :
  stateWithin A st -> A key ->
  loopWithin A (RecordParser.indexBody input options parameter type key st).
Proof.
  intros Hst Hk. unfold RecordParser.indexBody.
  destruct (parameter (keyValue key) options) as [es|es a|a].
  - destruct (optAllErrors options); simpl.
    + apply within_setLeft, within_push; assumption.
    + split; [|reflexivity]. apply keysWithin_snoc; [apply Hst | exact Hk].
  - apply indexValue_within; [apply within_push|]; assumption.
  - apply indexValue_within; assumption.
Qed.

Lemma forKeys_within (parameter type : Parser) (keys : list PropertyKey) :
  forall st,
    stateWithin A st ->
    (forall k, In k keys -> A k) ->
    loopWithin A (RecordParser.forKeys input options parameter type keys st).
Proof.
  induction keys as [|key keys IH]; intros st Hst Hkeys; simpl.
  - exact Hst.
  - pose proof (@indexBody_within parameter type key st Hst (Hkeys key (or_introl eq_refl)))
      as Hbody.
    destruct (RecordParser.indexBody input options parameter type key st) as [t|st1].
    + exact Hbody.
    + apply IH; [exact Hbody|]. intros k Hk. apply Hkeys. right. exact Hk.
Qed.

Lemma forIndexSignatures_within (todo : list (IndexSignature AST * (Parser * Parser))) :
  forall st,
    stateWithin A st ->
    (forall q k, In q todo ->
       In k (I.getKeysForIndexSignature input (is_parameter (fst q))) -> A k) ->
    loopWithin A (RecordParser.forIndexSignatures input options todo st).
Proof.
  induction todo as [|[sig [parameter type]] todo IH]; intros st Hst Hkeys; simpl.
  - exact Hst.
  - pose proof (@forKeys_within parameter type
                  (I.getKeysForIndexSignature input (is_parameter sig)) st Hst
                  (fun k Hk => Hkeys (sig, (parameter, type)) k (or_introl eq_refl) Hk))
      as Hbody.
    destruct (RecordParser.forKeys input options parameter type
                (I.getKeysForIndexSignature input (is_parameter sig)) st) as [t|st1].
    + exact Hbody.
    + apply IH; [exact Hbody|]. intros q k Hq. apply Hkeys. right. exact Hq.
Qed.

Lemma computeOutput_within (st : RecordState) :
  stateWithin A st ->
  keysWithin A (PE.errorsOf (RecordParser.computeOutput st))
  /\ (forall a, PE.valueOf (RecordParser.computeOutput st) = Some a ->
        a = VObject (o_own (r_output st))).
Proof.
  intros [Hes Hout]. unfold RecordParser.computeOutput.
  destruct (r_es st) as [|e es] eqn:Heq; simpl.
  - split; [intros e []|]. intros a Ha. injection Ha as <-. reflexivity.
  - destruct (r_isLeft st); simpl; (split; [exact Hes|]); intros a Ha;
      [discriminate | injection Ha as <-; reflexivity].
Qed.

End KeysWithin.

(** C9.  For a [TypeLiteral] node with at least one index signature and
    an object input, a key that is the name of no property signature
    and that is among the keys of no index signature's key kind is
    ignored, whatever the options: no diagnostic [Key(key, ...)] (so no
    [Unexpected] for it) is in the result, and the output object, when
    there is one, does not have the key. *)
Theorem typeLiteral_index_signatures_ignore (as_ : Direction)
  (propertySignatures : list (PropertySignature AST))
  (indexSignatures : list (IndexSignature AST))
  (props : list (PropertyKey * value)) (options : option ParseOptions)
  (key : PropertyKey) :
  indexSignatures <> [] ->
  In key (I.ownKeys props) ->
  ~ In key (map (@ps_name AST) propertySignatures) ->
  (forall sig, In sig indexSignatures ->
     ~ In key (I.getKeysForIndexSignature props (is_parameter sig))) ->
  let r := go env as_ (TypeLiteral propertySignatures indexSignatures)
             (VObject props) options in
  (forall errs, ~ In (PE.Key key errs) (PE.errorsOf r))
  /\ (forall a, PE.valueOf r = Some a ->
        exists output, a = VObject output /\ hasOwnProperty output key = false).
Proof.
  intros Hsigs _ Hundeclared Hkind r.
  set (A := fun k : PropertyKey => k <> key).
  assert (Hfinish : forall t : ParseResult,
             keysWithin A (PE.errorsOf t) ->
             (forall a, PE.valueOf t = Some a ->
                exists output, a = VObject output
                               /\ forall k, hasOwnProperty output k = true -> A k) ->
             (forall errs, ~ In (PE.Key key errs) (PE.errorsOf t))
             /\ (forall a, PE.valueOf t = Some a ->
                   exists output, a = VObject output /\ hasOwnProperty output key = false)).
  { intros t Hkeys Hvalue. split.
    - intros errs Hin. destruct (Hkeys _ Hin) as [k [errs' [Heq Hk]]].
      injection Heq as <- _. apply Hk. reflexivity.
    - intros a Ha. destruct (Hvalue a Ha) as [output [-> Hout]].
      exists output. split; [reflexivity|].
      destruct (hasOwnProperty output key) eqn:Hhas; [|reflexivity].
      exfalso. apply (Hout key Hhas). reflexivity. }
  assert (Hreturn : forall t : ParseResult,
             keysWithin A (PE.errorsOf t) /\ PE.isFailure t = true ->
             (forall errs, ~ In (PE.Key key errs) (PE.errorsOf t))
             /\ (forall a, PE.valueOf t = Some a ->
                   exists output, a = VObject output /\ hasOwnProperty output key = false)).
  { intros t [Hkeys Hfail]. apply Hfinish; [exact Hkeys|].
    intros a Ha. destruct t; discriminate. }
  unfold r. simpl. unfold RecordParser.parse.
  rewrite (@fast_path_not_taken _ _ _ _ _ _ (or_intror Hsigs)).
  set (parsers := map (fun f => go env as_ (ps_type f)) propertySignatures).
  set (sigParsers := map (fun s => (go env as_ (is_parameter s), go env as_ (is_type s)))
                       indexSignatures).
  unfold RecordParser.parseObject.
  assert (Hinit : stateWithin A RecordParser.initial).
  { split; [intros e [] | intros k Hk; discriminate]. }
  assert (Hnames : forall q, In q (combine propertySignatures parsers) ->
                     A (ps_name (fst q))).
  { intros [ps parser] Hq Heq. apply Hundeclared.
    simpl in Heq. subst key. apply in_map. apply (in_combine_l _ _ _ _ Hq). }
  pose proof (@forProperties_within A props options _ _ Hinit Hnames) as Hprops.
  destruct (RecordParser.forProperties props options
              (combine propertySignatures parsers) RecordParser.initial) as [t|st1].
  - apply Hreturn. exact Hprops.
  - unfold RecordParser.afterProperties.
    assert (Hlen : (0 <? List.length sigParsers) = true).
    { unfold sigParsers. rewrite length_map.
      destruct indexSignatures; [congruence | reflexivity]. }
    rewrite Hlen.
    assert (Hkeys : forall q k, In q (combine indexSignatures sigParsers) ->
                      In k (I.getKeysForIndexSignature props (is_parameter (fst q))) ->
                      A k).
    { intros [sig ps] k Hq Hk Heq. subst k.
      apply (Hkind sig); [apply (in_combine_l _ _ _ _ Hq) | exact Hk]. }
    pose proof (@forIndexSignatures_within A props options _ _ Hprops Hkeys) as Hsig.
    destruct (RecordParser.forIndexSignatures props options
                (combine indexSignatures sigParsers) st1) as [t|st2].
    + apply Hreturn. exact Hsig.
    + destruct (computeOutput_within Hsig) as [Hes Hvalue].
      apply Hfinish; [exact Hes|].
      intros a Ha. exists (o_own (r_output st2)). split; [apply Hvalue; exact Ha | apply Hsig].
Qed.

End Properties.

(* ================================================================= *)
(** * The properties on concrete schemas *)

Import Examples.

(* ----------------------------------------------------------------- *)
(** ** The scenarios of the specification *)

(** [[string, ...number[], boolean]] *)
Example scenario_tuple_with_rest :
  let schema :=
    Tuple [Host.element StringKeyword] (Some (NumberKeyword, [BooleanKeyword])) true in
  Host.decode schema
    (VArray [VString "x"; VNumber 1; VNumber 2; VNumber 3; VBoolean true]) None
  = PE.Success (VArray [VString "x"; VNumber 1; VNumber 2; VNumber 3; VBoolean true])
  /\ Host.decode schema (VArray [VString "x"; VBoolean true]) None
     = PE.Success (VArray [VString "x"; VBoolean true])
  /\ Host.decode schema (VArray [VString "x"; VNumber 1]) None
     = PE.Failure [PE.Index 1 [PE.Type_ BooleanKeyword (VNumber 1)]].
Proof. repeat split. Qed.

(** [{ id: string, name?: string, [k: string]: unknown }] *)
Example scenario_record_with_index_signature :
  let schema :=
    TypeLiteral [Host.property "id" StringKeyword;
                 Host.optionalProperty "name" StringKeyword]
      [AST.indexSignature StringKeyword UnknownKeyword true] in
  Host.decode schema (VObject [(KString "id", VString "a"); (KString "extra", VNumber 7)])
    None
  = PE.Success (VObject [(KString "id", VString "a"); (KString "extra", VNumber 7)])
  /\ Host.decode schema (VObject [(KString "name", VString "n")]) None
     = PE.Failure [PE.Key (KString "id") [PE.Missing]].
Proof. repeat split. Qed.

(* ----------------------------------------------------------------- *)
(** ** Short-circuit without [allErrors] *)

(** C1.  Without [allErrors], a missing required element or key ends the
    parse with [Failure] of that single error: the warning collected at
    the position before it is not in the error list.  An invalid element
    or key at the same place ends the parse with the warning followed by
    the fatal error. *)
Theorem missing_drops_collected_warnings :
  Host.decode emptyThenString (VArray [VArray [VNumber 1]]) (Host.opts true false)
  = PE.Failure [PE.Index 1 [PE.Missing]]
  /\ Host.decode emptyThenString (VArray [VArray [VNumber 1]; VNumber 2])
       (Host.opts true false)
     = PE.Failure [PE.Index 0 [PE.Index 0 [PE.Unexpected (VNumber 1)]];
                   PE.Index 1 [PE.Type_ StringKeyword (VNumber 2)]]
  /\ Host.decode recordEmptyThenString
       (VObject [(KString "a", VArray [VNumber 1])]) (Host.opts true false)
     = PE.Failure [PE.Key (KString "b") [PE.Missing]]
  /\ Host.decode recordEmptyThenString
       (VObject [(KString "a", VArray [VNumber 1]); (KString "b", VNumber 2)])
       (Host.opts true false)
     = PE.Failure [PE.Key (KString "a") [PE.Index 0 [PE.Unexpected (VNumber 1)]];
                   PE.Key (KString "b") [PE.Type_ StringKeyword (VNumber 2)]].
Proof. repeat split. Qed.

(* ----------------------------------------------------------------- *)
(** ** Guard and decoder at a [Transform] *)

(** The guard and the decoder disagree on the string ["true"] at a
    transform from strings to booleans: decoding succeeds, the guard tests
    the target side and rejects the string. *)
Lemma guard_differs_from_decoder_at_transform :
  ~ (Host.is_ booleanFromString (VString "true") None = true
     <-> PE.isFailure (Host.decode booleanFromString (VString "true") None) = false).
Proof.
  intros [_ H].
  assert (Hguard : Host.is_ booleanFromString (VString "true") None = false)
    by reflexivity.
  rewrite Hguard in H. discriminate H. reflexivity.
Qed.

(** The equivalence at the tuple [[string]] and the input [["x"]]. *)
Lemma is_iff_decode_transformFree_witness :
  transformFree oneString = true
  /\ (is_ Host.env oneString (VArray [VString "x"]) None = true
      <-> PE.isFailure (decode Host.env oneString (VArray [VString "x"]) None) = false).
Proof.
  split; [reflexivity|].
  apply (is_iff_decode_transformFree Host.env oneString (VArray [VString "x"]) None).
  reflexivity.
Defined.

(* ----------------------------------------------------------------- *)
(** ** The post-rest tail *)

(** C3.  With a post-rest tail of three elements and an input made of
    exactly three strings, the third tail element is looked up at index 3
    and reported missing, where the last position of the input is index
    2. *)
Theorem post_rest_third_element_misplaced :
  Host.decode restThenThreeStrings (VArray [VString "a"; VString "b"; VString "c"]) None
  = PE.Failure [PE.Index 3 [PE.Missing]].
Proof. reflexivity. Qed.



(* ----------------------------------------------------------------- *)
(** ** Union *)

(** The selection among three branches that all warn on [{a: 1, b: 2, c: 3}]
    when unexpected keys are allowed: [{a}] has two unexpected keys,
    [{a, b}] and [{a, c}] have one each, and the first of these two is
    the result. *)
Lemma union_branch_selection_witness :
  go Host.env decoder (Union [onlyA; withB; withC]) abc (Host.opts true false)
  = PE.Warning [PE.Key (KString "c") [PE.Unexpected (VNumber 3)]]
      (VObject [(KString "a", VNumber 1); (KString "b", VNumber 2)]).
Proof.
  apply (proj1 (proj2 (union_branch_selection Host.env decoder [onlyA; withB; withC]
                         abc (Host.opts true false)))) with (k := 1) (n := 1).
  - intros b [H | [H | [H | []]]]; discriminate H.
  - reflexivity.
  - exact (unexpectedDiagnostics_count
             [PE.Key (KString "c") [PE.Unexpected (VNumber 3)]]).
  - intros j es' a' n' H Hn'.
    apply unexpectedDiagnostics_unique in Hn'. subst n'.
    destruct j as [|[|[|j]]]; simpl in H.
    + injection H as <- <-. cbv. lia.
    + injection H as <- <-. cbv. lia.
    + injection H as <- <-. cbv. lia.
    + destruct j; discriminate H.
  - intros j es' a' n' Hj H Hn'.
    apply unexpectedDiagnostics_unique in Hn'. subst n'.
    destruct j as [|j]; [|lia].
    simpl in H. injection H as <- <-. cbv. lia.
Defined.

(** With [isUnexpectedAllowed = false] the result of the scenario is not
    the warning of branch [b]. *)
Lemma union_scenario_is_not_a_warning :
  Host.decode kindUnion kindBExtra (Host.opts false true)
  <> PE.Warning [PE.Key (KString "extra") [PE.Unexpected (VNumber 1)]]
       (VObject [(KString "kind", VString "b"); (KString "y", VNumber 3)]).
Proof. discriminate. Qed.

(** C6 (as amended).  Decoding [{kind: "a", x: number} | {kind: "b", y:
    number}] on [{kind: "b", y: 3, extra: 1}] with [allErrors] returns,
    when [isUnexpectedAllowed] is [false], the [Failure] of the two
    branches' errors, each list wrapped in [Member]; when
    [isUnexpectedAllowed] is [true] it returns
    [Warning([Key("extra", [Unexpected(1)])], {kind: "b", y: 3})], the
    result of branch [b]. *)
Theorem union_scenario :
  Host.decode kindUnion kindBExtra (Host.opts false true)
  = PE.Failure
      [PE.Member [PE.Key (KString "kind") [PE.Equal (VString "a") (VString "b")];
                  PE.Key (KString "x") [PE.Missing];
                  PE.Key (KString "y") [PE.Unexpected (VNumber 3)];
                  PE.Key (KString "extra") [PE.Unexpected (VNumber 1)]];
       PE.Member [PE.Key (KString "extra") [PE.Unexpected (VNumber 1)]]]
  /\ Host.decode kindUnion kindBExtra (Host.opts true true)
     = PE.Warning [PE.Key (KString "extra") [PE.Unexpected (VNumber 1)]]
         (VObject [(KString "kind", VString "b"); (KString "y", VNumber 3)])
  /\ Host.decode kindB kindBExtra (Host.opts true true)
     = Host.decode kindUnion kindBExtra (Host.opts true true).
Proof. repeat split. Qed.

(* ----------------------------------------------------------------- *)
(** ** TypeLiteral *)

(** The empty type literal [{}] accepts the number [1], which is not an
    object. *)
Lemma typeLiteral_empty_accepts_non_objects :
  ~ (typeofObject (VNumber 1) = false \/ VNumber 1 = VNull ->
     Host.decode emptyRecord (VNumber 1) None
     = PE.Failure [PE.Type_ unknownRecord (VNumber 1)]).
Proof.
  intros H.
  assert (Hparse : Host.decode emptyRecord (VNumber 1) None = PE.Success (VNumber 1))
    by reflexivity.
  rewrite Hparse in H. discriminate H. left. reflexivity.
Qed.

(** [{ a: string }] rejects the number [1], and reports the key [b] of
    [{a: "x", b: 1}]. *)
Lemma typeLiteral_unexpected_keys_witness :
  go Host.env decoder recordA (VNumber 1) None
  = PE.Failure [PE.Type_ unknownRecord (VNumber 1)]
  /\ In (PE.Key (KString "b") [PE.Unexpected (VNumber 1)])
       (PE.errorsOf
          (go Host.env decoder recordA
             (VObject [(KString "a", VString "x"); (KString "b", VNumber 1)])
             (Host.opts false true))).
Proof.
  assert (Hnonempty : [Host.property "a" StringKeyword] <> []
                      \/ @nil (IndexSignature AST) <> []) by (left; discriminate).
  pose proof (typeLiteral_unexpected_keys Host.env decoder (Host.opts false true)
                Hnonempty) as Hfalse.
  pose proof (typeLiteral_unexpected_keys Host.env decoder None Hnonempty) as Hnone.
  split.
  - apply (proj1 Hnone). left. reflexivity.
  - apply (proj1 (proj2 Hfalse eq_refl
                    [(KString "a", VString "x"); (KString "b", VNumber 1)]
                    (KString "b") (or_intror (or_introl eq_refl))
                    (fun H => match H with
                              | or_introl Heq => ltac:(discriminate Heq)
                              | or_intror Hnil => Hnil
                              end))).
    left. reflexivity.
Defined.

(** [{ [k: symbol]: unknown }] ignores the string key [a] of [{a: 1}]. *)
Lemma typeLiteral_index_signatures_ignore_witness :
  (forall errs,
      ~ In (PE.Key (KString "a") errs)
          (PE.errorsOf (go Host.env decoder symbolRecord
                          (VObject [(KString "a", VNumber 1)]) None)))
  /\ (forall a,
        PE.valueOf (go Host.env decoder symbolRecord
                      (VObject [(KString "a", VNumber 1)]) None) = Some a ->
        exists output, a = VObject output /\ hasOwnProperty output (KString "a") = false).
Proof.
  apply (@typeLiteral_index_signatures_ignore Host.env decoder []
           [AST.indexSignature SymbolKeyword UnknownKeyword true]
           [(KString "a", VNumber 1)] None (KString "a")).
  - discriminate.
  - left. reflexivity.
  - intros [].
  - intros sig [<- | []] [].
Defined.

(* ----------------------------------------------------------------- *)
(** ** BigInt *)

(** ["12"] is coerced, ["x"] makes the coercion throw, [null] is of the
    wrong kind. *)
Lemma bigint_keyword_witness :
  go Host.env decoder BigIntKeyword (VString "12") None = PE.Success (VBigInt 12)
  /\ go Host.env decoder BigIntKeyword (VString "x") None
     = PE.Failure [PE.Transform primitive BigIntKeyword (VString "x")]
  /\ go Host.env decoder BigIntKeyword VNull None
     = PE.Failure [PE.Type_ primitive VNull].
Proof.
  split; [|split].
  - apply (proj1 (proj1 (proj2 (proj2 (bigint_keyword Host.env decoder (VString "12") None)))
                    eq_refl) 12%Z).
    reflexivity.
  - apply (proj2 (proj1 (proj2 (proj2 (bigint_keyword Host.env decoder (VString "x") None)))
                    eq_refl)).
    reflexivity.
  - apply (proj2 (proj2 (proj2 (bigint_keyword Host.env decoder VNull None)))); reflexivity.
Defined.

(* ----------------------------------------------------------------- *)
(** ** Unexpected indexes *)

(** C10 as it was stated fails when an element rejects its position:
    [[string]] on [[1, 2]] is longer than the tuple and unexpected
    indexes are allowed, yet the result is the [Failure] of the first
    position, not a [Warning] about the second. *)
Lemma tuple_unexpected_allowed_needs_valid_elements :
  optIsUnexpectedAllowed (Host.opts true false) = true
  /\ List.length [Host.element StringKeyword] < List.length [VNumber 1; VNumber 2]
  /\ Host.decode oneString (VArray [VNumber 1; VNumber 2]) (Host.opts true false)
     = PE.Failure [PE.Index 0 [PE.Type_ StringKeyword (VNumber 1)]]
  /\ PE.hasWarnings
       (Host.decode oneString (VArray [VNumber 1; VNumber 2]) (Host.opts true false))
     = false
  /\ Host.decode oneString (VArray [VNumber 1; VNumber 2]) (Host.opts true true)
     = PE.Failure [PE.Index 0 [PE.Type_ StringKeyword (VNumber 1)];
                   PE.Index 1 [PE.Unexpected (VNumber 2)]].
Proof. repeat split. apply le_n. Qed.

(** [[string]] on [["x", 1]] with unexpected indexes allowed. *)
Lemma tuple_unexpected_allowed_witness :
  exists es output,
    go Host.env decoder oneString (VArray [VString "x"; VNumber 1]) (Host.opts true false)
    = PE.Warning es (VArray output)
    /\ List.length output = 1
    /\ (forall i e, nth_error [Host.element StringKeyword] i = Some e ->
          nth_error output i
          = PE.valueOf (go Host.env decoder (e_type e)
                          (nth i [VString "x"; VNumber 1] VUndefined)
                          (Host.opts true false)))
    /\ (forall i, 1 <= i < 2 ->
          In (PE.Index i [PE.Unexpected (nth i [VString "x"; VNumber 1] VUndefined)]) es).
Proof.
  apply (tuple_unexpected_allowed Host.env decoder [Host.element StringKeyword] true
           [VString "x"; VNumber 1] (Host.opts true false)).
  - reflexivity.
  - apply le_n.
  - intros i e H. destruct i as [|i]; simpl in H.
    + injection H as <-. reflexivity.
    + destruct i; discriminate H.
Defined.

(* ================================================================= *)
(** * Further properties of the interpreter *)

Section Directions.
Variable env : Environment.
Variables as1 as2 : Direction.

Lemma map_go_directions (B : Type) (g : B -> AST) (l : list B) :
  Forall (fun a => transformFree a = true -> go env as1 a = go env as2 a) (map g l) ->
  forallb (fun b => transformFree (g b)) l = true ->
  map (fun b => go env as1 (g b)) l = map (fun b => go env as2 (g b)) l.
Proof.
  induction l as [|b l IH]; simpl; intros HF Hb.
  - reflexivity.
  - apply andb_true_iff in Hb. destruct Hb as [Hb Hl].
    inversion HF as [|x xs Hx Hxs]; subst.
    rewrite (Hx Hb), (IH Hxs Hl). reflexivity.
Qed.

(** The direction is looked at in the [Transform] case only: on an AST
    without that node every direction compiles to the same parser. *)
Lemma go_directions (ast : AST) :
  transformFree ast = true -> go env as1 ast = go env as2 ast.
Proof.
  induction ast as [ast IH] using AST_children_ind.
  destruct ast; simpl in *; intros Hfree; try reflexivity.
  - (* TypeAlias *)
    apply andb_true_iff in Hfree. destruct Hfree as [Ht Hps].
    inversion IH as [|x xs Hx Hxs]; subst.
    destruct (getHook env (TypeAlias typeParameters ast)).
    + f_equal.
      change (map (fun b => go env as1 (id b)) typeParameters
              = map (fun b => go env as2 (id b)) typeParameters).
      apply map_go_directions; [rewrite map_id; assumption | exact Hps].
    + exact (Hx Ht).
  - (* Tuple *)
    apply andb_true_iff in Hfree. destruct Hfree as [Hels Hrest].
    apply Forall_app in IH. destruct IH as [IHels IHrest].
    f_equal.
    + apply map_go_directions; assumption.
    + destruct rest as [[head tail]|]; [|reflexivity].
      apply andb_true_iff in Hrest. destruct Hrest as [Hh Ht].
      inversion IHrest as [|x xs Hx Hxs]; subst.
      rewrite (Hx Hh). do 2 f_equal.
      change (map (fun b => go env as1 (id b)) tail
              = map (fun b => go env as2 (id b)) tail).
      apply map_go_directions; [rewrite map_id; assumption | exact Ht].
  - (* TypeLiteral *)
    apply andb_true_iff in Hfree. destruct Hfree as [Hps His].
    apply Forall_app in IH. destruct IH as [IHps IHis].
    apply Forall_app in IHis. destruct IHis as [IHpar IHty].
    f_equal.
    + apply map_go_directions; assumption.
    + clear - IHpar IHty His.
      induction indexSignatures as [|s l IHl]; simpl in *; [reflexivity|].
      apply andb_true_iff in His. destruct His as [Hs Hl].
      apply andb_true_iff in Hs. destruct Hs as [Hp Ht].
      inversion IHpar as [|x xs Hx Hxs]; subst.
      inversion IHty as [|y ys Hy Hys]; subst.
      rewrite (Hx Hp), (Hy Ht), (IHl Hxs Hys Hl). reflexivity.
  - (* Union *)
    f_equal.
    change (map (fun b => go env as1 (id b)) types
            = map (fun b => go env as2 (id b)) types).
    apply map_go_directions; [rewrite map_id; assumption | exact Hfree].
  - (* Lazy *)
    inversion IH as [|x xs Hx Hxs]; subst.
    rewrite (Hx Hfree). reflexivity.
  - (* Refinement *)
    inversion IH as [|x xs Hx Hxs]; subst.
    rewrite (Hx Hfree). reflexivity.
  - (* Transform *)
    discriminate.
Qed.

End Directions.

Section Further.
Variable env : Environment.

(* ----------------------------------------------------------------- *)
(** ** Encoding without transforms *)

(** X1.  On a schema without a [Transform] node, [encode] is [decode]: for
    every value and all options the encoder returns the result of the
    decoder. *)
Theorem encode_is_decode_transformFree (schema : AST) (a : value)
  (options : option ParseOptions) :
  transformFree schema = true ->
  encode env schema a options = decode env schema a options.
Proof.
  intros Hfree. unfold encode, decode, parserFor.
  rewrite (@go_directions env encoder decoder schema Hfree). reflexivity.
Qed.

(* ----------------------------------------------------------------- *)
(** ** The throwing variants *)

Section ThrowingFacts.
Variable formatErrors : list ParseError -> string.

(** X2.  On a schema without a [Transform] node the three throwing
    variants go together: [encodeOrThrow] does what [decodeOrThrow]
    does, and [asserts] throws exactly when [decodeOrThrow] throws, with
    the same message.  Whatever the schema, [asserts] returns exactly when
    [is] holds, and [decodeOrThrow] returns the value of a [Warning] as it
    returns the value of a [Success]. *)
Theorem throwing_variants (schema : AST) (u : value) (options : option ParseOptions) :
  (asserts env formatErrors schema u options = Returns tt
   <-> is_ env schema u options = true)
  /\ (forall a, decodeOrThrow env formatErrors schema u options = Returns a
                <-> PE.valueOf (decode env schema u options) = Some a)
  /\ (transformFree schema = true ->
      encodeOrThrow env formatErrors schema u options
      = decodeOrThrow env formatErrors schema u options
      /\ forall message,
           asserts env formatErrors schema u options = Throws message
           <-> decodeOrThrow env formatErrors schema u options = Throws message).
Proof.
  split; [|split].
  - unfold asserts, is_.
    destruct (parserFor env schema guard u options); simpl; split; intros H;
      try reflexivity; discriminate.
  - intros a. unfold decodeOrThrow, decode.
    destruct (parserFor env schema decoder u options); simpl; split; intros H;
      try discriminate; injection H as <-; reflexivity.
  - intros Hfree. unfold encodeOrThrow, decodeOrThrow, asserts, parserFor.
    rewrite (@go_directions env encoder decoder schema Hfree).
    rewrite (@go_directions env guard decoder schema Hfree).
    split; [reflexivity|].
    intros message.
    destruct (go env decoder schema u options); split; intros H;
      try discriminate; injection H as <-; reflexivity.
Qed.

End ThrowingFacts.

(* ----------------------------------------------------------------- *)
(** ** What a union accepts *)

Lemma forTypes_fails (u : value) (options : option ParseOptions) (ps : list Parser) :
  forall st,
    PE.isFailure
      match UnionParser.forTypes u options ps st with
      | Return t => t
      | Next st' => UnionParser.computeOutput u st'
      end
    = match u_output st with
      | Some _ => false
      | None => forallb (fun p : Parser => PE.isFailure (p u options)) ps
      end.
Proof.
  induction ps as [|p ps IH]; intros st; simpl.
  - unfold UnionParser.computeOutput.
    destruct (u_output st) as [[oleft oright]|]; [reflexivity|].
    destruct (I.isNonEmpty (u_es st)); reflexivity.
  - unfold UnionParser.memberBody.
    destruct (p u options) as [es|es a|a]; simpl.
    + rewrite IH. reflexivity.
    + destruct (u_output st) as [[oleft oright]|] eqn:Hout.
      * destruct (UnionParser.unexpectedCount es <? UnionParser.unexpectedCount oleft);
          rewrite IH; simpl; [reflexivity|].
        rewrite Hout. reflexivity.
      * rewrite IH. reflexivity.
    + destruct (u_output st); reflexivity.
Qed.

(** X3.  A [Union] fails exactly when every branch fails; so the guard of
    a union holds exactly when the guard of one of its branches holds. *)
Theorem union_accepts_iff_a_branch_accepts (types : list AST) (u : value)
  (options : option ParseOptions) :
  (forall as_,
      PE.isFailure (go env as_ (Union types) u options)
      = forallb (fun t => PE.isFailure (go env as_ t u options)) types)
  /\ is_ env (Union types) u options = existsb (fun t => is_ env t u options) types.
Proof.
  assert (Hfail : forall as_,
             PE.isFailure (go env as_ (Union types) u options)
             = forallb (fun t => PE.isFailure (go env as_ t u options)) types).
  { intros as_. simpl. unfold UnionParser.parse.
    rewrite forTypes_fails. simpl.
    induction types as [|t types IH]; simpl; [reflexivity|].
    rewrite IH. reflexivity. }
  split; [exact Hfail|].
  unfold is_, parserFor. rewrite Hfail. clear Hfail.
  induction types as [|t types IH]; simpl; [reflexivity|].
  rewrite negb_andb, IH. reflexivity.
Qed.

(* ----------------------------------------------------------------- *)
(** ** Tuple: runs that can only fail *)

Section TupleDoom.
Variable input : list value.
Variable options : option ParseOptions.

Lemma doomedState_push (e : ParseError) (st : TupleState) :
  doomedState st -> doomedState (TupleParser.push e st).
Proof.
  intros [Hleft Hes]. split; [exact Hleft|]. simpl. apply isNonEmpty_snoc.
Qed.

Lemma doomedState_pushOutput (a : value) (st : TupleState) :
  doomedState st -> doomedState (TupleParser.pushOutput a st).
Proof. intros H. exact H. Qed.

Lemma doomedState_setIndex (i : nat) (st : TupleState) :
  doomedState st -> doomedState (TupleParser.setIndex i st).
Proof. intros H. exact H. Qed.

Lemma doomedState_fatal (e : ParseError) (st : TupleState) :
  doomedState (TupleParser.setLeft (TupleParser.push e st)).
Proof. split; [reflexivity|]. simpl. apply isNonEmpty_snoc. Qed.

(** A present position, parsed: what the three loops share. *)
Lemma parsed_doomed (parser : Parser) (st : TupleState) :
  Walk.isFatal (Walk.parsed input options (t_i st) parser) = true \/ doomedState st ->
  doomed
    match parser (TupleParser.at_ input (t_i st)) options with
    | PE.Failure left_ =>
        let e := PE.index (t_i st) left_ in
        if optAllErrors options then Next (TupleParser.setLeft (TupleParser.push e st))
        else Return (PE.failures (I.mutableAppend (t_es st) e))
    | PE.Warning left_ right_ =>
        Next (TupleParser.pushOutput right_
                (TupleParser.push (PE.index (t_i st) left_) st))
    | PE.Success right_ => Next (TupleParser.pushOutput right_ st)
    end.
Proof.
  unfold Walk.parsed, TupleParser.at_.
  destruct (parser (nth (t_i st) input VUndefined) options) as [es|es a|a]; simpl.
  - intros _. destruct (optAllErrors options); simpl;
      [apply doomedState_fatal | reflexivity].
  - intros [H | H]; [discriminate|].
    apply doomedState_pushOutput, doomedState_push. exact H.
  - intros [H | H]; [discriminate|]. apply doomedState_pushOutput. exact H.
Qed.

Lemma elementBody_doomed (e : Element AST) (parser : Parser) (st : TupleState) :
  Walk.isFatal (Walk.element input options (t_i st) e parser) = true \/ doomedState st ->
  doomed (TupleParser.elementBody input options e parser st).
Proof.
  unfold TupleParser.elementBody, Walk.element.
  rewrite absent_iff_not_present.
  destruct (Walk.present input (t_i st)); simpl.
  - apply parsed_doomed.
  - destruct (e_isOptional e); simpl.
    + intros [H | H]; [discriminate | exact H].
    + intros _. destruct (optAllErrors options); simpl;
        [apply doomedState_fatal | reflexivity].
Qed.

Lemma forElements_doomed (todo : list (Element AST * Parser)) :
  forall st,
    existsb Walk.isFatal (Walk.elements input options (t_i st) todo) = true
    \/ doomedState st ->
    doomed (TupleParser.forElements input options todo st).
Proof.
  induction todo as [|[e parser] todo IH]; intros st Hdoom; simpl.
  - destruct Hdoom as [H | H]; [discriminate | exact H].
  - destruct (Walk.isFatal (Walk.element input options (t_i st) e parser)) eqn:Hhead.
    + pose proof (@elementBody_doomed e parser st (or_introl Hhead)) as Hbody.
      destruct (TupleParser.elementBody input options e parser st) as [t|st1];
        [exact Hbody|].
      apply IH. right. exact Hbody.
    + destruct Hdoom as [Htail | Hst].
      * rewrite (@elementBody_walk input options e parser st (or_intror Hhead)).
        apply IH. left.
        simpl in Htail. rewrite Hhead in Htail. simpl in Htail.
        unfold TupleParser.incr. simpl. rewrite absorb_index. exact Htail.
      * pose proof (@elementBody_doomed e parser st (or_intror Hst)) as Hbody.
        destruct (TupleParser.elementBody input options e parser st) as [t|st1];
          [exact Hbody|].
        apply IH. right. exact Hbody.
Qed.

Lemma unexpectedBody_doomed (st : TupleState) :
  Walk.isFatal (Walk.unexpected input options (t_i st)) = true \/ doomedState st ->
  doomed (TupleParser.unexpectedBody input options st).
Proof.
  unfold TupleParser.unexpectedBody, Walk.unexpected.
  destruct (optIsUnexpectedAllowed options); simpl.
  - intros [H | H]; [discriminate|]. apply doomedState_push. exact H.
  - intros _. destruct (optAllErrors options); simpl;
      [apply doomedState_fatal | reflexivity].
Qed.

Lemma forUnexpected_doomed (n : nat) :
  forall st,
    existsb Walk.isFatal (Walk.unexpectedRegion input options (t_i st) n) = true
    \/ doomedState st ->
    doomed (TupleParser.forUnexpected input options n st).
Proof.
  unfold Walk.unexpectedRegion.
  induction n as [|n IH]; intros st Hdoom; simpl.
  - destruct Hdoom as [H | H]; [discriminate | exact H].
  - destruct (Walk.isFatal (Walk.unexpected input options (t_i st))) eqn:Hhead.
    + pose proof (@unexpectedBody_doomed st (or_introl Hhead)) as Hbody.
      destruct (TupleParser.unexpectedBody input options st) as [t|st1];
        [exact Hbody|].
      apply IH. right. exact Hbody.
    + destruct Hdoom as [Htail | Hst].
      * rewrite (@unexpectedBody_walk input options st (or_intror Hhead)).
        apply IH. left.
        simpl in Htail. rewrite Hhead in Htail. simpl in Htail.
        unfold TupleParser.incr. simpl. rewrite absorb_index.
        replace (t_i st + 1) with (S (t_i st)) by lia. exact Htail.
      * pose proof (@unexpectedBody_doomed st (or_intror Hst)) as Hbody.
        destruct (TupleParser.unexpectedBody input options st) as [t|st1];
          [exact Hbody|].
        apply IH. right. exact Hbody.
Qed.

Lemma forRest_doomed (head : Parser) (n : nat) :
  forall st, doomedState st -> doomed (TupleParser.forRest input options head n st).
Proof.
  induction n as [|n IH]; intros st Hst; simpl.
  - exact Hst.
  - pose proof (@parsed_doomed head st (or_intror Hst)) as Hbody.
    change (doomed (TupleParser.restBody input options head st)) in Hbody.
    destruct (TupleParser.restBody input options head st) as [t|st1]; [exact Hbody|].
    apply IH. exact Hbody.
Qed.

Lemma postRestBody_doomed (parser : Parser) (j : nat) (st : TupleState) :
  doomedState st -> doomed (TupleParser.postRestBody input options parser j st).
Proof.
  intros Hst. unfold TupleParser.postRestBody.
  destruct (List.length input <? t_i (TupleParser.setIndex (t_i st + j) st) + 1);
    [reflexivity|].
  apply (@parsed_doomed parser (TupleParser.setIndex (t_i st + j) st)).
  right. exact Hst.
Qed.

Lemma forPostRest_doomed (todo : list Parser) :
  forall j st,
    doomedState st -> doomed (TupleParser.forPostRest input options todo j st).
Proof.
  induction todo as [|parser todo IH]; intros j st Hst; simpl.
  - exact Hst.
  - pose proof (@postRestBody_doomed parser j st Hst) as Hbody.
    destruct (TupleParser.postRestBody input options parser j st) as [t|st1];
      [exact Hbody|].
    apply IH. exact Hbody.
Qed.

Lemma finish_doomed (l : Loop TupleState) :
  doomed l -> PE.isFailure (finish l) = true.
Proof.
  destruct l as [t|st]; simpl; [tauto|].
  intros [Hleft Hes]. unfold TupleParser.computeOutput. rewrite Hes, Hleft. reflexivity.
Qed.

(** *** Every [return] of the loops is a failure *)

Lemma parsed_return (parser : Parser) (st : TupleState) (t : ParseResult) :
  match parser (TupleParser.at_ input (t_i st)) options with
  | PE.Failure left_ =>
      let e := PE.index (t_i st) left_ in
      if optAllErrors options then Next (TupleParser.setLeft (TupleParser.push e st))
      else Return (PE.failures (I.mutableAppend (t_es st) e))
  | PE.Warning left_ right_ =>
      Next (TupleParser.pushOutput right_
              (TupleParser.push (PE.index (t_i st) left_) st))
  | PE.Success right_ => Next (TupleParser.pushOutput right_ st)
  end = Return t ->
  PE.isFailure t = true.
Proof.
  destruct (parser (TupleParser.at_ input (t_i st)) options); try discriminate.
  simpl. destruct (optAllErrors options); [discriminate|].
  intros H. injection H as <-. reflexivity.
Qed.

Lemma parsed_next (parser : Parser) (st st' : TupleState) :
  match parser (TupleParser.at_ input (t_i st)) options with
  | PE.Failure left_ =>
      let e := PE.index (t_i st) left_ in
      if optAllErrors options then Next (TupleParser.setLeft (TupleParser.push e st))
      else Return (PE.failures (I.mutableAppend (t_es st) e))
  | PE.Warning left_ right_ =>
      Next (TupleParser.pushOutput right_
              (TupleParser.push (PE.index (t_i st) left_) st))
  | PE.Success right_ => Next (TupleParser.pushOutput right_ st)
  end = Next st' ->
  t_i st' = t_i st.
Proof.
  destruct (parser (TupleParser.at_ input (t_i st)) options); simpl.
  - destruct (optAllErrors options); [|discriminate].
    intros H. injection H as <-. reflexivity.
  - intros H. injection H as <-. reflexivity.
  - intros H. injection H as <-. reflexivity.
Qed.

Lemma elementBody_return (e : Element AST) (parser : Parser) (st : TupleState)
  (t : ParseResult) :
  TupleParser.elementBody input options e parser st = Return t ->
  PE.isFailure t = true.
Proof.
  unfold TupleParser.elementBody.
  destruct (List.length input <? t_i st + 1).
  - destruct (e_isOptional e); [discriminate|].
    destruct (optAllErrors options); [discriminate|].
    intros H. injection H as <-. reflexivity.
  - apply parsed_return.
Qed.

Lemma elementBody_next (e : Element AST) (parser : Parser) (st st' : TupleState) :
  TupleParser.elementBody input options e parser st = Next st' ->
  t_i st' = t_i st.
Proof.
  unfold TupleParser.elementBody.
  destruct (List.length input <? t_i st + 1).
  - destruct (e_isOptional e); [intros H; injection H as <-; reflexivity|].
    destruct (optAllErrors options); [|discriminate].
    intros H. injection H as <-. reflexivity.
  - apply parsed_next.
Qed.

Lemma forElements_result (todo : list (Element AST * Parser)) :
  forall st,
    match TupleParser.forElements input options todo st with
    | Return t => PE.isFailure t = true
    | Next st' => t_i st' = t_i st + List.length todo
    end.
Proof.
  induction todo as [|[e parser] todo IH]; intros st; simpl.
  - lia.
  - destruct (TupleParser.elementBody input options e parser st) as [t|st1] eqn:Hbody.
    + apply (elementBody_return _ _ _ Hbody).
    + pose proof (IH (TupleParser.incr st1)) as Hrest.
      destruct (TupleParser.forElements input options todo (TupleParser.incr st1));
        [exact Hrest|].
      rewrite Hrest. simpl. rewrite (elementBody_next _ _ _ Hbody). lia.
Qed.

Lemma forRest_result (head : Parser) (n : nat) :
  forall st,
    match TupleParser.forRest input options head n st with
    | Return t => PE.isFailure t = true
    | Next st' => t_i st' = t_i st + n
    end.
Proof.
  induction n as [|n IH]; intros st; simpl.
  - lia.
  - destruct (TupleParser.restBody input options head st) as [t|st1] eqn:Hbody.
    + apply (parsed_return head st Hbody).
    + pose proof (IH (TupleParser.incr st1)) as Hrest.
      destruct (TupleParser.forRest input options head n (TupleParser.incr st1));
        [exact Hrest|].
      rewrite Hrest. simpl. rewrite (parsed_next head st Hbody). lia.
Qed.

Lemma postRestBody_result (parser : Parser) (j : nat) (st : TupleState) :
  match TupleParser.postRestBody input options parser j st with
  | Return t => PE.isFailure t = true
  | Next st' => t_i st' = t_i st + j /\ t_i st + j < List.length input
  end.
Proof.
  unfold TupleParser.postRestBody.
  destruct (Nat.ltb_spec (List.length input)
              (t_i (TupleParser.setIndex (t_i st + j) st) + 1)) as [Hlt | Hge];
    [reflexivity|].
  simpl in Hge.
  pose proof (@parsed_return parser (TupleParser.setIndex (t_i st + j) st)) as Hreturn.
  pose proof (@parsed_next parser (TupleParser.setIndex (t_i st + j) st)) as Hnext.
  simpl in *.
  destruct (parser (TupleParser.at_ input (t_i st + j)) options) as [es|es a|a]; simpl in *.
  - destruct (optAllErrors options).
    + split; [apply Hnext; reflexivity | lia].
    + apply (Hreturn _ eq_refl).
  - split; [reflexivity | lia].
  - split; [reflexivity | lia].
Qed.

(** The post-rest loop advances the index by [j] at its [j]-th
    iteration: when the sum of what it will add passes the end of the
    input, an element is found missing and the loop returns a failure. *)
Lemma forPostRest_runs_out (todo : list Parser) :
  forall j st,
    todo <> [] ->
    List.length input <= t_i st + j + sumFrom (j + 1) (List.length todo - 1) ->
    doomed (TupleParser.forPostRest input options todo j st).
Proof.
  induction todo as [|parser todo IH]; intros j st Hne Hshort; [congruence|].
  simpl.
  pose proof (postRestBody_result parser j st) as Hbody.
  destruct (TupleParser.postRestBody input options parser j st) as [t|st1];
    [exact Hbody|].
  destruct Hbody as [Hi Hpresent].
  destruct todo as [|q todo].
  - simpl in Hshort. lia.
  - apply IH; [discriminate|].
    simpl in Hshort. simpl.
    rewrite Nat.sub_0_r in *. rewrite Hi. lia.
Qed.

Lemma sumFrom_at_least (n : nat) : forall j, j * n <= sumFrom j n.
Proof.
  induction n as [|n IH]; intros j; simpl; [lia|].
  pose proof (IH (j + 1)). nia.
Qed.

End TupleDoom.

(** X4.  A [Tuple] whose post-rest tail has three elements or more
    accepts no array: whatever the input array and the options, the
    result is a [Failure]. *)
Theorem tuple_long_tail_rejects_every_array (as_ : Direction)
  (elements : list (Element AST)) (head : AST) (tail : list AST)
  (isReadonly : bool) (input : list value) (options : option ParseOptions) :
  3 <= List.length tail ->
  PE.isFailure
    (go env as_ (Tuple elements (Some (head, tail)) isReadonly) (VArray input) options)
  = true.
Proof.
  intros Hlong. simpl. unfold TupleParser.parse, TupleParser.parseArray.
  set (todo := combine elements (map (fun e => go env as_ (e_type e)) elements)).
  pose proof (forElements_result input options todo TupleParser.initial) as Hels.
  destruct (TupleParser.forElements input options todo TupleParser.initial) as [t|st1];
    [exact Hels|].
  unfold TupleParser.afterElements. rewrite length_map.
  pose proof (forRest_result input options (go env as_ head)
                (List.length input - List.length tail - t_i st1) st1) as Hrest.
  destruct (TupleParser.forRest input options (go env as_ head)
              (List.length input - List.length tail - t_i st1) st1) as [t|st2];
    [exact Hrest|].
  apply (@finish_doomed (TupleParser.forPostRest input options
                           (map (go env as_) tail) 0 st2)).
  apply forPostRest_runs_out.
  - destruct tail; [simpl in Hlong; lia | discriminate].
  - rewrite length_map.
    destruct tail as [|a [|b tail]]; simpl in Hlong; try lia.
    simpl List.length in *. simpl.
    pose proof (sumFrom_at_least (List.length tail) 2). lia.
Qed.

(* ----------------------------------------------------------------- *)
(** ** What a tuple without rest accepts *)

Lemma errorsOf_nil_no_fatal (os : list Walk.Outcome) :
  Walk.errorsOf os = [] -> existsb Walk.isFatal os = false.
Proof.
  unfold Walk.errorsOf. induction os as [|o os IH]; simpl; [reflexivity|].
  destruct o; simpl; try discriminate; exact IH.
Qed.

Lemma report_fails (os : list Walk.Outcome) :
  PE.isFailure (Walk.report os) = existsb Walk.isFatal os.
Proof.
  unfold Walk.report.
  destruct (Walk.errorsOf os) as [|e es] eqn:Hes.
  - rewrite (errorsOf_nil_no_fatal os Hes). reflexivity.
  - destruct (existsb Walk.isFatal os); reflexivity.
Qed.

(** Without a rest, the [Tuple] parser fails exactly when a position of
    the walk is fatal. *)
Lemma parseArray_fails (input : list value) (options : option ParseOptions)
  (astElements : list (Element AST)) (parsers : list Parser) :
  PE.isFailure (TupleParser.parseArray input options astElements parsers None)
  = existsb Walk.isFatal (Walk.everyPosition input options astElements parsers None).
Proof.
  destruct (existsb Walk.isFatal
              (Walk.everyPosition input options astElements parsers None)) eqn:Hfatal.
  - unfold Walk.everyPosition, Walk.tuple in Hfatal.
    unfold TupleParser.parseArray.
    set (todo := combine astElements parsers) in *.
    rewrite existsb_app in Hfatal.
    destruct (existsb Walk.isFatal (Walk.elements input options 0 todo)) eqn:HE.
    + pose proof (@forElements_doomed input options todo TupleParser.initial
                    (or_introl HE)) as Hels.
      destruct (TupleParser.forElements input options todo TupleParser.initial)
        as [t|st1]; [exact Hels|].
      apply (@finish_doomed (TupleParser.afterElements input options None st1)).
      apply forUnexpected_doomed. right. exact Hels.
    + simpl in Hfatal.
      rewrite (@forElements_walk input options todo TupleParser.initial (or_intror HE)).
      apply (@finish_doomed
               (TupleParser.afterElements input options None
                  (TupleParser.setIndex (t_i TupleParser.initial + List.length todo)
                     (absorbAll (Walk.elements input options
                                   (t_i TupleParser.initial) todo)
                        TupleParser.initial)))).
      apply forUnexpected_doomed. left. exact Hfatal.
  - rewrite (parseArray_no_fatal _ _ _ _ Hfatal).
    rewrite report_fails. exact Hfatal.
Qed.

Lemma elements_no_fatal_iff (input : list value) (options : option ParseOptions)
  (todo : list (Element AST * Parser)) :
  forall i0,
    existsb Walk.isFatal (Walk.elements input options i0 todo) = false
    <-> forall i e p,
          nth_error todo i = Some (e, p) ->
          (i0 + i < List.length input
           /\ PE.isFailure (p (nth (i0 + i) input VUndefined) options) = false)
          \/ (List.length input <= i0 + i /\ e_isOptional e = true).
Proof.
  induction todo as [|[e p] todo IH]; intros i0; simpl.
  - split; [|reflexivity]. intros _ i e p Hi. destruct i; discriminate.
  - rewrite orb_false_iff, (IH (i0 + 1)). split.
    + intros [Hhead Htail] i e' p' Hi. destruct i as [|i]; simpl in Hi.
      * injection Hi as <- <-. rewrite Nat.add_0_r.
        revert Hhead. unfold Walk.element, Walk.present, Walk.parsed.
        destruct (Nat.ltb_spec i0 (List.length input)) as [Hlt | Hge].
        -- intros Hhead. left. split; [exact Hlt|].
           destruct (p (nth i0 input VUndefined) options); try reflexivity; discriminate.
        -- intros Hhead. right. split; [exact Hge|].
           destruct (e_isOptional e); [reflexivity | discriminate].
      * replace (i0 + S i) with (i0 + 1 + i) by lia. apply (Htail i e' p' Hi).
    + intros Hall. split.
      * specialize (Hall 0 e p eq_refl). rewrite Nat.add_0_r in Hall.
        unfold Walk.element, Walk.present, Walk.parsed.
        destruct (Nat.ltb_spec i0 (List.length input)) as [Hlt | Hge].
        -- destruct Hall as [[_ Hok] | [Hge _]]; [|lia].
           destruct (p (nth i0 input VUndefined) options); try reflexivity; discriminate.
        -- destruct Hall as [[Hlt _] | [_ Hopt]]; [lia|]. rewrite Hopt. reflexivity.
      * intros i e' p' Hi. replace (i0 + 1 + i) with (i0 + S i) by lia.
        apply (Hall (S i) e' p'). exact Hi.
Qed.

Lemma unexpectedRegion_no_fatal_iff (input : list value) (options : option ParseOptions)
  (from n : nat) :
  existsb Walk.isFatal (Walk.unexpectedRegion input options from n) = false
  <-> optIsUnexpectedAllowed options = true \/ n = 0.
Proof.
  unfold Walk.unexpectedRegion. split.
  - destruct n as [|n]; [right; reflexivity|]. simpl.
    unfold Walk.unexpected at 1.
    destruct (optIsUnexpectedAllowed options); [left; reflexivity | discriminate].
  - intros [Hallowed | ->]; [|reflexivity].
    apply (unexpectedRegion_allowed input options from n Hallowed).
Qed.

Lemma nth_error_combine_with_map (B C : Type) (f : B -> C) (l : list B) :
  forall i b, nth_error l i = Some b -> nth_error (combine l (map f l)) i = Some (b, f b).
Proof.
  induction l as [|x l IH]; intros i b Hi; destruct i; simpl in *; try discriminate.
  - injection Hi as ->. reflexivity.
  - apply IH. exact Hi.
Qed.

(** X5.  A [Tuple] without rest accepts an array (the result is not a
    [Failure]) exactly when every element is either present and accepted
    by its parser, or absent and optional, and the array is not longer
    than [elements.length] unless [isUnexpectedAllowed] is set. *)
Theorem tuple_accepts_iff (as_ : Direction) (elements : list (Element AST))
  (isReadonly : bool) (input : list value) (options : option ParseOptions) :
  PE.isFailure (go env as_ (Tuple elements None isReadonly) (VArray input) options) = false
  <-> (forall i e,
         nth_error elements i = Some e ->
         (i < List.length input
          /\ PE.isFailure (go env as_ (e_type e) (nth i input VUndefined) options) = false)
         \/ (List.length input <= i /\ e_isOptional e = true))
      /\ (optIsUnexpectedAllowed options = true
          \/ List.length input <= List.length elements).
Proof.
  simpl. unfold TupleParser.parse. rewrite parseArray_fails.
  unfold Walk.everyPosition, Walk.tuple.
  set (parsers := map (fun e => go env as_ (e_type e)) elements).
  assert (Hlen : List.length (combine elements parsers) = List.length elements).
  { unfold parsers. rewrite length_combine, length_map. lia. }
  rewrite existsb_app, orb_false_iff, elements_no_fatal_iff,
    unexpectedRegion_no_fatal_iff, Hlen.
  split.
  - intros [Hels Hextra]. split.
    + intros i e Hi.
      apply (Hels i e (go env as_ (e_type e))).
      apply nth_error_combine_with_map. exact Hi.
    + destruct Hextra as [H | H]; [left; exact H | right; lia].
  - intros [Hels Hextra]. split.
    + intros i e p Hi. apply nth_error_combine_map in Hi. destruct Hi as [Hi ->].
      apply (Hels i e Hi).
    + destruct Hextra as [H | H]; [left; exact H | right; lia].
Qed.

(* ----------------------------------------------------------------- *)
(** ** TypeLiteral: runs that can only fail, runs without a fatal error *)

Section RecordDoom.
Variable input : list (PropertyKey * value).
Variable options : option ParseOptions.

Lemma doomedRecord_push (e : ParseError) (st : RecordState) :
  doomedRecordState st -> doomedRecordState (RecordParser.push e st).
Proof.
  intros [Hleft Hes]. split; [exact Hleft|]. simpl. apply isNonEmpty_snoc.
Qed.

Lemma doomedRecord_fatal (e : ParseError) (st : RecordState) :
  doomedRecordState (RecordParser.setLeft (RecordParser.push e st)).
Proof. split; [reflexivity|]. simpl. apply isNonEmpty_snoc. Qed.

Lemma doomedRecord_absorbKeys (os : list RecordWalk.Outcome) :
  forall st, doomedRecordState st -> doomedRecordState (absorbKeys os st).
Proof.
  unfold absorbKeys. induction os as [|o os IH]; intros st Hst; simpl; [exact Hst|].
  apply IH. destruct o; simpl.
  - exact Hst.
  - apply doomedRecord_fatal.
  - apply (@doomedRecord_push e st Hst).
  - apply doomedRecord_push. exact Hst.
  - exact Hst.
Qed.

(** The value of a key, parsed: what the loops share. *)
Lemma parsed_key_cases (parser : Parser) (k : PropertyKey) (st : RecordState) :
  let o := RecordWalk.parsed input options k parser in
  let l :=
    match parser (getProperty input k) options with
    | PE.Failure left_ =>
        let e := PE.key k left_ in
        if optAllErrors options then Next (RecordParser.setLeft (RecordParser.push e st))
        else Return (PE.failures (I.mutableAppend (r_es st) e))
    | PE.Warning left_ right_ =>
        Next (RecordParser.setOutput k right_ (RecordParser.push (PE.key k left_) st))
    | PE.Success right_ => Next (RecordParser.setOutput k right_ st)
    end in
  (RecordWalk.isFatal o = false -> l = Next (absorbKey st o))
  /\ (RecordWalk.isFatal o = true \/ doomedRecordState st -> doomedRecord l).
Proof.
  unfold RecordWalk.parsed.
  destruct (parser (getProperty input k) options) as [es|es a|a]; simpl; split.
  - discriminate.
  - intros _. destruct (optAllErrors options); simpl;
      [apply doomedRecord_fatal | reflexivity].
  - reflexivity.
  - intros [H | H]; [discriminate|]. apply (@doomedRecord_push (PE.key k es) st H).
  - reflexivity.
  - intros [H | H]; [discriminate | exact H].
Qed.

Lemma propertyBody_cases (ps : PropertySignature AST) (parser : Parser)
  (st : RecordState) :
  let o := RecordWalk.property input options (ps, parser) in
  (RecordWalk.isFatal o = false ->
   RecordParser.propertyBody input options ps parser st
   = Next (RecordParser.expect (ps_name ps) (absorbKey st o)))
  /\ (RecordWalk.isFatal o = true \/ doomedRecordState st ->
      doomedRecord (RecordParser.propertyBody input options ps parser st)).
Proof.
  unfold RecordParser.propertyBody, RecordWalk.property. simpl.
  destruct (hasOwnProperty input (ps_name ps)); simpl.
  - destruct (parsed_key_cases parser (ps_name ps)
                (RecordParser.expect (ps_name ps) st)) as [Hok Hdoom].
    split.
    + intros H. rewrite <- absorbKey_expect. apply Hok. exact H.
    + intros [H | H]; apply Hdoom; [left; exact H | right; exact H].
  - destruct (ps_isOptional ps); simpl; split.
    + reflexivity.
    + intros [H | H]; [discriminate | exact H].
    + discriminate.
    + intros _. destruct (optAllErrors options); simpl;
        [apply doomedRecord_fatal | reflexivity].
Qed.

Lemma forProperties_cases (todo : list (PropertySignature AST * Parser)) :
  forall st,
    let os := map (RecordWalk.property input options) todo in
    (existsb RecordWalk.isFatal os = false ->
     RecordParser.forProperties input options todo st
     = Next (expectAll (map (fun q => ps_name (fst q)) todo) (absorbKeys os st)))
    /\ (existsb RecordWalk.isFatal os = true \/ doomedRecordState st ->
        doomedRecord (RecordParser.forProperties input options todo st)).
Proof.
  induction todo as [|[ps parser] todo IH]; intros st; simpl.
  - split; [reflexivity|]. intros [H | H]; [discriminate | exact H].
  - destruct (propertyBody_cases ps parser st) as [Hok Hdoom]. simpl in Hok, Hdoom.
    destruct (RecordWalk.isFatal (RecordWalk.property input options (ps, parser)))
      eqn:Hhead; simpl.
    + split; [discriminate|]. intros _.
      specialize (Hdoom (or_introl eq_refl)).
      destruct (RecordParser.propertyBody input options ps parser st) as [t|st1];
        [exact Hdoom|].
      apply (IH st1). right. exact Hdoom.
    + rewrite (Hok eq_refl).
      destruct (IH (RecordParser.expect (ps_name ps)
                      (absorbKey st (RecordWalk.property input options (ps, parser)))))
        as [IHok IHdoom].
      split.
      * intros Htail. rewrite (IHok Htail).
        unfold expectAll at 2. simpl.
        fold (expectAll (map (fun q : PropertySignature AST * Parser => ps_name (fst q))
                           todo)).
        rewrite absorbKeys_expect. reflexivity.
      * intros [Htail | Hst]; apply IHdoom; [left; exact Htail | right].
        destruct Hst as [Hleft Hes]. split.
        -- destruct (RecordWalk.property input options (ps, parser)); simpl;
             try exact Hleft; reflexivity.
        -- destruct (RecordWalk.property input options (ps, parser)); simpl;
             try exact Hes; apply isNonEmpty_snoc.
Qed.

Lemma indexBody_cases (parameter type : Parser) (key : PropertyKey) (st : RecordState) :
  let os := RecordWalk.indexKey input options parameter type key in
  (existsb RecordWalk.isFatal os = false ->
   RecordParser.indexBody input options parameter type key st = Next (absorbKeys os st))
  /\ (existsb RecordWalk.isFatal os = true \/ doomedRecordState st ->
      doomedRecord (RecordParser.indexBody input options parameter type key st)).
Proof.
  unfold RecordParser.indexBody, RecordWalk.indexKey, RecordParser.indexValue.
  destruct (parameter (keyValue key) options) as [es|es a|a]; simpl.
  - split; [discriminate|]. intros _.
    destruct (optAllErrors options); simpl; [apply doomedRecord_fatal | reflexivity].
  - destruct (parsed_key_cases type key (RecordParser.push (PE.key key es) st))
      as [Hok Hdoom].
    rewrite orb_false_r. split.
    + exact Hok.
    + intros [H | H]; apply Hdoom; [left; exact H | right].
      apply doomedRecord_push. exact H.
  - destruct (parsed_key_cases type key st) as [Hok Hdoom].
    rewrite orb_false_r. split; assumption.
Qed.

Lemma forKeys_cases (parameter type : Parser) (keys : list PropertyKey) :
  forall st,
    let os := flat_map (RecordWalk.indexKey input options parameter type) keys in
    (existsb RecordWalk.isFatal os = false ->
     RecordParser.forKeys input options parameter type keys st = Next (absorbKeys os st))
    /\ (existsb RecordWalk.isFatal os = true \/ doomedRecordState st ->
        doomedRecord (RecordParser.forKeys input options parameter type keys st)).
Proof.
  induction keys as [|key keys IH]; intros st; simpl.
  - split; [reflexivity|]. intros [H | H]; [discriminate | exact H].
  - destruct (indexBody_cases parameter type key st) as [Hok Hdoom].
    simpl in Hok, Hdoom. rewrite existsb_app.
    destruct (existsb RecordWalk.isFatal
                (RecordWalk.indexKey input options parameter type key)) eqn:Hhead; simpl.
    + split; [discriminate|]. intros _.
      specialize (Hdoom (or_introl eq_refl)).
      destruct (RecordParser.indexBody input options parameter type key st) as [t|st1];
        [exact Hdoom|].
      apply (IH st1). right. exact Hdoom.
    + rewrite (Hok eq_refl).
      destruct (IH (absorbKeys (RecordWalk.indexKey input options parameter type key) st))
        as [IHok IHdoom].
      split.
      * intros Htail. rewrite (IHok Htail), absorbKeys_app. reflexivity.
      * intros [Htail | Hst]; apply IHdoom; [left; exact Htail | right].
        apply doomedRecord_absorbKeys. exact Hst.
Qed.

Lemma forIndexSignatures_cases (todo : list (IndexSignature AST * (Parser * Parser))) :
  forall st,
    let os := flat_map (RecordWalk.indexSignature input options) todo in
    (existsb RecordWalk.isFatal os = false ->
     RecordParser.forIndexSignatures input options todo st = Next (absorbKeys os st))
    /\ (existsb RecordWalk.isFatal os = true \/ doomedRecordState st ->
        doomedRecord (RecordParser.forIndexSignatures input options todo st)).
Proof.
  induction todo as [|[sig [parameter type]] todo IH]; intros st; simpl.
  - split; [reflexivity|]. intros [H | H]; [discriminate | exact H].
  - destruct (forKeys_cases parameter type
                (I.getKeysForIndexSignature input (is_parameter sig)) st) as [Hok Hdoom].
    simpl in Hok, Hdoom. rewrite existsb_app.
    change (RecordWalk.indexSignature input options (sig, (parameter, type)))
      with (flat_map (RecordWalk.indexKey input options parameter type)
              (I.getKeysForIndexSignature input (is_parameter sig))).
    destruct (existsb RecordWalk.isFatal
                (flat_map (RecordWalk.indexKey input options parameter type)
                   (I.getKeysForIndexSignature input (is_parameter sig)))) eqn:Hhead;
      simpl.
    + split; [discriminate|]. intros _.
      specialize (Hdoom (or_introl eq_refl)).
      destruct (RecordParser.forKeys input options parameter type
                  (I.getKeysForIndexSignature input (is_parameter sig)) st) as [t|st1];
        [exact Hdoom|].
      apply (IH st1). right. exact Hdoom.
    + rewrite (Hok eq_refl).
      destruct (IH (absorbKeys
                      (flat_map (RecordWalk.indexKey input options parameter type)
                         (I.getKeysForIndexSignature input (is_parameter sig))) st))
        as [IHok IHdoom].
      split.
      * intros Htail. rewrite (IHok Htail), absorbKeys_app. reflexivity.
      * intros [Htail | Hst]; apply IHdoom; [left; exact Htail | right].
        apply doomedRecord_absorbKeys. exact Hst.
Qed.

Lemma forUnexpected_cases (names keys : list PropertyKey) :
  forall st,
    (forall key, RecordParser.isExpected st key = RecordWalk.expected names key) ->
    let os := map (RecordWalk.unexpected input options names) keys in
    (existsb RecordWalk.isFatal os = false ->
     RecordParser.forUnexpected input options keys st = Next (absorbKeys os st))
    /\ (existsb RecordWalk.isFatal os = true \/ doomedRecordState st ->
        doomedRecord (RecordParser.forUnexpected input options keys st)).
Proof.
  induction keys as [|key keys IH]; intros st Hexpected; simpl.
  - split; [reflexivity|]. intros [H | H]; [discriminate | exact H].
  - assert (Hsame : forall o k,
               RecordParser.isExpected (absorbKey st o) k
               = RecordWalk.expected names k).
    { intros o k. rewrite <- Hexpected. unfold RecordParser.isExpected.
      destruct o; reflexivity. }
    unfold RecordParser.unexpectedBody. rewrite Hexpected.
    assert (Ho : RecordWalk.unexpected input options names key
                 = if RecordWalk.expected names key
                   then RecordWalk.Skipped
                   else if optIsUnexpectedAllowed options
                        then RecordWalk.Noted
                               (PE.Key key [PE.Unexpected (getProperty input key)])
                        else RecordWalk.Fatal
                               (PE.Key key [PE.Unexpected (getProperty input key)]))
      by reflexivity.
    destruct (RecordWalk.expected names key); simpl.
    + rewrite Ho. simpl. apply (IH st Hexpected).
    + destruct (optIsUnexpectedAllowed options); rewrite Ho; simpl.
      * destruct (IH (RecordParser.push
                        (PE.key key [PE.unexpected (getProperty input key)]) st)
                    (Hsame (RecordWalk.Noted
                              (PE.Key key [PE.Unexpected (getProperty input key)]))))
          as [IHok IHdoom].
        split; [exact IHok|].
        intros [H | H]; apply IHdoom; [left; exact H | right].
        apply doomedRecord_push. exact H.
      * split; [discriminate|]. intros _.
        destruct (optAllErrors options); simpl; [|reflexivity].
        destruct (IH (RecordParser.setLeft
                        (RecordParser.push
                           (PE.key key [PE.unexpected (getProperty input key)]) st))
                    (Hsame (RecordWalk.Fatal
                              (PE.Key key [PE.Unexpected (getProperty input key)]))))
          as [_ IHdoom].
        apply IHdoom. right. apply doomedRecord_fatal.
Qed.

Lemma finishRecord_doomed (l : Loop RecordState) :
  doomedRecord l -> PE.isFailure (finishRecord l) = true.
Proof.
  destruct l as [t|st]; simpl; [tauto|].
  intros [Hleft Hes]. unfold RecordParser.computeOutput. rewrite Hes, Hleft. reflexivity.
Qed.

Lemma computeOutput_walk (os : list RecordWalk.Outcome) :
  RecordParser.computeOutput (absorbKeys os RecordParser.initial) = RecordWalk.report os.
Proof.
  unfold RecordParser.computeOutput, RecordWalk.report, RecordWalk.outputOf.
  rewrite absorbKeys_es, absorbKeys_isLeft, absorbKeys_output. simpl.
  destruct (RecordWalk.errorsOf os); reflexivity.
Qed.

(** Whatever the options, the [TypeLiteral] parser fails exactly when a
    key of the walk is fatal; when none is, its result is the report of
    the walk. *)
Lemma parseObject_walk (propertySignatures : list (PropertySignature AST))
  (parsers : list Parser) (indexSignatures : list (IndexSignature AST))
  (sigParsers : list (Parser * Parser)) :
  let os := RecordWalk.record input options propertySignatures parsers
              indexSignatures sigParsers in
  let r := RecordParser.parseObject input options propertySignatures parsers
             indexSignatures sigParsers in
  PE.isFailure r = existsb RecordWalk.isFatal os
  /\ (existsb RecordWalk.isFatal os = false -> r = RecordWalk.report os).
Proof.
  unfold RecordParser.parseObject, RecordWalk.record.
  set (todo := combine propertySignatures parsers).
  set (names := map (fun q : PropertySignature AST * Parser => ps_name (fst q)) todo).
  set (P := map (RecordWalk.property input options) todo).
  destruct (forProperties_cases todo RecordParser.initial) as [Hok Hdoom].
  simpl in Hok, Hdoom. fold P names in Hok, Hdoom.
  rewrite existsb_app.
  assert (Htail : forall (rest : list RecordWalk.Outcome) l,
             (existsb RecordWalk.isFatal rest = false ->
              l = Next (absorbKeys rest (expectAll names (absorbKeys P RecordParser.initial))))
             -> (existsb RecordWalk.isFatal rest = true -> doomedRecord l) ->
             existsb RecordWalk.isFatal P = false ->
             PE.isFailure (finishRecord l) = existsb RecordWalk.isFatal rest
             /\ (existsb RecordWalk.isFatal rest = false ->
                 finishRecord l = RecordWalk.report (P ++ rest))).
  { intros rest l Hnext Hfail HP.
    assert (Hreport : existsb RecordWalk.isFatal rest = false ->
                      finishRecord l = RecordWalk.report (P ++ rest)).
    { intros Hrest. rewrite (Hnext Hrest). simpl.
      rewrite absorbKeys_expectAll, computeOutput_expectAll, <- absorbKeys_app.
      apply computeOutput_walk. }
    split; [|exact Hreport].
    destruct (existsb RecordWalk.isFatal rest) eqn:Hrest.
    - apply finishRecord_doomed. apply Hfail. reflexivity.
    - rewrite (Hreport eq_refl), recordReport_fails, existsb_app, HP, Hrest.
      reflexivity. }
  destruct (existsb RecordWalk.isFatal P) eqn:HP; simpl.
  - split; [|discriminate].
    specialize (Hdoom (or_introl eq_refl)).
    destruct (RecordParser.forProperties input options todo RecordParser.initial)
      as [t|st1]; [exact Hdoom|].
    unfold RecordParser.afterProperties.
    destruct (0 <? List.length sigParsers).
    + destruct (forIndexSignatures_cases (combine indexSignatures sigParsers) st1)
        as [_ Hd].
      apply (@finishRecord_doomed
               (RecordParser.forIndexSignatures input options
                  (combine indexSignatures sigParsers) st1)).
      apply Hd. right. exact Hdoom.
    + apply (@finishRecord_doomed
               (RecordParser.forUnexpected input options (I.ownKeys input) st1)).
      clear - Hdoom.
      revert st1 Hdoom. induction (I.ownKeys input) as [|key keys IH]; intros st Hst; simpl.
      * exact Hst.
      * unfold RecordParser.unexpectedBody.
        destruct (negb (RecordParser.isExpected st key)); [|apply IH; exact Hst].
        destruct (optIsUnexpectedAllowed options).
        -- apply IH. apply doomedRecord_push. exact Hst.
        -- destruct (optAllErrors options); [|reflexivity].
           apply IH. apply doomedRecord_fatal.
  - rewrite (Hok eq_refl). unfold RecordParser.afterProperties.
    destruct sigParsers as [|sp sigParsers]; simpl.
    + destruct (@forUnexpected_cases names (I.ownKeys input)
                  (expectAll names (absorbKeys P RecordParser.initial))) as [Hu Hd].
      { intros key. apply isExpected_walked. }
      apply (Htail _ (RecordParser.forUnexpected input options (I.ownKeys input)
                        (expectAll names (absorbKeys P RecordParser.initial))));
        [exact Hu | intros H; apply Hd; left; exact H | reflexivity].
    + destruct (forIndexSignatures_cases (combine indexSignatures (sp :: sigParsers))
                  (expectAll names (absorbKeys P RecordParser.initial))) as [Hi Hd].
      apply (Htail _ (RecordParser.forIndexSignatures input options
                        (combine indexSignatures (sp :: sigParsers))
                        (expectAll names (absorbKeys P RecordParser.initial))));
        [exact Hi | intros H; apply Hd; left; exact H | reflexivity].
Qed.

End RecordDoom.

(* ----------------------------------------------------------------- *)
(** ** What a type literal accepts *)

Lemma in_combine_map (B C : Type) (f : B -> C) (l : list B) (b : B) (c : C) :
  In (b, c) (combine l (map f l)) <-> In b l /\ c = f b.
Proof.
  induction l as [|x l IH]; simpl.
  - tauto.
  - rewrite IH. split.
    + intros [H | [H1 H2]]; [injection H as <- <-; tauto | tauto].
    + intros [[<- | H] ->]; [left; reflexivity | right; tauto].
Qed.

Lemma existsb_false_iff (B : Type) (f : B -> bool) (l : list B) :
  existsb f l = false <-> forall x, In x l -> f x = false.
Proof.
  induction l as [|x l IH]; simpl.
  - split; [intros _ y [] | reflexivity].
  - rewrite orb_false_iff, IH. split.
    + intros [Hx Hl] y [<- | Hy]; [exact Hx | apply Hl; exact Hy].
    + intros H. split; [apply H; left; reflexivity | intros y Hy; apply H; right; exact Hy].
Qed.

Lemma property_not_fatal_iff (input : list (PropertyKey * value))
  (options : option ParseOptions) (q : PropertySignature AST * Parser) :
  RecordWalk.isFatal (RecordWalk.property input options q) = false
  <-> propertyOk input options q.
Proof.
  unfold RecordWalk.property, propertyOk, RecordWalk.parsed.
  destruct (hasOwnProperty input (ps_name (fst q))).
  - destruct (snd q (getProperty input (ps_name (fst q))) options); simpl;
      split; intros H; try reflexivity; try discriminate.
    + destruct H as [[_ H] | [H _]]; discriminate.
    + left. split; reflexivity.
    + left. split; reflexivity.
  - destruct (ps_isOptional (fst q)); simpl; split; intros H;
      try reflexivity; try discriminate.
    + right. split; reflexivity.
    + destruct H as [[H _] | [_ H]]; discriminate.
Qed.

Lemma indexKey_not_fatal_iff (input : list (PropertyKey * value))
  (options : option ParseOptions) (parameter type : Parser) (key : PropertyKey) :
  existsb RecordWalk.isFatal (RecordWalk.indexKey input options parameter type key)
  = false
  <-> PE.isFailure (parameter (keyValue key) options) = false
      /\ PE.isFailure (type (getProperty input key) options) = false.
Proof.
  unfold RecordWalk.indexKey, RecordWalk.parsed.
  destruct (parameter (keyValue key) options); simpl;
    destruct (type (getProperty input key) options); simpl;
    split; intros H; try reflexivity; try discriminate;
    try (destruct H; discriminate); split; reflexivity.
Qed.

Lemma expected_iff (names : list PropertyKey) (key : PropertyKey) :
  RecordWalk.expected names key = true
  <-> In key names /\ (key = protoKey -> 2 <= protoCount names).
Proof.
  split.
  - intros H. split; [apply expected_declared; exact H|].
    intros ->. unfold RecordWalk.expected in H.
    rewrite PropertyKey_eqb_refl in H. apply Nat.leb_le. exact H.
  - intros [Hin Hproto]. unfold RecordWalk.expected.
    destruct (PropertyKey_eqb key protoKey) eqn:Hkey.
    + apply PropertyKey_eqb_eq in Hkey. apply Nat.leb_le. apply Hproto. exact Hkey.
    + apply existsb_exists. exists key. split; [exact Hin | apply PropertyKey_eqb_refl].
Qed.

Lemma unexpected_not_fatal_iff (input : list (PropertyKey * value))
  (options : option ParseOptions) (names : list PropertyKey) (key : PropertyKey) :
  RecordWalk.isFatal (RecordWalk.unexpected input options names key) = false
  <-> optIsUnexpectedAllowed options = true
      \/ (In key names /\ (key = protoKey -> 2 <= protoCount names)).
Proof.
  rewrite <- expected_iff. unfold RecordWalk.unexpected.
  destruct (RecordWalk.expected names key).
  - split; [|reflexivity]. intros _. right. reflexivity.
  - destruct (optIsUnexpectedAllowed options); simpl.
    + split; [left; reflexivity | reflexivity].
    + split; [discriminate|]. intros [H | H]; discriminate.
Qed.

(** X6.  A [TypeLiteral] with a property or an index signature accepts an
    object (the result is not a [Failure]) exactly when every property
    signature is either present and accepted by its parser, or absent and
    optional, and: with index signatures, every key of each index
    signature's kind is accepted by the parameter parser and its value by
    the value parser; without index signatures, every own key is the name
    of a property signature unless [isUnexpectedAllowed] is set.  The own
    key [__proto__] has to be the name of two property signatures at
    least: [expectedKeys["__proto__"] = null] sets the prototype of
    [expectedKeys] the first time and creates the own property the
    second time only, so that an own [__proto__] key of the input that
    one signature declares is reported as unexpected. *)
Theorem typeLiteral_accepts_iff (as_ : Direction)
  (propertySignatures : list (PropertySignature AST))
  (indexSignatures : list (IndexSignature AST))
  (input : list (PropertyKey * value)) (options : option ParseOptions) :
  propertySignatures <> [] \/ indexSignatures <> [] ->
  (PE.isFailure
     (go env as_ (TypeLiteral propertySignatures indexSignatures) (VObject input) options)
   = false
   <-> (forall f,
          In f propertySignatures ->
          (hasOwnProperty input (ps_name f) = true
           /\ PE.isFailure
                (go env as_ (ps_type f) (getProperty input (ps_name f)) options) = false)
          \/ (hasOwnProperty input (ps_name f) = false /\ ps_isOptional f = true))
       /\ (indexSignatures <> [] ->
           forall sig key,
             In sig indexSignatures ->
             In key (I.getKeysForIndexSignature input (is_parameter sig)) ->
             PE.isFailure (go env as_ (is_parameter sig) (keyValue key) options) = false
             /\ PE.isFailure
                  (go env as_ (is_type sig) (getProperty input key) options) = false)
       /\ (indexSignatures = [] ->
           optIsUnexpectedAllowed options = true
           \/ forall key,
                In key (I.ownKeys input) ->
                In key (map (@ps_name AST) propertySignatures)
                /\ (key = protoKey ->
                    2 <= protoCount (map (@ps_name AST) propertySignatures)))).
Proof.
  intros Hnonempty. simpl. unfold RecordParser.parse.
  rewrite (@fast_path_not_taken _ _ _ _ _ _ Hnonempty).
  set (parsers := map (fun f => go env as_ (ps_type f)) propertySignatures).
  set (sigParsers := map (fun s => (go env as_ (is_parameter s), go env as_ (is_type s)))
                       indexSignatures).
  destruct (parseObject_walk input options propertySignatures parsers
              indexSignatures sigParsers) as [Hfails _].
  simpl in Hfails. rewrite Hfails. clear Hfails.
  unfold RecordWalk.record.
  rewrite existsb_app, orb_false_iff.
  assert (Hprops :
            existsb RecordWalk.isFatal
              (map (RecordWalk.property input options)
                 (combine propertySignatures parsers)) = false
            <-> forall f,
                  In f propertySignatures ->
                  (hasOwnProperty input (ps_name f) = true
                   /\ PE.isFailure
                        (go env as_ (ps_type f) (getProperty input (ps_name f)) options)
                      = false)
                  \/ (hasOwnProperty input (ps_name f) = false
                      /\ ps_isOptional f = true)).
  { rewrite existsb_false_iff. split.
    - intros H f Hf.
      apply (property_not_fatal_iff input options (f, go env as_ (ps_type f))).
      apply H. apply in_map.
      apply in_combine_map. split; [exact Hf | reflexivity].
    - intros H o Ho. apply in_map_iff in Ho. destruct Ho as [[f p] [<- Hq]].
      apply in_combine_map in Hq. destruct Hq as [Hf ->].
      apply property_not_fatal_iff. apply (H f Hf). }
  assert (Hnames : map (fun q : PropertySignature AST * Parser => ps_name (fst q))
                     (combine propertySignatures parsers)
                   = map (@ps_name AST) propertySignatures).
  { unfold parsers. clear. induction propertySignatures as [|f l IH]; simpl;
      [reflexivity | rewrite IH; reflexivity]. }
  rewrite Hprops, Hnames. clear Hprops Hnames.
  destruct indexSignatures as [|sig0 sigs]; simpl.
  - split.
    + intros [Hp Hu]. split; [exact Hp|]. split; [congruence|]. intros _.
      destruct (optIsUnexpectedAllowed options) eqn:Hallowed; [left; reflexivity|].
      right. intros key Hkey.
      rewrite existsb_false_iff in Hu.
      specialize (Hu _ (in_map _ _ _ Hkey)).
      apply unexpected_not_fatal_iff in Hu. destruct Hu as [Hu | Hu];
        [congruence | exact Hu].
    + intros [Hp [_ Hu]]. split; [exact Hp|].
      rewrite existsb_false_iff. intros o Ho.
      apply in_map_iff in Ho. destruct Ho as [key [<- Hkey]].
      apply unexpected_not_fatal_iff.
      destruct (Hu eq_refl) as [H | H]; [left; exact H | right; apply H; exact Hkey].
  - fold sigParsers.
    change (RecordWalk.indexSignature input options
              (sig0, (go env as_ (is_parameter sig0), go env as_ (is_type sig0)))
            ++ flat_map (RecordWalk.indexSignature input options)
                 (combine sigs
                    (map (fun s => (go env as_ (is_parameter s), go env as_ (is_type s)))
                       sigs)))
      with (flat_map (RecordWalk.indexSignature input options)
              (combine (sig0 :: sigs)
                 (map (fun s => (go env as_ (is_parameter s), go env as_ (is_type s)))
                    (sig0 :: sigs)))).
    assert (Hsigs :
              existsb RecordWalk.isFatal
                (flat_map (RecordWalk.indexSignature input options)
                   (combine (sig0 :: sigs)
                      (map (fun s => (go env as_ (is_parameter s),
                                      go env as_ (is_type s))) (sig0 :: sigs)))) = false
              <-> forall sig key,
                    In sig (sig0 :: sigs) ->
                    In key (I.getKeysForIndexSignature input (is_parameter sig)) ->
                    PE.isFailure (go env as_ (is_parameter sig) (keyValue key) options)
                    = false
                    /\ PE.isFailure
                         (go env as_ (is_type sig) (getProperty input key) options)
                       = false).
    { generalize (sig0 :: sigs). intros l.
      rewrite existsb_false_iff. split.
      - intros H sig key Hsig Hkey.
        apply (indexKey_not_fatal_iff input options).
        apply existsb_false_iff. intros o Ho. apply H.
        apply in_flat_map.
        exists (sig, (go env as_ (is_parameter sig), go env as_ (is_type sig))).
        split.
        + apply (in_combine_map
                   (fun s => (go env as_ (is_parameter s), go env as_ (is_type s)))).
          split; [exact Hsig | reflexivity].
        + unfold RecordWalk.indexSignature. simpl.
          apply in_flat_map. exists key. split; [exact Hkey | exact Ho].
      - intros H o Ho.
        apply in_flat_map in Ho. destruct Ho as [[sig ps] [Hq Ho]].
        apply in_combine_map in Hq. destruct Hq as [Hsig ->].
        unfold RecordWalk.indexSignature in Ho. simpl in Ho.
        apply in_flat_map in Ho. destruct Ho as [key [Hkey Ho]].
        pose proof (proj2 (indexKey_not_fatal_iff input options
                             (go env as_ (is_parameter sig)) (go env as_ (is_type sig))
                             key) (H sig key Hsig Hkey)) as Hnone.
        rewrite existsb_false_iff in Hnone. apply Hnone. exact Ho. }
    rewrite Hsigs. split.
    + intros [Hp Hs]. split; [exact Hp|]. split; [intros _; exact Hs | discriminate].
    + intros [Hp [Hs _]]. split; [exact Hp | apply Hs; discriminate].
Qed.

(* ----------------------------------------------------------------- *)
(** ** The keys of the output of a type literal *)

Lemma keysForIndexSignature_own (input : list (PropertyKey * value)) (parameter : AST)
  (key : PropertyKey) :
  In key (I.getKeysForIndexSignature input parameter) ->
  hasOwnProperty input key = true.
Proof.
  assert (Hfilter : forall f, In key (filter f (map fst input)) ->
                              hasOwnProperty input key = true).
  { intros f Hin. apply filter_In in Hin. destruct Hin as [Hin _].
    apply in_map_iff in Hin. destruct Hin as [[k v] [Hk Hin]]. simpl in Hk. subst k.
    unfold hasOwnProperty. apply existsb_exists.
    exists (key, v). split; [exact Hin | apply PropertyKey_eqb_refl]. }
  induction parameter; simpl; try contradiction.
  - apply Hfilter.
  - apply Hfilter.
  - exact IHparameter.
  - apply Hfilter.
Qed.

Lemma stored_keys (os : list RecordWalk.Outcome) (k : PropertyKey) :
  forall output,
    hasOwnProperty (o_own (fold_left RecordWalk.store os output)) k = true ->
    hasOwnProperty (o_own output) k = true
    \/ exists o, In o os
                 /\ ((exists e a, o = RecordWalk.Warned e k a)
                     \/ exists a, o = RecordWalk.Valid k a).
Proof.
  induction os as [|o os IH]; intros output Hk; simpl in *.
  - left. exact Hk.
  - destruct (IH _ Hk) as [Hout | [o' [Hin Ho']]].
    + destruct o as [|e|e k' a|e|k' a]; simpl in Hout;
        try (left; exact Hout).
      * apply hasOwnProperty_assign in Hout.
        destruct Hout as [-> | Hout]; [|left; exact Hout].
        right. exists (RecordWalk.Warned e k' a). split; [left; reflexivity|].
        left. exists e, a. reflexivity.
      * apply hasOwnProperty_assign in Hout.
        destruct Hout as [-> | Hout]; [|left; exact Hout].
        right. exists (RecordWalk.Valid k' a). split; [left; reflexivity|].
        right. exists a. reflexivity.
    + right. exists o'. split; [right; exact Hin | exact Ho'].
Qed.

Lemma parsed_key (input : list (PropertyKey * value)) (options : option ParseOptions)
  (k k' : PropertyKey) (parser : Parser) :
  (exists e a, RecordWalk.parsed input options k' parser = RecordWalk.Warned e k a)
  \/ (exists a, RecordWalk.parsed input options k' parser = RecordWalk.Valid k a) ->
  k' = k.
Proof.
  unfold RecordWalk.parsed.
  destruct (parser (getProperty input k') options);
    intros [[e [a H]] | [a H]]; try discriminate; injection H; congruence.
Qed.

(** X7.  The output object of a [TypeLiteral] with a property or an index
    signature has only keys that are own keys of the input and that are
    the name of a property signature or a key of the kind of an index
    signature: every other key of the input is left out, also when it is
    tolerated as an unexpected key. *)
Theorem typeLiteral_output_keys (as_ : Direction)
  (propertySignatures : list (PropertySignature AST))
  (indexSignatures : list (IndexSignature AST))
  (input : list (PropertyKey * value)) (options : option ParseOptions) (a : value) :
  propertySignatures <> [] \/ indexSignatures <> [] ->
  PE.valueOf
    (go env as_ (TypeLiteral propertySignatures indexSignatures) (VObject input) options)
  = Some a ->
  exists output,
    a = VObject output
    /\ forall key,
         hasOwnProperty output key = true ->
         hasOwnProperty input key = true
         /\ (In key (map (@ps_name AST) propertySignatures)
             \/ exists sig,
                  In sig indexSignatures
                  /\ In key (I.getKeysForIndexSignature input (is_parameter sig))).
Proof.
  intros Hnonempty. simpl. unfold RecordParser.parse.
  rewrite (@fast_path_not_taken _ _ _ _ _ _ Hnonempty).
  set (parsers := map (fun f => go env as_ (ps_type f)) propertySignatures).
  set (sigParsers := map (fun s => (go env as_ (is_parameter s), go env as_ (is_type s)))
                       indexSignatures).
  destruct (parseObject_walk input options propertySignatures parsers
              indexSignatures sigParsers) as [Hfails Hreport].
  simpl in Hfails, Hreport.
  set (os := RecordWalk.record input options propertySignatures parsers
               indexSignatures sigParsers) in *.
  intros Hvalue.
  destruct (existsb RecordWalk.isFatal os) eqn:Hfatal.
  - destruct (RecordParser.parseObject input options propertySignatures parsers
                indexSignatures sigParsers); simpl in *; discriminate.
  - rewrite (Hreport eq_refl) in Hvalue.
    exists (RecordWalk.outputOf os). split.
    + unfold RecordWalk.report in Hvalue. rewrite Hfatal in Hvalue.
      destruct (RecordWalk.errorsOf os); simpl in Hvalue; injection Hvalue as <-;
        reflexivity.
    + intros key Hkey.
      destruct (stored_keys os key emptyObject Hkey) as [Hnil | [o [Hin Ho]]];
        [discriminate|].
      unfold os, RecordWalk.record in Hin. apply in_app_or in Hin.
      destruct Hin as [Hin | Hin].
      * apply in_map_iff in Hin. destruct Hin as [[f p] [Hq Hf]].
        apply in_combine_l in Hf.
        unfold RecordWalk.property in Hq. simpl in Hq.
        destruct (hasOwnProperty input (ps_name f)) eqn:Hown.
        -- subst o. apply parsed_key in Ho. subst key.
           split; [exact Hown | left; apply in_map; exact Hf].
        -- exfalso. destruct (ps_isOptional f); subst o;
             destruct Ho as [[e [b H]] | [b H]]; discriminate.
      * destruct sigParsers as [|sp sps] eqn:Hsp.
        -- exfalso. apply in_map_iff in Hin. destruct Hin as [k [Hk _]].
           unfold RecordWalk.unexpected in Hk.
           destruct (RecordWalk.expected _ k) in Hk;
             [|destruct (optIsUnexpectedAllowed options) in Hk];
             subst o; destruct Ho as [[e [b H]] | [b H]]; discriminate.
        -- rewrite <- Hsp in Hin.
           apply in_flat_map in Hin. destruct Hin as [[sig [par ty]] [Hq Hin]].
           apply in_combine_l in Hq.
           unfold RecordWalk.indexSignature in Hin. simpl in Hin.
           apply in_flat_map in Hin. destruct Hin as [k [Hk Hin]].
           assert (Heq : k = key).
           { unfold RecordWalk.indexKey in Hin.
             destruct (par (keyValue k) options); simpl in Hin.
             - destruct Hin as [<- | []].
               destruct Ho as [[e [b H]] | [b H]]; discriminate.
             - destruct Hin as [<- | [<- | []]].
               + destruct Ho as [[e [b H]] | [b H]]; discriminate.
               + apply (@parsed_key input options key k ty Ho).
             - destruct Hin as [<- | []]. apply (@parsed_key input options key k ty Ho). }
           subst k. split.
           ++ apply (@keysForIndexSignature_own input (is_parameter sig) key Hk).
           ++ right. exists sig. split; [exact Hq | exact Hk].
Qed.

(* ----------------------------------------------------------------- *)
(** ** Tuple: the parser and the walk, whatever the options *)

Section TupleGeneral.
Variable input : list value.
Variable options : option ParseOptions.

Lemma forRest_fatal (head : Parser) (n : nat) :
  forall st,
    existsb Walk.isFatal (Walk.restRegion input options head (t_i st) n) = true
    \/ doomedState st ->
    doomed (TupleParser.forRest input options head n st).
Proof.
  unfold Walk.restRegion.
  induction n as [|n IH]; intros st Hdoom; simpl.
  - destruct Hdoom as [H | H]; [discriminate | exact H].
  - destruct (Walk.isFatal (Walk.parsed input options (t_i st) head)) eqn:Hhead.
    + pose proof (@parsed_doomed input options head st (or_introl Hhead)) as Hbody.
      change (doomed (TupleParser.restBody input options head st)) in Hbody.
      destruct (TupleParser.restBody input options head st) as [t|st1]; [exact Hbody|].
      apply IH. right. exact Hbody.
    + destruct Hdoom as [Htail | Hst].
      * rewrite (@restBody_walk input options head st (or_intror Hhead)).
        apply IH. left.
        simpl in Htail. rewrite Hhead in Htail. simpl in Htail.
        unfold TupleParser.incr. simpl. rewrite absorb_index.
        replace (t_i st + 1) with (S (t_i st)) by lia. exact Htail.
      * apply forRest_doomed with (n := S n). exact Hst.
Qed.

Lemma postRestBody_cases (parser : Parser) (j : nat) (st : TupleState) :
  let i := t_i st + j in
  if Walk.present input i
  then
    (Walk.isFatal (Walk.parsed input options i parser) = false ->
     TupleParser.postRestBody input options parser j st
     = Next (absorb (TupleParser.setIndex i st) (Walk.parsed input options i parser)))
    /\ (Walk.isFatal (Walk.parsed input options i parser) = true ->
        doomed (TupleParser.postRestBody input options parser j st))
  else doomed (TupleParser.postRestBody input options parser j st).
Proof.
  simpl. unfold TupleParser.postRestBody. simpl.
  rewrite absent_iff_not_present.
  destruct (Walk.present input (t_i st + j)); simpl; [|reflexivity].
  split.
  - intros H.
    apply (@parsed_body input options parser (TupleParser.setIndex (t_i st + j) st)).
    right. exact H.
  - intros H.
    apply (@parsed_doomed input options parser (TupleParser.setIndex (t_i st + j) st)).
    left. exact H.
Qed.

Lemma forPostRest_cases (todo : list Parser) :
  forall j st,
    let os := postRestAsRun input options (t_i st) j todo in
    (existsb Walk.isFatal os = false ->
     exists i, TupleParser.forPostRest input options todo j st
               = Next (TupleParser.setIndex i (absorbAll os st)))
    /\ (existsb Walk.isFatal os = true \/ doomedState st ->
        doomed (TupleParser.forPostRest input options todo j st)).
Proof.
  induction todo as [|parser todo IH]; intros j st; simpl.
  - split.
    + intros _. exists (t_i st). rewrite setIndex_same. reflexivity.
    + intros [H | H]; [discriminate | exact H].
  - pose proof (postRestBody_cases parser j st) as Hbody. simpl in Hbody.
    destruct (Walk.present input (t_i st + j)).
    + destruct Hbody as [Hok Hfatal]. simpl.
      destruct (Walk.isFatal (Walk.parsed input options (t_i st + j) parser)) eqn:Hhead;
        simpl.
      * split; [discriminate|]. intros _.
        specialize (Hfatal eq_refl).
        destruct (TupleParser.postRestBody input options parser j st) as [t|st1];
          [exact Hfatal|].
        apply forPostRest_doomed. exact Hfatal.
      * rewrite (Hok eq_refl).
        set (o := Walk.parsed input options (t_i st + j) parser).
        destruct (IH (j + 1) (absorb (TupleParser.setIndex (t_i st + j) st) o))
          as [IHok IHdoom].
        simpl in IHok, IHdoom. rewrite absorb_index in IHok, IHdoom.
        simpl in IHok, IHdoom.
        split.
        -- intros Htail. destruct (IHok Htail) as [i Hi]. exists i. rewrite Hi.
           rewrite absorb_setIndex, absorbAll_setIndex, setIndex_setIndex. reflexivity.
        -- intros [Htail | Hst]; apply IHdoom; [left; exact Htail | right].
           destruct Hst as [Hleft Hes]. split.
           ++ destruct o; simpl; try exact Hleft; reflexivity.
           ++ destruct o; simpl; try exact Hes; apply isNonEmpty_snoc.
    + simpl. split; [discriminate|].
      intros _.
      destruct (TupleParser.postRestBody input options parser j st) as [t|st1];
        [exact Hbody|].
      apply forPostRest_doomed. exact Hbody.
Qed.

(** Whatever the options, the [Tuple] parser fails exactly when a
    position that it looks at is fatal; when none is, its result is the
    report of the walk of these positions. *)
Lemma parseArray_asRun (astElements : list (Element AST)) (parsers : list Parser)
  (rest : option (Parser * list Parser)) :
  let os := asRun input options astElements parsers rest in
  let r := TupleParser.parseArray input options astElements parsers rest in
  PE.isFailure r = existsb Walk.isFatal os
  /\ (existsb Walk.isFatal os = false -> r = Walk.report os).
Proof.
  destruct rest as [[head tail]|].
  - unfold asRun, Walk.tuple, TupleParser.parseArray. simpl.
    set (todo := combine astElements parsers).
    set (E := Walk.elements input options 0 todo).
    set (n := List.length todo).
    set (k := List.length input - List.length tail - n).
    set (R := Walk.restRegion input options head n k).
    set (start := Walk.postRestStart input n (List.length tail)).
    set (P := postRestAsRun input options start 0 tail).
    assert (Hstart : n + k = start) by (unfold start, Walk.postRestStart, k; lia).
    rewrite !existsb_app.
    destruct (existsb Walk.isFatal E) eqn:HE; simpl.
    + split; [|discriminate].
      pose proof (@forElements_doomed input options todo TupleParser.initial
                    (or_introl HE)) as Hels.
      destruct (TupleParser.forElements input options todo TupleParser.initial)
        as [t|st1]; [exact Hels|].
      unfold TupleParser.afterElements.
      pose proof (@forRest_doomed input options head
                    (List.length input - List.length tail - t_i st1) st1 Hels) as Hrest.
      destruct (TupleParser.forRest input options head
                  (List.length input - List.length tail - t_i st1) st1) as [t|st2];
        [exact Hrest|].
      apply (@finish_doomed (TupleParser.forPostRest input options tail 0 st2)).
      apply forPostRest_doomed. exact Hrest.
    + rewrite (@forElements_walk input options todo TupleParser.initial (or_intror HE)).
      simpl t_i. fold E n.
      unfold TupleParser.afterElements. simpl t_i. fold k.
      destruct (existsb Walk.isFatal R) eqn:HR; simpl.
      * split; [|discriminate].
        pose proof (@forRest_fatal head k
                      (TupleParser.setIndex n (absorbAll E TupleParser.initial))
                      (or_introl HR)) as Hrest.
        destruct (TupleParser.forRest input options head k
                    (TupleParser.setIndex n (absorbAll E TupleParser.initial)))
          as [t|st2]; [exact Hrest|].
        apply (@finish_doomed (TupleParser.forPostRest input options tail 0 st2)).
        apply forPostRest_doomed. exact Hrest.
      * rewrite (@forRest_walk input options head k
                   (TupleParser.setIndex n (absorbAll E TupleParser.initial))
                   (or_intror HR)).
        simpl t_i. fold R. rewrite Hstart.
        destruct (forPostRest_cases tail 0
                    (TupleParser.setIndex start
                       (absorbAll R (TupleParser.setIndex n
                                       (absorbAll E TupleParser.initial)))))
          as [Hok Hdoom].
        simpl in Hok, Hdoom. fold P in Hok, Hdoom.
        assert (Hreport : existsb Walk.isFatal P = false ->
                  match TupleParser.forPostRest input options tail 0
                          (TupleParser.setIndex start
                             (absorbAll R (TupleParser.setIndex n
                                             (absorbAll E TupleParser.initial)))) with
                  | Return t => t
                  | Next st' => TupleParser.computeOutput st'
                  end = Walk.report (E ++ R ++ P)).
        { intros HP. destruct (Hok HP) as [i Hi]. rewrite Hi.
          rewrite !absorbAll_setIndex, !computeOutput_setIndex.
          rewrite <- !absorbAll_app. apply computeOutput_absorbAll. }
        split; [|exact Hreport].
        destruct (existsb Walk.isFatal P) eqn:HP.
        -- apply (@finish_doomed
                    (TupleParser.forPostRest input options tail 0
                       (TupleParser.setIndex start
                          (absorbAll R (TupleParser.setIndex n
                                          (absorbAll E TupleParser.initial)))))).
           apply Hdoom. left. reflexivity.
        -- rewrite (Hreport eq_refl), report_fails, !existsb_app, HE, HR, HP.
           reflexivity.
  - simpl. split.
    + apply parseArray_fails.
    + apply parseArray_no_fatal.
Qed.

End TupleGeneral.

(* ----------------------------------------------------------------- *)
(** ** Without [isUnexpectedAllowed] there is no warning *)

Lemma failure_not_warning (t : ParseResult) :
  PE.isFailure t = true -> PE.hasWarnings t = false.
Proof. destruct t; simpl; congruence. Qed.

Lemma Forall_go (as_ : Direction) (B : Type) (g : B -> AST) (l : list B)
  (Pre : AST -> bool) (Post : Parser -> Prop) :
  Forall (fun a => Pre a = true -> Post (go env as_ a)) (map g l) ->
  forallb (fun b => Pre (g b)) l = true ->
  Forall Post (map (fun b => go env as_ (g b)) l).
Proof.
  induction l as [|b l IH]; simpl; intros HF Hb.
  - constructor.
  - apply andb_true_iff in Hb. destruct Hb as [Hb Hl].
    inversion HF as [|x xs Hx Hxs]; subst.
    constructor; [apply Hx; exact Hb | apply IH; assumption].
Qed.

Section Quiet.
Variable options : option ParseOptions.
Hypothesis strict : optIsUnexpectedAllowed options = false.

Lemma quiet_report (os : list Walk.Outcome) :
  forallb quiet os = true -> PE.hasWarnings (Walk.report os) = false.
Proof.
  intros Hquiet. unfold Walk.report.
  destruct (Walk.errorsOf os) as [|e es] eqn:Hes; [reflexivity|].
  destruct (existsb Walk.isFatal os) eqn:Hfatal; [reflexivity|].
  exfalso.
  assert (Hnone : Walk.errorsOf os = []).
  { clear Hes. unfold Walk.errorsOf.
    induction os as [|o os IH]; simpl in *; [reflexivity|].
    apply andb_true_iff in Hquiet. destruct Hquiet as [Ho Hos].
    apply orb_false_iff in Hfatal. destruct Hfatal as [Hf Hfs].
    rewrite (IH Hos Hfs). destruct o; simpl in *; try discriminate; reflexivity. }
  congruence.
Qed.

Lemma quiet_parsed (input : list value) (i : nat) (parser : Parser) :
  neverWarns options parser -> quiet (Walk.parsed input options i parser) = true.
Proof.
  intros Hp. unfold Walk.parsed. specialize (Hp (nth i input VUndefined)).
  destruct (parser (nth i input VUndefined) options); try reflexivity; discriminate.
Qed.

Lemma quiet_elements (input : list value) (todo : list (Element AST * Parser)) :
  Forall (fun q => neverWarns options (snd q)) todo ->
  forall i, forallb quiet (Walk.elements input options i todo) = true.
Proof.
  induction 1 as [|[e p] todo Hp Hrest IH]; intros i; simpl; [reflexivity|].
  rewrite IH, andb_true_r. unfold Walk.element.
  destruct (Walk.present input i); [apply quiet_parsed; exact Hp|].
  destruct (e_isOptional e); reflexivity.
Qed.

Lemma quiet_restRegion (input : list value) (head : Parser) (from n : nat) :
  neverWarns options head ->
  forallb quiet (Walk.restRegion input options head from n) = true.
Proof.
  intros Hp. unfold Walk.restRegion. revert from.
  induction n as [|n IH]; intros from; simpl; [reflexivity|].
  rewrite IH, andb_true_r. apply quiet_parsed. exact Hp.
Qed.

Lemma quiet_postRest (input : list value) (tail : list Parser) :
  Forall (neverWarns options) tail ->
  forall i j, forallb quiet (postRestAsRun input options i j tail) = true.
Proof.
  induction 1 as [|p tail Hp Hrest IH]; intros i j; simpl; [reflexivity|].
  destruct (Walk.present input (i + j)); simpl; [|reflexivity].
  rewrite IH, andb_true_r. apply quiet_parsed. exact Hp.
Qed.

Lemma quiet_unexpectedRegion (input : list value) (from n : nat) :
  forallb quiet (Walk.unexpectedRegion input options from n) = true.
Proof.
  unfold Walk.unexpectedRegion. revert from.
  induction n as [|n IH]; intros from; simpl; [reflexivity|].
  rewrite IH, andb_true_r. unfold Walk.unexpected. rewrite strict. reflexivity.
Qed.

Lemma Forall_combine_r (B C : Type) (Q : C -> Prop) (l : list B) (l' : list C) :
  Forall Q l' -> Forall (fun q => Q (snd q)) (combine l l').
Proof.
  intros H. apply Forall_forall. intros [b c] Hin.
  apply in_combine_r in Hin. simpl.
  rewrite Forall_forall in H. apply H. exact Hin.
Qed.

(** The [Tuple] parser does not warn when the parsers of its children do
    not. *)
Lemma tuple_neverWarns (astElements : list (Element AST)) (parsers : list Parser)
  (rest : option (Parser * list Parser)) :
  Forall (neverWarns options) parsers ->
  (forall head tail, rest = Some (head, tail) ->
     neverWarns options head /\ Forall (neverWarns options) tail) ->
  neverWarns options (TupleParser.parse astElements parsers rest).
Proof.
  intros Hparsers Hrest x. unfold TupleParser.parse.
  destruct x as [| | | | | | |input|]; try reflexivity.
  destruct (parseArray_asRun input options astElements parsers rest) as [Hfails Hreport].
  simpl in Hfails, Hreport.
  destruct (existsb Walk.isFatal (asRun input options astElements parsers rest))
    eqn:Hfatal.
  - apply failure_not_warning. exact Hfails.
  - rewrite (Hreport eq_refl). apply quiet_report.
    unfold asRun, Walk.tuple. rewrite forallb_app.
    rewrite quiet_elements by (apply Forall_combine_r; exact Hparsers). simpl.
    destruct rest as [[head tail]|].
    + destruct (Hrest head tail eq_refl) as [Hhead Htail].
      rewrite forallb_app, quiet_restRegion by exact Hhead.
      rewrite quiet_postRest by exact Htail. reflexivity.
    + apply quiet_unexpectedRegion.
Qed.

Lemma quietKey_report (os : list RecordWalk.Outcome) :
  forallb quietKey os = true -> PE.hasWarnings (RecordWalk.report os) = false.
Proof.
  intros Hquiet. unfold RecordWalk.report.
  destruct (RecordWalk.errorsOf os) as [|e es] eqn:Hes; [reflexivity|].
  destruct (existsb RecordWalk.isFatal os) eqn:Hfatal; [reflexivity|].
  exfalso.
  assert (Hnone : RecordWalk.errorsOf os = []).
  { clear Hes. unfold RecordWalk.errorsOf.
    induction os as [|o os IH]; simpl in *; [reflexivity|].
    apply andb_true_iff in Hquiet. destruct Hquiet as [Ho Hos].
    apply orb_false_iff in Hfatal. destruct Hfatal as [Hf Hfs].
    rewrite (IH Hos Hfs). destruct o; simpl in *; try discriminate; reflexivity. }
  congruence.
Qed.

Lemma quietKey_parsed (input : list (PropertyKey * value)) (k : PropertyKey)
  (parser : Parser) :
  neverWarns options parser -> quietKey (RecordWalk.parsed input options k parser) = true.
Proof.
  intros Hp. unfold RecordWalk.parsed. specialize (Hp (getProperty input k)).
  destruct (parser (getProperty input k) options); try reflexivity; discriminate.
Qed.

(** The [TypeLiteral] parser does not warn when the parsers of its
    children do not. *)
Lemma record_neverWarns (ast : AST) (propertySignatures : list (PropertySignature AST))
  (parsers : list Parser) (indexSignatures : list (IndexSignature AST))
  (sigParsers : list (Parser * Parser)) :
  Forall (neverWarns options) parsers ->
  Forall (fun sp => neverWarns options (fst sp) /\ neverWarns options (snd sp))
    sigParsers ->
  neverWarns options
    (RecordParser.parse ast propertySignatures parsers indexSignatures sigParsers).
Proof.
  intros Hparsers Hsigs x. unfold RecordParser.parse.
  destruct ((List.length parsers =? 0) && (List.length sigParsers =? 0)).
  { unfold I.fromRefinement. destruct (I.isNotNull x); reflexivity. }
  destruct x as [| | | | | | | |input]; try reflexivity.
  destruct (parseObject_walk input options propertySignatures parsers
              indexSignatures sigParsers) as [Hfails Hreport].
  simpl in Hfails, Hreport.
  destruct (existsb RecordWalk.isFatal
              (RecordWalk.record input options propertySignatures parsers
                 indexSignatures sigParsers)) eqn:Hfatal.
  - apply failure_not_warning. exact Hfails.
  - rewrite (Hreport eq_refl). apply quietKey_report.
    unfold RecordWalk.record. rewrite forallb_app. apply andb_true_iff. split.
    + apply forallb_forall. intros o Ho.
      apply in_map_iff in Ho. destruct Ho as [[f p] [<- Hq]].
      apply in_combine_r in Hq. rewrite Forall_forall in Hparsers.
      unfold RecordWalk.property. simpl.
      destruct (hasOwnProperty input (ps_name f));
        [apply quietKey_parsed; apply Hparsers; exact Hq|].
      destruct (ps_isOptional f); reflexivity.
    + destruct sigParsers as [|sp sps] eqn:Hsp.
      * apply forallb_forall. intros o Ho.
        apply in_map_iff in Ho. destruct Ho as [k [<- _]].
        unfold RecordWalk.unexpected. rewrite strict.
        match goal with
        | |- quietKey (if ?c then _ else _) = true => destruct c; reflexivity
        end.
      * rewrite <- Hsp in *. apply forallb_forall. intros o Ho.
        apply in_flat_map in Ho. destruct Ho as [[sig [par ty]] [Hq Ho]].
        apply in_combine_r in Hq. rewrite Forall_forall in Hsigs.
        destruct (Hsigs _ Hq) as [Hpar Hty]. simpl in Hpar, Hty.
        unfold RecordWalk.indexSignature in Ho. simpl in Ho.
        apply in_flat_map in Ho. destruct Ho as [k [_ Ho]].
        unfold RecordWalk.indexKey in Ho. specialize (Hpar (keyValue k)).
        destruct (par (keyValue k) options); try discriminate.
        -- destruct Ho as [<- | []]. reflexivity.
        -- destruct Ho as [<- | []]. apply quietKey_parsed. exact Hty.
Qed.

(** The [Union] parser does not warn when the parsers of its branches do
    not. *)
Lemma union_neverWarns (types : list Parser) :
  Forall (neverWarns options) types -> neverWarns options (UnionParser.parse types).
Proof.
  intros Htypes x. unfold UnionParser.parse.
  assert (Hloop : forall st,
             u_output st = None ->
             PE.hasWarnings
               match UnionParser.forTypes x options types st with
               | Return t => t
               | Next st' => UnionParser.computeOutput x st'
               end = false).
  { induction Htypes as [|p types Hp Hrest IH]; intros st Hnone; simpl.
    - unfold UnionParser.computeOutput. rewrite Hnone.
      destruct (I.isNonEmpty (u_es st)); reflexivity.
    - unfold UnionParser.memberBody. specialize (Hp x).
      destruct (p x options); try discriminate.
      + apply IH. exact Hnone.
      + reflexivity. }
  apply Hloop. reflexivity.
Qed.

End Quiet.

(** X8.  Without [isUnexpectedAllowed], a schema without [Refinement] and
    [Transform] nodes, in an environment without hooks, never yields a
    [Warning]: every result is a [Success] or a [Failure]. *)
Theorem strict_parse_never_warns (as_ : Direction) (schema : AST) (u : value)
  (options : option ParseOptions) :
  hookFree env ->
  structural schema = true ->
  optIsUnexpectedAllowed options = false ->
  PE.hasWarnings (go env as_ schema u options) = false.
Proof.
  intros Hhooks Hstructural Hstrict. revert u.
  change (neverWarns options (go env as_ schema)).
  revert Hstructural.
  induction schema as [ast IH] using AST_children_ind.
  destruct ast; simpl in *; intros Hs.
  - (* TypeAlias *)
    rewrite Hhooks. apply andb_true_iff in Hs. destruct Hs as [Ht _].
    inversion IH as [|x xs Hx Hxs]; subst. apply Hx. exact Ht.
  - (* Literal *) intros x. unfold I.fromRefinement. destruct (strictEquals _ _); reflexivity.
  - (* UniqueSymbol *)
    intros x. unfold I.fromRefinement. destruct (strictEquals _ _); reflexivity.
  - (* UndefinedKeyword *) intros x. destruct x; reflexivity.
  - (* VoidKeyword *) intros x. destruct x; reflexivity.
  - (* NeverKeyword *) intros x. reflexivity.
  - (* UnknownKeyword *) intros x. reflexivity.
  - (* AnyKeyword *) intros x. reflexivity.
  - (* StringKeyword *) intros x. destruct x; reflexivity.
  - (* NumberKeyword *) intros x. destruct x; reflexivity.
  - (* BooleanKeyword *) intros x. destruct x; reflexivity.
  - (* BigIntKeyword *)
    intros x. destruct (I.isBigInt x); [reflexivity|].
    destruct (isString x || isNumber x || isBoolean x); [|reflexivity].
    destruct (BigInt env x); reflexivity.
  - (* SymbolKeyword *) intros x. destruct x; reflexivity.
  - (* ObjectKeyword *) intros x. destruct x; reflexivity.
  - (* Tuple *)
    apply andb_true_iff in Hs. destruct Hs as [Hels Hrest].
    apply Forall_app in IH. destruct IH as [IHels IHrest].
    apply (tuple_neverWarns Hstrict).
    + apply (Forall_go as_ (@e_type AST) elements structural _ IHels Hels).
    + intros head tail Heq. destruct rest as [[h t]|]; [|discriminate].
      injection Heq as <- <-.
      apply andb_true_iff in Hrest. destruct Hrest as [Hh Ht].
      inversion IHrest as [|x xs Hx Hxs]; subst.
      split; [apply Hx; exact Hh|].
      rewrite <- (map_id t) in Hxs.
      apply (Forall_go as_ (fun a => a) t structural _ Hxs Ht).
  - (* TypeLiteral *)
    apply andb_true_iff in Hs. destruct Hs as [Hps His].
    apply Forall_app in IH. destruct IH as [IHps IHis].
    apply Forall_app in IHis. destruct IHis as [IHpar IHty].
    apply (record_neverWarns Hstrict).
    + apply (Forall_go as_ (@ps_type AST) propertySignatures structural _ IHps Hps).
    + clear - IHpar IHty His.
      induction indexSignatures as [|s l IHl]; simpl in *; constructor.
      * apply andb_true_iff in His. destruct His as [Hs _].
        apply andb_true_iff in Hs. destruct Hs as [Hp Ht].
        inversion IHpar; inversion IHty; subst. simpl. split; auto.
      * apply andb_true_iff in His. destruct His as [_ Hl].
        inversion IHpar; inversion IHty; subst. apply IHl; assumption.
  - (* Union *)
    apply (union_neverWarns).
    rewrite <- (map_id types) in IH.
    apply (Forall_go as_ (fun a => a) types structural _ IH Hs).
  - (* Lazy *)
    inversion IH as [|x xs Hx Hxs]; subst. intros x. apply (Hx Hs x).
  - (* Enums *)
    intros x. destruct (existsb _ enums); reflexivity.
  - (* Refinement *) discriminate.
  - (* TemplateLiteral *)
    intros x. destruct x; try reflexivity.
    destruct (getTemplateLiteralRegex env _ s); reflexivity.
  - (* Transform *) discriminate.
Qed.

(* ----------------------------------------------------------------- *)
(** ** [allErrors] changes the errors of a failure only *)

Lemma agree_same (t1 t2 : ParseResult) : t1 = t2 -> agree t1 t2.
Proof. intros H. right. exact H. Qed.

Lemma agreeWalk_cons (o1 o2 : Walk.Outcome) (os1 os2 : list Walk.Outcome) :
  (Walk.isFatal o1 = true /\ Walk.isFatal o2 = true) \/ o1 = o2 ->
  agreeWalk os1 os2 ->
  agreeWalk (o1 :: os1) (o2 :: os2).
Proof.
  unfold agreeWalk. simpl.
  intros [[H1 H2] | ->] [[H3 H4] | ->].
  - left. rewrite H1, H2. split; reflexivity.
  - left. rewrite H1, H2. split; reflexivity.
  - left. rewrite H3, H4, !orb_true_r. split; reflexivity.
  - right. reflexivity.
Qed.

Lemma agreeWalk_app (a1 a2 b1 b2 : list Walk.Outcome) :
  agreeWalk a1 a2 -> agreeWalk b1 b2 -> agreeWalk (a1 ++ b1) (a2 ++ b2).
Proof.
  unfold agreeWalk. rewrite !existsb_app.
  intros [[H1 H2] | ->] [[H3 H4] | ->].
  - left. rewrite H1, H2. split; reflexivity.
  - left. rewrite H1, H2. split; reflexivity.
  - left. rewrite H3, H4, !orb_true_r. split; reflexivity.
  - right. reflexivity.
Qed.

Lemma agreeWalk_same (os : list Walk.Outcome) : agreeWalk os os.
Proof. right. reflexivity. Qed.

Section Agree.
Variables o1 o2 : option ParseOptions.
Hypothesis sameAllowed : optIsUnexpectedAllowed o1 = optIsUnexpectedAllowed o2.

Lemma agree_parsed (input : list value) (i : nat) (parser : Parser) :
  agreeParser o1 o2 parser ->
  (Walk.isFatal (Walk.parsed input o1 i parser) = true
   /\ Walk.isFatal (Walk.parsed input o2 i parser) = true)
  \/ Walk.parsed input o1 i parser = Walk.parsed input o2 i parser.
Proof.
  intros Hp. unfold Walk.parsed.
  destruct (Hp (nth i input VUndefined)) as [[H1 H2] | Heq].
  - left. destruct (parser (nth i input VUndefined) o1); try discriminate.
    destruct (parser (nth i input VUndefined) o2); try discriminate.
    split; reflexivity.
  - right. rewrite Heq. reflexivity.
Qed.

Lemma agree_elements (input : list value) (todo : list (Element AST * Parser)) :
  Forall (fun q => agreeParser o1 o2 (snd q)) todo ->
  forall i, agreeWalk (Walk.elements input o1 i todo) (Walk.elements input o2 i todo).
Proof.
  induction 1 as [|[e p] todo Hp Hrest IH]; intros i; simpl.
  - apply agreeWalk_same.
  - apply agreeWalk_cons; [|apply IH].
    unfold Walk.element. destruct (Walk.present input i).
    + apply agree_parsed. exact Hp.
    + right. reflexivity.
Qed.

Lemma agree_restRegion (input : list value) (head : Parser) (from n : nat) :
  agreeParser o1 o2 head ->
  agreeWalk (Walk.restRegion input o1 head from n) (Walk.restRegion input o2 head from n).
Proof.
  intros Hp. unfold Walk.restRegion. revert from.
  induction n as [|n IH]; intros from; simpl.
  - apply agreeWalk_same.
  - apply agreeWalk_cons; [apply agree_parsed; exact Hp | apply IH].
Qed.

Lemma agree_postRest (input : list value) (tail : list Parser) :
  Forall (agreeParser o1 o2) tail ->
  forall i j,
    agreeWalk (postRestAsRun input o1 i j tail) (postRestAsRun input o2 i j tail).
Proof.
  induction 1 as [|p tail Hp Hrest IH]; intros i j; simpl.
  - apply agreeWalk_same.
  - destruct (Walk.present input (i + j)); [|apply agreeWalk_same].
    apply agreeWalk_cons; [apply agree_parsed; exact Hp | apply IH].
Qed.

Lemma same_unexpectedRegion (input : list value) (from n : nat) :
  Walk.unexpectedRegion input o1 from n = Walk.unexpectedRegion input o2 from n.
Proof.
  unfold Walk.unexpectedRegion. apply map_ext. intros i.
  unfold Walk.unexpected. rewrite sameAllowed. reflexivity.
Qed.

(** The results of the [Tuple] parser under the two options agree when
    those of the parsers of its children do. *)
Lemma tuple_agree (astElements : list (Element AST)) (parsers : list Parser)
  (rest : option (Parser * list Parser)) :
  Forall (agreeParser o1 o2) parsers ->
  (forall head tail, rest = Some (head, tail) ->
     agreeParser o1 o2 head /\ Forall (agreeParser o1 o2) tail) ->
  agreeParser o1 o2 (TupleParser.parse astElements parsers rest).
Proof.
  intros Hparsers Hrest x. unfold TupleParser.parse.
  destruct x as [| | | | | | |input|]; try (apply agree_same; reflexivity).
  destruct (parseArray_asRun input o1 astElements parsers rest) as [Hfails1 Hreport1].
  destruct (parseArray_asRun input o2 astElements parsers rest) as [Hfails2 Hreport2].
  simpl in Hfails1, Hreport1, Hfails2, Hreport2.
  assert (Hwalk : agreeWalk (asRun input o1 astElements parsers rest)
                    (asRun input o2 astElements parsers rest)).
  { unfold asRun, Walk.tuple. apply agreeWalk_app.
    - apply agree_elements. apply Forall_combine_r. exact Hparsers.
    - destruct rest as [[head tail]|].
      + destruct (Hrest head tail eq_refl) as [Hhead Htail].
        apply agreeWalk_app; [apply agree_restRegion; exact Hhead|].
        apply agree_postRest. exact Htail.
      + rewrite same_unexpectedRegion. apply agreeWalk_same. }
  destruct Hwalk as [[H1 H2] | Heq].
  - left. rewrite Hfails1, Hfails2, H1, H2. split; reflexivity.
  - destruct (existsb Walk.isFatal (asRun input o1 astElements parsers rest)) eqn:Hfatal.
    + left. rewrite Hfails1, Hfails2, <- Heq, Hfatal. split; reflexivity.
    + right. rewrite (Hreport1 eq_refl).
      rewrite <- Heq in Hreport2. rewrite (Hreport2 Hfatal).
      unfold Walk.report. reflexivity.
Qed.

Lemma agreeRecordWalk_app (a1 a2 b1 b2 : list RecordWalk.Outcome) :
  agreeRecordWalk a1 a2 -> agreeRecordWalk b1 b2 ->
  agreeRecordWalk (a1 ++ b1) (a2 ++ b2).
Proof.
  unfold agreeRecordWalk. rewrite !existsb_app.
  intros [[H1 H2] | ->] [[H3 H4] | ->].
  - left. rewrite H1, H2. split; reflexivity.
  - left. rewrite H1, H2. split; reflexivity.
  - left. rewrite H3, H4, !orb_true_r. split; reflexivity.
  - right. reflexivity.
Qed.

Lemma agreeRecordWalk_flat (B : Type) (f1 f2 : B -> list RecordWalk.Outcome)
  (l : list B) :
  (forall b, In b l -> agreeRecordWalk (f1 b) (f2 b)) ->
  agreeRecordWalk (flat_map f1 l) (flat_map f2 l).
Proof.
  induction l as [|b l IH]; intros H; simpl.
  - right. reflexivity.
  - apply agreeRecordWalk_app.
    + apply H. left. reflexivity.
    + apply IH. intros b' Hb'. apply H. right. exact Hb'.
Qed.

Lemma agree_parsed_key (input : list (PropertyKey * value)) (k : PropertyKey)
  (parser : Parser) :
  agreeParser o1 o2 parser ->
  agreeRecordWalk [RecordWalk.parsed input o1 k parser]
    [RecordWalk.parsed input o2 k parser].
Proof.
  intros Hp. unfold RecordWalk.parsed, agreeRecordWalk. simpl.
  destruct (Hp (getProperty input k)) as [[H1 H2] | Heq].
  - left. destruct (parser (getProperty input k) o1); try discriminate.
    destruct (parser (getProperty input k) o2); try discriminate.
    split; reflexivity.
  - right. rewrite Heq. reflexivity.
Qed.

(** The results of the [TypeLiteral] parser under the two options agree
    when those of the parsers of its children do. *)
Lemma record_agree (ast : AST) (propertySignatures : list (PropertySignature AST))
  (parsers : list Parser) (indexSignatures : list (IndexSignature AST))
  (sigParsers : list (Parser * Parser)) :
  Forall (agreeParser o1 o2) parsers ->
  Forall (fun sp => agreeParser o1 o2 (fst sp) /\ agreeParser o1 o2 (snd sp))
    sigParsers ->
  agreeParser o1 o2
    (RecordParser.parse ast propertySignatures parsers indexSignatures sigParsers).
Proof.
  intros Hparsers Hsigs x. unfold RecordParser.parse.
  destruct ((List.length parsers =? 0) && (List.length sigParsers =? 0)).
  { apply agree_same. reflexivity. }
  destruct x as [| | | | | | | |input]; try (apply agree_same; reflexivity).
  destruct (parseObject_walk input o1 propertySignatures parsers
              indexSignatures sigParsers) as [Hfails1 Hreport1].
  destruct (parseObject_walk input o2 propertySignatures parsers
              indexSignatures sigParsers) as [Hfails2 Hreport2].
  simpl in Hfails1, Hreport1, Hfails2, Hreport2.
  assert (Hwalk : agreeRecordWalk
                    (RecordWalk.record input o1 propertySignatures parsers
                       indexSignatures sigParsers)
                    (RecordWalk.record input o2 propertySignatures parsers
                       indexSignatures sigParsers)).
  { unfold RecordWalk.record. apply agreeRecordWalk_app.
    - assert (Hmap : forall o (l : list (PropertySignature AST * Parser)),
                 map (RecordWalk.property input o) l
                 = flat_map (fun q => [RecordWalk.property input o q]) l).
      { intros o l. induction l as [|q l IH]; simpl; [reflexivity|].
        rewrite IH. reflexivity. }
      rewrite !Hmap. apply agreeRecordWalk_flat.
      intros [f p] Hq. apply in_combine_r in Hq.
      rewrite Forall_forall in Hparsers.
      unfold RecordWalk.property. simpl.
      destruct (hasOwnProperty input (ps_name f)).
      + apply agree_parsed_key. apply Hparsers. exact Hq.
      + right. reflexivity.
    - destruct sigParsers as [|sp sps] eqn:Hsp.
      + right. apply map_ext. intros k.
        unfold RecordWalk.unexpected. rewrite sameAllowed. reflexivity.
      + rewrite <- Hsp in *. apply agreeRecordWalk_flat.
        intros [sig [par ty]] Hq. apply in_combine_r in Hq.
        rewrite Forall_forall in Hsigs.
        destruct (Hsigs _ Hq) as [Hpar Hty]. simpl in Hpar, Hty.
        unfold RecordWalk.indexSignature. simpl.
        apply agreeRecordWalk_flat. intros k _.
        unfold RecordWalk.indexKey.
        destruct (Hpar (keyValue k)) as [[H1 H2] | Heq].
        * left. destruct (par (keyValue k) o1); try discriminate.
          destruct (par (keyValue k) o2); try discriminate.
          split; reflexivity.
        * rewrite Heq. destruct (par (keyValue k) o2).
          -- right. reflexivity.
          -- apply (@agreeRecordWalk_app [_] [_] [_] [_]);
               [right; reflexivity | apply agree_parsed_key; exact Hty].
          -- apply agree_parsed_key. exact Hty. }
  destruct Hwalk as [[H1 H2] | Heq].
  - left. rewrite Hfails1, Hfails2, H1, H2. split; reflexivity.
  - destruct (existsb RecordWalk.isFatal
                (RecordWalk.record input o1 propertySignatures parsers
                   indexSignatures sigParsers)) eqn:Hfatal.
    + left. rewrite Hfails1, Hfails2, <- Heq, Hfatal. split; reflexivity.
    + right. rewrite (Hreport1 eq_refl).
      rewrite <- Heq in Hreport2. rewrite (Hreport2 Hfatal). reflexivity.
Qed.

(** The results of the [Union] parser under the two options agree when
    those of the parsers of its branches do. *)
Lemma union_agree (types : list Parser) :
  Forall (agreeParser o1 o2) types -> agreeParser o1 o2 (UnionParser.parse types).
Proof.
  intros Htypes x. unfold UnionParser.parse.
  assert (Hloop : forall st1 st2,
             u_output st1 = u_output st2 ->
             I.isNonEmpty (u_es st1) = I.isNonEmpty (u_es st2) ->
             agree
               match UnionParser.forTypes x o1 types st1 with
               | Return t => t
               | Next st' => UnionParser.computeOutput x st'
               end
               match UnionParser.forTypes x o2 types st2 with
               | Return t => t
               | Next st' => UnionParser.computeOutput x st'
               end).
  { induction Htypes as [|p types Hp Hrest IH]; intros st1 st2 Hout Hes; simpl.
    - unfold UnionParser.computeOutput. rewrite Hout, Hes.
      destruct (u_output st2) as [[l r]|]; [right; reflexivity|].
      destruct (I.isNonEmpty (u_es st2)); left; split; reflexivity.
    - unfold UnionParser.memberBody.
      assert (Hfail : forall es1 es2,
                 agree
                   match UnionParser.forTypes x o1 types
                           {| u_es := u_es st1 ++ [PE.member es1];
                              u_output := u_output st1 |} with
                   | Return t => t
                   | Next st' => UnionParser.computeOutput x st'
                   end
                   match UnionParser.forTypes x o2 types
                           {| u_es := u_es st2 ++ [PE.member es2];
                              u_output := u_output st2 |} with
                   | Return t => t
                   | Next st' => UnionParser.computeOutput x st'
                   end).
      { intros es1 es2. apply IH; simpl; [exact Hout|].
        rewrite !isNonEmpty_snoc. reflexivity. }
      destruct (Hp x) as [[H1 H2] | Heq].
      + destruct (p x o1) as [es1| |]; try discriminate.
        destruct (p x o2) as [es2| |]; try discriminate.
        apply Hfail.
      + rewrite Heq. destruct (p x o2) as [es|es a|a].
        * apply Hfail.
        * rewrite Hout. destruct (u_output st2) as [[oleft oright]|] eqn:Hout2.
          -- destruct (UnionParser.unexpectedCount es <? UnionParser.unexpectedCount oleft).
             ++ apply IH; [reflexivity | exact Hes].
             ++ apply IH; [congruence | exact Hes].
          -- apply IH; [reflexivity | exact Hes].
        * right. reflexivity. }
  apply Hloop; reflexivity.
Qed.

End Agree.

Lemma blind_cases (as_ : Direction) (ast : AST) :
  blind as_ ast = true -> as_ = guard \/ transformFree ast = true.
Proof. destruct as_; simpl; intros H; [right; exact H | left; reflexivity | right; exact H]. Qed.

Lemma blind_forallb (as_ : Direction) (B : Type) (g : B -> AST) (l : list B) :
  as_ = guard \/ forallb (fun b => transformFree (g b)) l = true ->
  forallb (fun b => blind as_ (g b)) l = true.
Proof.
  intros [-> | H].
  - induction l as [|b l IH]; simpl; [reflexivity | exact IH].
  - destruct as_; simpl; try exact H.
    clear H. induction l as [|b l IH]; simpl; [reflexivity | exact IH].
Qed.

Lemma blind_child (as_ : Direction) (ast : AST) :
  as_ = guard \/ transformFree ast = true -> blind as_ ast = true.
Proof. intros [-> | H]; [reflexivity|]. destruct as_; simpl; try exact H; reflexivity. Qed.

Lemma agree_flatMap (f : value -> ParseResult) (t1 t2 : ParseResult) :
  agree t1 t2 -> agree (I.flatMap f t1) (I.flatMap f t2).
Proof.
  intros [[H1 H2] | ->]; [|right; reflexivity].
  destruct t1; try discriminate. destruct t2; try discriminate.
  left. split; reflexivity.
Qed.

(** The results of a compiled parser under two options that differ in
    [allErrors] only agree. *)
Lemma go_agree (as_ : Direction) (o1 o2 : option ParseOptions) (ast : AST) :
  hookFree env ->
  optIsUnexpectedAllowed o1 = optIsUnexpectedAllowed o2 ->
  blind as_ ast = true ->
  agreeParser o1 o2 (go env as_ ast).
Proof.
  intros Hhooks Hsame.
  induction ast as [ast IH] using AST_children_ind.
  intros Hs. pose proof (blind_cases as_ ast Hs) as Hc. clear Hs.
  destruct ast; simpl in *.
  - (* TypeAlias *)
    rewrite Hhooks. inversion IH as [|x xs Hx Hxs]; subst. apply Hx.
    apply blind_child. destruct Hc as [H | H]; [left; exact H | right].
    apply andb_true_iff in H. tauto.
  - (* Literal *) intros x. apply agree_same. reflexivity.
  - (* UniqueSymbol *) intros x. apply agree_same. reflexivity.
  - (* UndefinedKeyword *) intros x. apply agree_same. reflexivity.
  - (* VoidKeyword *) intros x. apply agree_same. reflexivity.
  - (* NeverKeyword *) intros x. apply agree_same. reflexivity.
  - (* UnknownKeyword *) intros x. apply agree_same. reflexivity.
  - (* AnyKeyword *) intros x. apply agree_same. reflexivity.
  - (* StringKeyword *) intros x. apply agree_same. reflexivity.
  - (* NumberKeyword *) intros x. apply agree_same. reflexivity.
  - (* BooleanKeyword *) intros x. apply agree_same. reflexivity.
  - (* BigIntKeyword *) intros x. apply agree_same. reflexivity.
  - (* SymbolKeyword *) intros x. apply agree_same. reflexivity.
  - (* ObjectKeyword *) intros x. apply agree_same. reflexivity.
  - (* Tuple *)
    apply Forall_app in IH. destruct IH as [IHels IHrest].
    apply (tuple_agree Hsame).
    + apply (Forall_go as_ (@e_type AST) elements (blind as_) _ IHels).
      apply blind_forallb. destruct Hc as [H | H]; [left; exact H | right].
      apply andb_true_iff in H. tauto.
    + intros head tail Heq. destruct rest as [[h t]|]; [|discriminate].
      injection Heq as <- <-.
      inversion IHrest as [|x xs Hx Hxs]; subst.
      split.
      * apply Hx. apply blind_child. destruct Hc as [H | H]; [left; exact H | right].
        apply andb_true_iff in H. destruct H as [_ H].
        apply andb_true_iff in H. tauto.
      * rewrite <- (map_id t) in Hxs.
        apply (Forall_go as_ (fun a => a) t (blind as_) _ Hxs).
        apply blind_forallb. destruct Hc as [H | H]; [left; exact H | right].
        apply andb_true_iff in H. destruct H as [_ H].
        apply andb_true_iff in H. tauto.
  - (* TypeLiteral *)
    apply Forall_app in IH. destruct IH as [IHps IHis].
    apply Forall_app in IHis. destruct IHis as [IHpar IHty].
    apply (record_agree Hsame).
    + apply (Forall_go as_ (@ps_type AST) propertySignatures (blind as_) _ IHps).
      apply blind_forallb. destruct Hc as [H | H]; [left; exact H | right].
      apply andb_true_iff in H. tauto.
    + assert (His : as_ = guard
                    \/ forallb (fun s => transformFree (is_parameter s)
                                         && transformFree (is_type s))
                         indexSignatures = true).
      { destruct Hc as [H | H]; [left; exact H | right].
        apply andb_true_iff in H. tauto. }
      clear - IHpar IHty His.
      induction indexSignatures as [|s l IHl]; simpl in *; constructor.
      * inversion IHpar as [|x xs Hx Hxs]; inversion IHty as [|y ys Hy Hys]; subst.
        simpl. split; [apply Hx | apply Hy]; apply blind_child;
          (destruct His as [H | H]; [left; exact H | right]);
          apply andb_true_iff in H; destruct H as [H _];
          apply andb_true_iff in H; tauto.
      * inversion IHpar as [|x xs Hx Hxs]; inversion IHty as [|y ys Hy Hys]; subst.
        apply IHl; try assumption.
        destruct His as [H | H]; [left; exact H | right].
        apply andb_true_iff in H. tauto.
  - (* Union *)
    apply (union_agree).
    rewrite <- (map_id types) in IH.
    apply (Forall_go as_ (fun a => a) types (blind as_) _ IH).
    apply blind_forallb. exact Hc.
  - (* Lazy *)
    inversion IH as [|x xs Hx Hxs]; subst. intros x.
    apply (Hx (@blind_child _ _ Hc) x).
  - (* Enums *) intros x. apply agree_same. reflexivity.
  - (* Refinement *)
    inversion IH as [|x xs Hx Hxs]; subst. intros x.
    apply agree_flatMap. apply (Hx (@blind_child _ _ Hc) x).
  - (* TemplateLiteral *) intros x. apply agree_same. reflexivity.
  - (* Transform *)
    destruct Hc as [-> | H]; [|discriminate].
    inversion IH as [|x xs Hx Hxs]; subst.
    inversion Hxs as [|y ys Hy Hys]; subst.
    apply Hy. reflexivity.
Qed.

(** X9.  Without hooks, [allErrors] changes the errors of a failure and
    nothing else: under two options with the same [isUnexpectedAllowed],
    the results of a parser that runs no function of a [Transform] (the
    guard of any schema, or any direction of a schema without
    [Transform]) are both failures or are the same result.  In
    particular [is] does not depend on [allErrors]. *)
Theorem allErrors_changes_failures_only (schema : AST) (u : value)
  (o1 o2 : option ParseOptions) :
  hookFree env ->
  optIsUnexpectedAllowed o1 = optIsUnexpectedAllowed o2 ->
  (forall as_,
      as_ = guard \/ transformFree schema = true ->
      agree (go env as_ schema u o1) (go env as_ schema u o2))
  /\ is_ env schema u o1 = is_ env schema u o2.
Proof.
  intros Hhooks Hsame.
  assert (Hagree : forall as_,
             as_ = guard \/ transformFree schema = true ->
             agree (go env as_ schema u o1) (go env as_ schema u o2)).
  { intros as_ Hc.
    apply (@go_agree as_ o1 o2 schema Hhooks Hsame (@blind_child _ _ Hc)). }
  split; [exact Hagree|].
  unfold is_, parserFor.
  destruct (Hagree guard (or_introl eq_refl)) as [[H1 H2] | Heq].
  - rewrite H1, H2. reflexivity.
  - rewrite Heq. reflexivity.
Qed.

(* ----------------------------------------------------------------- *)
(** ** The errors of a result *)

Section Located.
Variable inner : list ParseError -> bool.
Variable outer : ParseError -> bool.
Variable options : option ParseOptions.

Lemma located_snoc (es : list ParseError) (e : ParseError) :
  forallb outer es = true -> outer e = true ->
  located outer (PE.failures (I.mutableAppend es e)) = true.
Proof.
  intros Hes He. unfold PE.failures, I.mutableAppend, located.
  rewrite isNonEmpty_snoc, forallb_app. simpl. rewrite Hes, He. reflexivity.
Qed.

Lemma forallb_snoc (es : list ParseError) (e : ParseError) :
  forallb outer es = true -> outer e = true -> forallb outer (es ++ [e]) = true.
Proof.
  intros Hes He. rewrite forallb_app. simpl. rewrite Hes, He. reflexivity.
Qed.

Section TupleLocated.
Variable input : list value.
Hypothesis Hindex :
  forall i errors, inner errors = true -> outer (PE.Index i errors) = true.
Hypothesis Hmissing : forall i, outer (PE.Index i [PE.Missing]) = true.
Hypothesis Hunexpected : forall i v, outer (PE.Index i [PE.Unexpected v]) = true.

Lemma restBody_located (parser : Parser) (st : TupleState) :
  (forall x, childOk inner (parser x options) = true) ->
  forallb outer (t_es st) = true ->
  locatedTuple outer (TupleParser.restBody input options parser st).
Proof.
  intros Hp Hst. unfold TupleParser.restBody.
  specialize (Hp (TupleParser.at_ input (t_i st))).
  destruct (parser (TupleParser.at_ input (t_i st)) options) as [l|l a|a];
    simpl in Hp.
  - destruct (optAllErrors options); simpl.
    + apply forallb_snoc; [exact Hst | apply Hindex; exact Hp].
    + apply located_snoc; [exact Hst | apply Hindex; exact Hp].
  - simpl. apply forallb_snoc; [exact Hst | apply Hindex; exact Hp].
  - exact Hst.
Qed.

Lemma elementBody_located (e : Element AST) (parser : Parser) (st : TupleState) :
  (forall x, childOk inner (parser x options) = true) ->
  forallb outer (t_es st) = true ->
  locatedTuple outer (TupleParser.elementBody input options e parser st).
Proof.
  intros Hp Hst. unfold TupleParser.elementBody.
  destruct (List.length input <? t_i st + 1).
  - destruct (e_isOptional e); [exact Hst|].
    destruct (optAllErrors options); simpl.
    + apply forallb_snoc; [exact Hst | apply Hmissing].
    + apply andb_true_iff. split; [apply Hmissing | reflexivity].
  - exact (restBody_located parser st Hp Hst).
Qed.

Lemma forElements_located (todo : list (Element AST * Parser)) :
  Forall (fun ep => forall x, childOk inner (snd ep x options) = true) todo ->
  forall st,
    forallb outer (t_es st) = true ->
    locatedTuple outer (TupleParser.forElements input options todo st).
Proof.
  induction todo as [|[e parser] todo IH]; intros Hall st Hst; simpl.
  - exact Hst.
  - inversion Hall as [|x xs Hx Hxs]; subst.
    pose proof (elementBody_located e parser st Hx Hst) as Hbody.
    destruct (TupleParser.elementBody input options e parser st) as [t|st'].
    + exact Hbody.
    + apply (IH Hxs). exact Hbody.
Qed.

Lemma forRest_located (head : Parser) (n : nat) :
  (forall x, childOk inner (head x options) = true) ->
  forall st,
    forallb outer (t_es st) = true ->
    locatedTuple outer (TupleParser.forRest input options head n st).
Proof.
  intros Hp. induction n as [|n IH]; intros st Hst; simpl.
  - exact Hst.
  - pose proof (restBody_located head st Hp Hst) as Hbody.
    destruct (TupleParser.restBody input options head st) as [t|st'].
    + exact Hbody.
    + apply IH. exact Hbody.
Qed.

Lemma postRestBody_located (parser : Parser) (j : nat) (st : TupleState) :
  (forall x, childOk inner (parser x options) = true) ->
  forallb outer (t_es st) = true ->
  locatedTuple outer (TupleParser.postRestBody input options parser j st).
Proof.
  intros Hp Hst. unfold TupleParser.postRestBody.
  destruct (List.length input <? _).
  - simpl. apply located_snoc; [exact Hst | apply Hmissing].
  - exact (restBody_located parser (TupleParser.setIndex (t_i st + j) st) Hp Hst).
Qed.

Lemma forPostRest_located (todo : list Parser) :
  Forall (fun p : Parser => forall x, childOk inner (p x options) = true) todo ->
  forall j st,
    forallb outer (t_es st) = true ->
    locatedTuple outer (TupleParser.forPostRest input options todo j st).
Proof.
  induction todo as [|parser todo IH]; intros Hall j st Hst; simpl.
  - exact Hst.
  - inversion Hall as [|x xs Hx Hxs]; subst.
    pose proof (postRestBody_located parser j st Hx Hst) as Hbody.
    destruct (TupleParser.postRestBody input options parser j st) as [t|st'].
    + exact Hbody.
    + apply (IH Hxs). exact Hbody.
Qed.

Lemma forUnexpected_located (n : nat) :
  forall st,
    forallb outer (t_es st) = true ->
    locatedTuple outer (TupleParser.forUnexpected input options n st).
Proof.
  induction n as [|n IH]; intros st Hst; simpl.
  - exact Hst.
  - unfold TupleParser.unexpectedBody.
    destruct (optIsUnexpectedAllowed options).
    + apply IH. simpl. apply forallb_snoc; [exact Hst | apply Hunexpected].
    + destruct (optAllErrors options).
      * apply IH. simpl. apply forallb_snoc; [exact Hst | apply Hunexpected].
      * apply located_snoc; [exact Hst | apply Hunexpected].
Qed.

Lemma tuple_computeOutput_located (st : TupleState) :
  forallb outer (t_es st) = true -> located outer (TupleParser.computeOutput st) = true.
Proof.
  intros Hst. unfold TupleParser.computeOutput.
  destruct (I.isNonEmpty (t_es st)) eqn:Hne; [|reflexivity].
  destruct (t_isLeft st); simpl; rewrite Hne, Hst; reflexivity.
Qed.

(** The errors of the [Tuple] parser satisfy [outer] when [outer] holds of
    the [Index] errors that wrap [Missing], [Unexpected] or the errors of
    an element. *)
Lemma parseArray_located (astElements : list (Element AST)) (parsers : list Parser)
  (rest : option (Parser * list Parser)) :
  Forall (fun p : Parser => forall x, childOk inner (p x options) = true) parsers ->
  (forall head tail, rest = Some (head, tail) ->
     (forall x, childOk inner (head x options) = true)
     /\ Forall (fun p : Parser => forall x, childOk inner (p x options) = true) tail) ->
  located outer (TupleParser.parseArray input options astElements parsers rest) = true.
Proof.
  intros Hparsers Hrest. unfold TupleParser.parseArray.
  assert (Htodo : Forall (fun ep : Element AST * Parser =>
                            forall x, childOk inner (snd ep x options) = true)
                    (combine astElements parsers)).
  { clear Hrest. revert astElements.
    induction Hparsers as [|p ps Hp Hps IH]; intros [|e es]; simpl; constructor.
    - exact Hp.
    - apply IH. }
  pose proof (forElements_located Htodo TupleParser.initial eq_refl) as Hels.
  destruct (TupleParser.forElements input options (combine astElements parsers)
              TupleParser.initial) as [t|st1]; [exact Hels|].
  simpl in Hels. unfold TupleParser.afterElements.
  destruct rest as [[head tail]|].
  - destruct (Hrest head tail eq_refl) as [Hhead Htail].
    pose proof (@forRest_located head
                  (List.length input - List.length tail - t_i st1) Hhead st1 Hels)
      as Hregion.
    destruct (TupleParser.forRest input options head
                (List.length input - List.length tail - t_i st1) st1) as [t|st2];
      [exact Hregion|].
    pose proof (forPostRest_located Htail 0 st2 Hregion) as Hpost.
    destruct (TupleParser.forPostRest input options tail 0 st2) as [t|st3];
      [exact Hpost|].
    apply tuple_computeOutput_located. exact Hpost.
  - pose proof (forUnexpected_located (List.length input - t_i st1) st1 Hels) as Hextra.
    destruct (TupleParser.forUnexpected input options
                (List.length input - t_i st1) st1) as [t|st2]; [exact Hextra|].
    apply tuple_computeOutput_located. exact Hextra.
Qed.

End TupleLocated.

Section RecordLocated.
Variable input : list (PropertyKey * value).
Hypothesis Hkey :
  forall k errors, inner errors = true -> outer (PE.Key k errors) = true.
Hypothesis Hmissing : forall k, outer (PE.Key k [PE.Missing]) = true.
Hypothesis Hunexpected : forall k v, outer (PE.Key k [PE.Unexpected v]) = true.

Lemma indexValue_located (type : Parser) (key : PropertyKey) (st : RecordState) :
  (forall x, childOk inner (type x options) = true) ->
  forallb outer (r_es st) = true ->
  locatedRecord outer (RecordParser.indexValue input options type key st).
Proof.
  intros Hp Hst. unfold RecordParser.indexValue.
  specialize (Hp (getProperty input key)).
  destruct (type (getProperty input key) options) as [l|l a|a]; simpl in Hp.
  - destruct (optAllErrors options); simpl.
    + apply forallb_snoc; [exact Hst | apply Hkey; exact Hp].
    + apply located_snoc; [exact Hst | apply Hkey; exact Hp].
  - simpl. apply forallb_snoc; [exact Hst | apply Hkey; exact Hp].
  - exact Hst.
Qed.

Lemma propertyBody_located (ps : PropertySignature AST) (parser : Parser)
  (st : RecordState) :
  (forall x, childOk inner (parser x options) = true) ->
  forallb outer (r_es st) = true ->
  locatedRecord outer (RecordParser.propertyBody input options ps parser st).
Proof.
  intros Hp Hst. unfold RecordParser.propertyBody.
  destruct (negb (hasOwnProperty input (ps_name ps))).
  - destruct (ps_isOptional ps); [exact Hst|].
    destruct (optAllErrors options); simpl.
    + apply forallb_snoc; [exact Hst | apply Hmissing].
    + apply andb_true_iff. split; [apply Hmissing | reflexivity].
  - exact (indexValue_located parser (ps_name ps)
             (RecordParser.expect (ps_name ps) st) Hp Hst).
Qed.

Lemma forProperties_located (todo : list (PropertySignature AST * Parser)) :
  Forall (fun fp => forall x, childOk inner (snd fp x options) = true) todo ->
  forall st,
    forallb outer (r_es st) = true ->
    locatedRecord outer (RecordParser.forProperties input options todo st).
Proof.
  induction todo as [|[ps parser] todo IH]; intros Hall st Hst; simpl.
  - exact Hst.
  - inversion Hall as [|x xs Hx Hxs]; subst.
    pose proof (propertyBody_located ps parser st Hx Hst) as Hbody.
    destruct (RecordParser.propertyBody input options ps parser st) as [t|st'].
    + exact Hbody.
    + apply (IH Hxs). exact Hbody.
Qed.

Lemma indexBody_located (parameter type : Parser) (key : PropertyKey)
  (st : RecordState) :
  (forall x, childOk inner (parameter x options) = true) ->
  (forall x, childOk inner (type x options) = true) ->
  forallb outer (r_es st) = true ->
  locatedRecord outer (RecordParser.indexBody input options parameter type key st).
Proof.
  intros Hp Ht Hst. unfold RecordParser.indexBody.
  specialize (Hp (keyValue key)).
  destruct (parameter (keyValue key) options) as [l|l a|a]; simpl in Hp.
  - destruct (optAllErrors options); simpl.
    + apply forallb_snoc; [exact Hst | apply Hkey; exact Hp].
    + apply located_snoc; [exact Hst | apply Hkey; exact Hp].
  - apply indexValue_located; [exact Ht|].
    simpl. apply forallb_snoc; [exact Hst | apply Hkey; exact Hp].
  - apply indexValue_located; assumption.
Qed.

Lemma forKeys_located (parameter type : Parser) (keys : list PropertyKey) :
  (forall x, childOk inner (parameter x options) = true) ->
  (forall x, childOk inner (type x options) = true) ->
  forall st,
    forallb outer (r_es st) = true ->
    locatedRecord outer (RecordParser.forKeys input options parameter type keys st).
Proof.
  intros Hp Ht. induction keys as [|key keys IH]; intros st Hst; simpl.
  - exact Hst.
  - pose proof (indexBody_located parameter type key st Hp Ht Hst) as Hbody.
    destruct (RecordParser.indexBody input options parameter type key st) as [t|st'].
    + exact Hbody.
    + apply IH. exact Hbody.
Qed.

Lemma forIndexSignatures_located
  (todo : list (IndexSignature AST * (Parser * Parser))) :
  Forall (fun sp => (forall x, childOk inner (fst (snd sp) x options) = true)
                    /\ (forall x, childOk inner (snd (snd sp) x options) = true))
    todo ->
  forall st,
    forallb outer (r_es st) = true ->
    locatedRecord outer (RecordParser.forIndexSignatures input options todo st).
Proof.
  induction todo as [|[sig [parameter type]] todo IH]; intros Hall st Hst; simpl.
  - exact Hst.
  - inversion Hall as [|x xs [Hp Ht] Hxs]; subst. simpl in Hp, Ht.
    pose proof (forKeys_located parameter type
                  (I.getKeysForIndexSignature input (is_parameter sig)) Hp Ht st Hst)
      as Hkeys.
    destruct (RecordParser.forKeys input options parameter type
                (I.getKeysForIndexSignature input (is_parameter sig)) st) as [t|st'].
    + exact Hkeys.
    + apply (IH Hxs). exact Hkeys.
Qed.

Lemma forUnexpected_record_located (keys : list PropertyKey) :
  forall st,
    forallb outer (r_es st) = true ->
    locatedRecord outer (RecordParser.forUnexpected input options keys st).
Proof.
  induction keys as [|key keys IH]; intros st Hst; simpl.
  - exact Hst.
  - unfold RecordParser.unexpectedBody.
    destruct (negb (RecordParser.isExpected st key)); [|apply IH; exact Hst].
    destruct (optIsUnexpectedAllowed options).
    + apply IH. simpl. apply forallb_snoc; [exact Hst | apply Hunexpected].
    + destruct (optAllErrors options).
      * apply IH. simpl. apply forallb_snoc; [exact Hst | apply Hunexpected].
      * apply located_snoc; [exact Hst | apply Hunexpected].
Qed.

Lemma record_computeOutput_located (st : RecordState) :
  forallb outer (r_es st) = true -> located outer (RecordParser.computeOutput st) = true.
Proof.
  intros Hst. unfold RecordParser.computeOutput.
  destruct (I.isNonEmpty (r_es st)) eqn:Hne; [|reflexivity].
  destruct (r_isLeft st); simpl; rewrite Hne, Hst; reflexivity.
Qed.

(** The errors of the [TypeLiteral] parser satisfy [outer] when [outer]
    holds of the [Key] errors that wrap [Missing], [Unexpected] or the
    errors of a signature's parser. *)
Lemma parseObject_located (propertySignatures : list (PropertySignature AST))
  (parsers : list Parser) (indexSignatures : list (IndexSignature AST))
  (sigParsers : list (Parser * Parser)) :
  Forall (fun p : Parser => forall x, childOk inner (p x options) = true) parsers ->
  Forall (fun sp : Parser * Parser =>
            (forall x, childOk inner (fst sp x options) = true)
            /\ (forall x, childOk inner (snd sp x options) = true)) sigParsers ->
  located outer
    (RecordParser.parseObject input options propertySignatures parsers
       indexSignatures sigParsers) = true.
Proof.
  intros Hparsers Hsigs. unfold RecordParser.parseObject.
  assert (Htodo : Forall (fun fp : PropertySignature AST * Parser =>
                            forall x, childOk inner (snd fp x options) = true)
                    (combine propertySignatures parsers)).
  { revert propertySignatures.
    induction Hparsers as [|p ps Hp Hps IH]; intros [|f fs]; simpl; constructor.
    - exact Hp.
    - apply IH. }
  assert (Hsigtodo : Forall (fun sp : IndexSignature AST * (Parser * Parser) =>
                               (forall x, childOk inner (fst (snd sp) x options) = true)
                               /\ (forall x, childOk inner (snd (snd sp) x options) = true))
                       (combine indexSignatures sigParsers)).
  { revert indexSignatures.
    induction Hsigs as [|p ps Hp Hps IH]; intros [|s ss]; simpl; constructor.
    - exact Hp.
    - apply IH. }
  pose proof (forProperties_located Htodo RecordParser.initial eq_refl) as Hprops.
  destruct (RecordParser.forProperties input options
              (combine propertySignatures parsers) RecordParser.initial) as [t|st1];
    [exact Hprops|].
  simpl in Hprops. unfold RecordParser.afterProperties.
  destruct (0 <? List.length sigParsers).
  - pose proof (forIndexSignatures_located Hsigtodo st1 Hprops) as Hindex.
    destruct (RecordParser.forIndexSignatures input options
                (combine indexSignatures sigParsers) st1) as [t|st2]; [exact Hindex|].
    apply record_computeOutput_located. exact Hindex.
  - pose proof (forUnexpected_record_located (I.ownKeys input) st1 Hprops) as Hextra.
    destruct (RecordParser.forUnexpected input options (I.ownKeys input) st1)
      as [t|st2]; [exact Hextra|].
    apply record_computeOutput_located. exact Hextra.
Qed.

End RecordLocated.

End Located.

Lemma childOk_wellFormed (t : ParseResult) :
  childOk nonEmptyWellFormed t = wellFormedResult t.
Proof. destruct t; reflexivity. Qed.

Lemma located_wellFormed (t : ParseResult) :
  located wellFormed t = wellFormedResult t.
Proof. destruct t; reflexivity. Qed.

Lemma wellFormed_children (parsers : list Parser) (options : option ParseOptions) :
  Forall wellFormedParser parsers ->
  Forall (fun p : Parser => forall x, childOk nonEmptyWellFormed (p x options) = true)
    parsers.
Proof.
  intros H. apply (Forall_impl _ (P := wellFormedParser)); [|exact H].
  intros p Hp x. rewrite childOk_wellFormed. apply Hp.
Qed.

Lemma tuple_wellFormed (astElements : list (Element AST)) (parsers : list Parser)
  (rest : option (Parser * list Parser)) :
  Forall wellFormedParser parsers ->
  (forall head tail, rest = Some (head, tail) ->
     wellFormedParser head /\ Forall wellFormedParser tail) ->
  wellFormedParser (TupleParser.parse astElements parsers rest).
Proof.
  intros Hparsers Hrest x options. unfold TupleParser.parse.
  destruct x as [| | | | | | |input|]; try reflexivity.
  rewrite <- located_wellFormed.
  apply (@parseArray_located nonEmptyWellFormed wellFormed options input).
  - intros i errors H. exact H.
  - reflexivity.
  - reflexivity.
  - apply wellFormed_children. exact Hparsers.
  - intros head tail Heq. destruct (Hrest head tail Heq) as [Hhead Htail]. split.
    + intros y. rewrite childOk_wellFormed. apply Hhead.
    + apply wellFormed_children. exact Htail.
Qed.

Lemma record_wellFormed (ast : AST) (propertySignatures : list (PropertySignature AST))
  (parsers : list Parser) (indexSignatures : list (IndexSignature AST))
  (sigParsers : list (Parser * Parser)) :
  Forall wellFormedParser parsers ->
  Forall (fun sp => wellFormedParser (fst sp) /\ wellFormedParser (snd sp)) sigParsers ->
  wellFormedParser
    (RecordParser.parse ast propertySignatures parsers indexSignatures sigParsers).
Proof.
  intros Hparsers Hsigs x options. unfold RecordParser.parse.
  destruct ((List.length parsers =? 0) && (List.length sigParsers =? 0)).
  { unfold I.fromRefinement. destruct (I.isNotNull x); reflexivity. }
  destruct x as [| | | | | | | |input]; try reflexivity.
  rewrite <- located_wellFormed.
  apply (@parseObject_located nonEmptyWellFormed wellFormed options input).
  - intros k errors H. exact H.
  - reflexivity.
  - reflexivity.
  - apply wellFormed_children. exact Hparsers.
  - apply (Forall_impl _ (P := fun sp : Parser * Parser =>
                                 wellFormedParser (fst sp) /\ wellFormedParser (snd sp)));
      [|exact Hsigs].
    intros sp [Hp Ht].
    split; intros y; rewrite childOk_wellFormed; [apply Hp | apply Ht].
Qed.

Lemma forTypes_wellFormed (u : value) (options : option ParseOptions)
  (types : list Parser) :
  Forall wellFormedParser types ->
  forall st,
    wellFormedUnionState st ->
    wellFormedUnion (UnionParser.forTypes u options types st).
Proof.
  induction types as [|p types IH]; intros Hall st Hst; simpl.
  - exact Hst.
  - inversion Hall as [|x xs Hp Hxs]; subst.
    specialize (Hp u options). destruct Hst as [Hes Hout].
    unfold UnionParser.memberBody.
    destruct (p u options) as [l|l a|a]; simpl in Hp.
    + apply (IH Hxs). split; simpl; [|exact Hout].
      rewrite forallb_app. simpl. unfold PE.member. simpl.
      rewrite Hes, Hp. reflexivity.
    + destruct (u_output st) as [[oleft oright]|] eqn:Hcandidate.
      * destruct (UnionParser.unexpectedCount l <? UnionParser.unexpectedCount oleft).
        -- apply (IH Hxs). split; [exact Hes | exact Hp].
        -- apply (IH Hxs). split; [exact Hes|]. rewrite Hcandidate. exact Hout.
      * apply (IH Hxs). split; [exact Hes | exact Hp].
    + reflexivity.
Qed.

Lemma union_wellFormed (types : list Parser) :
  Forall wellFormedParser types -> wellFormedParser (UnionParser.parse types).
Proof.
  intros Htypes u options. unfold UnionParser.parse.
  pose proof (@forTypes_wellFormed u options types Htypes UnionParser.initial
                (conj eq_refl I)) as Hloop.
  destruct (UnionParser.forTypes u options types UnionParser.initial) as [t|st];
    [exact Hloop|].
  destruct Hloop as [Hes Hout]. unfold UnionParser.computeOutput.
  destruct (u_output st) as [[l a]|]; [exact Hout|].
  destruct (I.isNonEmpty (u_es st)) eqn:Hne; simpl; [|reflexivity].
  rewrite Hne, Hes. reflexivity.
Qed.

(** X10.  The results of a schema without [Refinement] and [Transform]
    nodes, in an environment without hooks, are well formed: a [Failure]
    and a [Warning] carry an error at least, and so does every [Index],
    [Key] and [Member] error inside them, at every depth. *)
Theorem results_are_well_formed (as_ : Direction) (schema : AST) (u : value)
  (options : option ParseOptions) :
  hookFree env ->
  structural schema = true ->
  wellFormedResult (go env as_ schema u options) = true.
Proof.
  intros Hhooks Hstructural. revert u options.
  change (wellFormedParser (go env as_ schema)).
  revert Hstructural.
  induction schema as [ast IH] using AST_children_ind.
  destruct ast; simpl in *; intros Hs.
  - (* TypeAlias *)
    rewrite Hhooks. apply andb_true_iff in Hs. destruct Hs as [Ht _].
    inversion IH as [|x xs Hx Hxs]; subst. apply Hx. exact Ht.
  - (* Literal *)
    intros x o. unfold I.fromRefinement. destruct (strictEquals _ _); reflexivity.
  - (* UniqueSymbol *)
    intros x o. unfold I.fromRefinement. destruct (strictEquals _ _); reflexivity.
  - (* UndefinedKeyword *) intros x o. destruct x; reflexivity.
  - (* VoidKeyword *) intros x o. destruct x; reflexivity.
  - (* NeverKeyword *) intros x o. reflexivity.
  - (* UnknownKeyword *) intros x o. reflexivity.
  - (* AnyKeyword *) intros x o. reflexivity.
  - (* StringKeyword *) intros x o. destruct x; reflexivity.
  - (* NumberKeyword *) intros x o. destruct x; reflexivity.
  - (* BooleanKeyword *) intros x o. destruct x; reflexivity.
  - (* BigIntKeyword *)
    intros x o. destruct (I.isBigInt x); [reflexivity|].
    destruct (isString x || isNumber x || isBoolean x); [|reflexivity].
    destruct (BigInt env x); reflexivity.
  - (* SymbolKeyword *) intros x o. destruct x; reflexivity.
  - (* ObjectKeyword *) intros x o. destruct x; reflexivity.
  - (* Tuple *)
    apply andb_true_iff in Hs. destruct Hs as [Hels Hrest].
    apply Forall_app in IH. destruct IH as [IHels IHrest].
    apply tuple_wellFormed.
    + apply (Forall_go as_ (@e_type AST) elements structural _ IHels Hels).
    + intros head tail Heq. destruct rest as [[h t]|]; [|discriminate].
      injection Heq as <- <-.
      apply andb_true_iff in Hrest. destruct Hrest as [Hh Ht].
      inversion IHrest as [|x xs Hx Hxs]; subst.
      split; [apply Hx; exact Hh|].
      rewrite <- (map_id t) in Hxs.
      apply (Forall_go as_ (fun a => a) t structural _ Hxs Ht).
  - (* TypeLiteral *)
    apply andb_true_iff in Hs. destruct Hs as [Hps His].
    apply Forall_app in IH. destruct IH as [IHps IHis].
    apply Forall_app in IHis. destruct IHis as [IHpar IHty].
    apply record_wellFormed.
    + apply (Forall_go as_ (@ps_type AST) propertySignatures structural _ IHps Hps).
    + clear - IHpar IHty His.
      induction indexSignatures as [|s l IHl]; simpl in *; constructor.
      * apply andb_true_iff in His. destruct His as [Hs _].
        apply andb_true_iff in Hs. destruct Hs as [Hp Ht].
        inversion IHpar; inversion IHty; subst. simpl. split; auto.
      * apply andb_true_iff in His. destruct His as [_ Hl].
        inversion IHpar; inversion IHty; subst. apply IHl; assumption.
  - (* Union *)
    apply union_wellFormed.
    rewrite <- (map_id types) in IH.
    apply (Forall_go as_ (fun a => a) types structural _ IH Hs).
  - (* Lazy *)
    inversion IH as [|x xs Hx Hxs]; subst. intros x o. apply (Hx Hs x o).
  - (* Enums *)
    intros x o. destruct (existsb _ enums); reflexivity.
  - (* Refinement *) discriminate.
  - (* TemplateLiteral *)
    intros x o. destruct x; try reflexivity.
    destruct (getTemplateLiteralRegex env _ s); reflexivity.
  - (* Transform *) discriminate.
Qed.

(** X11.  Every error that a [Tuple] reports for an array is an [Index]
    error, and every error that a [TypeLiteral] with a property or an
    index signature reports for an object is a [Key] error, whatever the
    parsers of the elements and of the signatures do: an error of the
    list of a [Failure] or of a [Warning] always names the position it
    belongs to. *)
Theorem errors_name_their_position (as_ : Direction) (options : option ParseOptions) :
  (forall elements rest isReadonly input,
      forallb PE.isIndex
        (PE.errorsOf (go env as_ (Tuple elements rest isReadonly) (VArray input) options))
      = true)
  /\ (forall propertySignatures indexSignatures input,
        propertySignatures <> [] \/ indexSignatures <> [] ->
        forallb PE.isKey
          (PE.errorsOf
             (go env as_ (TypeLiteral propertySignatures indexSignatures)
                (VObject input) options))
        = true).
Proof.
  assert (Hany : forall parsers : list Parser,
             Forall (fun p : Parser =>
                       forall x, childOk (fun _ => true) (p x options) = true) parsers).
  { intros parsers. apply Forall_forall. intros p _ x.
    destruct (p x options); reflexivity. }
  assert (Herrors : forall (outer : ParseError -> bool) t,
             located outer t = true -> forallb outer (PE.errorsOf t) = true).
  { intros outer t H. destruct t; simpl in *; try reflexivity;
      apply andb_true_iff in H; tauto. }
  split.
  - intros elements rest isReadonly input. apply Herrors. simpl.
    apply (@parseArray_located (fun _ => true) PE.isIndex options input).
    + reflexivity.
    + reflexivity.
    + reflexivity.
    + apply Hany.
    + intros head tail _. split; [|apply Hany].
      intros x. destruct (head x options); reflexivity.
  - intros propertySignatures indexSignatures input Hnonempty. apply Herrors. simpl.
    unfold RecordParser.parse.
    rewrite (@fast_path_not_taken _ _ _ _ _ _ Hnonempty).
    apply (@parseObject_located (fun _ => true) PE.isKey options input).
    + reflexivity.
    + reflexivity.
    + reflexivity.
    + apply Hany.
    + apply Forall_forall. intros [p t] _. split; intros x; simpl.
      * destruct (p x options); reflexivity.
      * destruct (t x options); reflexivity.
Qed.

(* ----------------------------------------------------------------- *)
(** ** A success does not depend on the options *)

Lemma clean_map (O B : Type) (ok : O -> bool) (f1 f2 : B -> O) (l : list B) :
  (forall x, In x l -> ok (f1 x) = true -> f2 x = f1 x) ->
  forallb ok (map f1 l) = true -> map f2 l = map f1 l.
Proof.
  induction l as [|b l IH]; simpl; intros Hf Hok; [reflexivity|].
  apply andb_true_iff in Hok. destruct Hok as [Hb Hl].
  rewrite (Hf b (or_introl eq_refl) Hb), IH; [reflexivity | | exact Hl].
  intros x Hx. apply Hf. right. exact Hx.
Qed.

Lemma clean_flat_map (O B : Type) (ok : O -> bool) (f1 f2 : B -> list O) (l : list B) :
  (forall x, In x l -> forallb ok (f1 x) = true -> f2 x = f1 x) ->
  forallb ok (flat_map f1 l) = true -> flat_map f2 l = flat_map f1 l.
Proof.
  induction l as [|b l IH]; simpl; intros Hf Hok; [reflexivity|].
  rewrite forallb_app in Hok. apply andb_true_iff in Hok. destruct Hok as [Hb Hl].
  rewrite (Hf b (or_introl eq_refl) Hb), IH; [reflexivity | | exact Hl].
  intros x Hx. apply Hf. right. exact Hx.
Qed.

Lemma clean_no_fatal (os : list Walk.Outcome) :
  forallb clean os = true -> existsb Walk.isFatal os = false.
Proof.
  induction os as [|o os IH]; simpl; intros H; [reflexivity|].
  apply andb_true_iff in H. destruct H as [Ho Hos].
  rewrite (IH Hos). destruct o; try discriminate; reflexivity.
Qed.

Lemma clean_errors (os : list Walk.Outcome) :
  forallb clean os = true <-> Walk.errorsOf os = [].
Proof.
  unfold Walk.errorsOf. induction os as [|o os IH]; simpl.
  - split; reflexivity.
  - rewrite andb_true_iff, IH.
    destruct o; simpl; split; try discriminate; try tauto;
      intros [H _]; discriminate.
Qed.

Lemma report_success (os : list Walk.Outcome) (v : value) :
  Walk.report os = PE.Success v <->
  forallb clean os = true /\ v = VArray (Walk.valuesOf os).
Proof.
  rewrite clean_errors. unfold Walk.report.
  destruct (Walk.errorsOf os) as [|e es].
  - split.
    + intros H. injection H as <-. split; reflexivity.
    + intros [_ ->]. reflexivity.
  - split.
    + destruct (existsb Walk.isFatal os); discriminate.
    + intros [H _]. discriminate.
Qed.

Lemma cleanKey_no_fatal (os : list RecordWalk.Outcome) :
  forallb cleanKey os = true -> existsb RecordWalk.isFatal os = false.
Proof.
  induction os as [|o os IH]; simpl; intros H; [reflexivity|].
  apply andb_true_iff in H. destruct H as [Ho Hos].
  rewrite (IH Hos). destruct o; try discriminate; reflexivity.
Qed.

Lemma cleanKey_errors (os : list RecordWalk.Outcome) :
  forallb cleanKey os = true <-> RecordWalk.errorsOf os = [].
Proof.
  unfold RecordWalk.errorsOf. induction os as [|o os IH]; simpl.
  - split; reflexivity.
  - rewrite andb_true_iff, IH.
    destruct o; simpl; split; try discriminate; try tauto;
      intros [H _]; discriminate.
Qed.

Lemma recordReport_success (os : list RecordWalk.Outcome) (v : value) :
  RecordWalk.report os = PE.Success v <->
  forallb cleanKey os = true /\ v = VObject (RecordWalk.outputOf os).
Proof.
  rewrite cleanKey_errors. unfold RecordWalk.report.
  destruct (RecordWalk.errorsOf os) as [|e es].
  - split.
    + intros H. injection H as <-. split; reflexivity.
    + intros [_ ->]. reflexivity.
  - split.
    + destruct (existsb RecordWalk.isFatal os); discriminate.
    + intros [H _]. discriminate.
Qed.

Section Stable.
Variables o1 o2 : option ParseOptions.

Lemma stable_parsed (input : list value) (i : nat) (parser : Parser) :
  stable parser ->
  clean (Walk.parsed input o1 i parser) = true ->
  Walk.parsed input o2 i parser = Walk.parsed input o1 i parser.
Proof.
  intros Hp. unfold Walk.parsed.
  destruct (parser (nth i input VUndefined) o1) as [l|l a|a] eqn:H1;
    simpl; try discriminate.
  intros _. rewrite (Hp o1 o2 _ _ H1). reflexivity.
Qed.

Lemma stable_elements (input : list value) (todo : list (Element AST * Parser)) :
  Forall (fun q => stable (snd q)) todo ->
  forall i,
    forallb clean (Walk.elements input o1 i todo) = true ->
    Walk.elements input o2 i todo = Walk.elements input o1 i todo.
Proof.
  induction 1 as [|[e p] todo Hp Hrest IH]; intros i Hclean; simpl in *.
  - reflexivity.
  - apply andb_true_iff in Hclean. destruct Hclean as [He Htodo].
    rewrite (IH _ Htodo). f_equal.
    unfold Walk.element in *. destruct (Walk.present input i).
    + apply stable_parsed; assumption.
    + reflexivity.
Qed.

Lemma stable_restRegion (input : list value) (head : Parser) (from n : nat) :
  stable head ->
  forallb clean (Walk.restRegion input o1 head from n) = true ->
  Walk.restRegion input o2 head from n = Walk.restRegion input o1 head from n.
Proof.
  intros Hp. unfold Walk.restRegion. apply clean_map.
  intros i _. apply stable_parsed. exact Hp.
Qed.

Lemma stable_postRest (input : list value) (tail : list Parser) :
  Forall stable tail ->
  forall i j,
    forallb clean (postRestAsRun input o1 i j tail) = true ->
    postRestAsRun input o2 i j tail = postRestAsRun input o1 i j tail.
Proof.
  induction 1 as [|p tail Hp Htail IH]; intros i j Hclean; simpl in *.
  - reflexivity.
  - destruct (Walk.present input (i + j)); [|reflexivity].
    simpl in Hclean. apply andb_true_iff in Hclean. destruct Hclean as [Hhere Hthere].
    rewrite (IH _ _ Hthere), (stable_parsed input (i + j) Hp Hhere). reflexivity.
Qed.

Lemma stable_unexpectedRegion (input : list value) (from n : nat) :
  forallb clean (Walk.unexpectedRegion input o1 from n) = true ->
  Walk.unexpectedRegion input o2 from n = Walk.unexpectedRegion input o1 from n.
Proof.
  unfold Walk.unexpectedRegion. apply clean_map.
  intros i _. unfold Walk.unexpected.
  destruct (optIsUnexpectedAllowed o1); discriminate.
Qed.

(** The successes of the [Tuple] parser do not depend on the options when
    those of its children do not. *)
Lemma tuple_stable_step (astElements : list (Element AST)) (parsers : list Parser)
  (rest : option (Parser * list Parser)) (x a : value) :
  Forall stable parsers ->
  (forall head tail, rest = Some (head, tail) -> stable head /\ Forall stable tail) ->
  TupleParser.parse astElements parsers rest x o1 = PE.Success a ->
  TupleParser.parse astElements parsers rest x o2 = PE.Success a.
Proof.
  intros Hparsers Hrest. unfold TupleParser.parse.
  destruct x as [| | | | | | |input|]; try discriminate.
  intros H1.
  destruct (parseArray_asRun input o1 astElements parsers rest) as [Hfails1 Hreport1].
  destruct (parseArray_asRun input o2 astElements parsers rest) as [Hfails2 Hreport2].
  simpl in Hfails1, Hreport1, Hfails2, Hreport2.
  rewrite H1 in Hfails1. simpl in Hfails1.
  rewrite (Hreport1 (eq_sym Hfails1)) in H1.
  apply report_success in H1. destruct H1 as [Hclean ->].
  assert (Hwalk : asRun input o2 astElements parsers rest
                  = asRun input o1 astElements parsers rest).
  { unfold asRun, Walk.tuple in *.
    rewrite forallb_app in Hclean. apply andb_true_iff in Hclean.
    destruct Hclean as [Hels Hafter].
    rewrite (stable_elements input (Forall_combine_r astElements Hparsers) 0 Hels).
    f_equal.
    destruct rest as [[head tail]|].
    - destruct (Hrest head tail eq_refl) as [Hhead Htail].
      rewrite forallb_app in Hafter. apply andb_true_iff in Hafter.
      destruct Hafter as [Hregion Hpost].
      rewrite (stable_restRegion input _ _ Hhead Hregion).
      rewrite (stable_postRest input Htail _ _ Hpost). reflexivity.
    - apply stable_unexpectedRegion. exact Hafter. }
  rewrite Hwalk in Hreport2. rewrite (Hreport2 (eq_sym Hfails1)).
  apply report_success. split; [exact Hclean | reflexivity].
Qed.

Lemma stable_parsed_key (input : list (PropertyKey * value)) (k : PropertyKey)
  (parser : Parser) :
  stable parser ->
  cleanKey (RecordWalk.parsed input o1 k parser) = true ->
  RecordWalk.parsed input o2 k parser = RecordWalk.parsed input o1 k parser.
Proof.
  intros Hp. unfold RecordWalk.parsed.
  destruct (parser (getProperty input k) o1) as [l|l a|a] eqn:H1;
    simpl; try discriminate.
  intros _. rewrite (Hp o1 o2 _ _ H1). reflexivity.
Qed.

Lemma stable_indexKey (input : list (PropertyKey * value)) (parameter type : Parser)
  (key : PropertyKey) :
  stable parameter -> stable type ->
  forallb cleanKey (RecordWalk.indexKey input o1 parameter type key) = true ->
  RecordWalk.indexKey input o2 parameter type key
  = RecordWalk.indexKey input o1 parameter type key.
Proof.
  intros Hpar Hty. unfold RecordWalk.indexKey.
  destruct (parameter (keyValue key) o1) as [l|l a|a] eqn:H1; simpl; try discriminate.
  rewrite (Hpar o1 o2 _ _ H1). rewrite andb_true_r. intros Hclean.
  rewrite (stable_parsed_key input key Hty Hclean). reflexivity.
Qed.

(** The successes of the [TypeLiteral] parser do not depend on the
    options when those of its children do not. *)
Lemma record_stable_step (ast : AST) (propertySignatures : list (PropertySignature AST))
  (parsers : list Parser) (indexSignatures : list (IndexSignature AST))
  (sigParsers : list (Parser * Parser)) (x a : value) :
  Forall stable parsers ->
  Forall (fun sp => stable (fst sp) /\ stable (snd sp)) sigParsers ->
  RecordParser.parse ast propertySignatures parsers indexSignatures sigParsers x o1
  = PE.Success a ->
  RecordParser.parse ast propertySignatures parsers indexSignatures sigParsers x o2
  = PE.Success a.
Proof.
  intros Hparsers Hsigs. unfold RecordParser.parse.
  destruct ((List.length parsers =? 0) && (List.length sigParsers =? 0));
    [intros H; exact H|].
  destruct x as [| | | | | | | |input]; try discriminate.
  intros H1.
  destruct (parseObject_walk input o1 propertySignatures parsers
              indexSignatures sigParsers) as [Hfails1 Hreport1].
  destruct (parseObject_walk input o2 propertySignatures parsers
              indexSignatures sigParsers) as [Hfails2 Hreport2].
  simpl in Hfails1, Hreport1, Hfails2, Hreport2.
  rewrite H1 in Hfails1. simpl in Hfails1.
  rewrite (Hreport1 (eq_sym Hfails1)) in H1.
  apply recordReport_success in H1. destruct H1 as [Hclean ->].
  assert (Hwalk : RecordWalk.record input o2 propertySignatures parsers
                    indexSignatures sigParsers
                  = RecordWalk.record input o1 propertySignatures parsers
                      indexSignatures sigParsers).
  { unfold RecordWalk.record in *.
    rewrite forallb_app in Hclean. apply andb_true_iff in Hclean.
    destruct Hclean as [Hprops Hafter].
    f_equal.
    - revert Hprops. apply clean_map.
      intros [f p] Hq. apply in_combine_r in Hq.
      rewrite Forall_forall in Hparsers.
      unfold RecordWalk.property. simpl.
      destruct (hasOwnProperty input (ps_name f)); [|reflexivity].
      apply stable_parsed_key. apply Hparsers. exact Hq.
    - destruct sigParsers as [|sp sps] eqn:Hsp.
      + revert Hafter. apply clean_map.
        intros key _. unfold RecordWalk.unexpected.
        match goal with
        | |- cleanKey (if ?c then _ else _) = true -> _ =>
            destruct c; [reflexivity|]
        end.
        destruct (optIsUnexpectedAllowed o1); discriminate.
      + rewrite <- Hsp in *. revert Hafter. apply clean_flat_map.
        intros [sig [par ty]] Hq. apply in_combine_r in Hq.
        rewrite Forall_forall in Hsigs.
        destruct (Hsigs _ Hq) as [Hpar Hty]. simpl in Hpar, Hty.
        unfold RecordWalk.indexSignature. simpl.
        apply clean_flat_map. intros key _.
        apply stable_indexKey; assumption. }
  rewrite Hwalk in Hreport2. rewrite (Hreport2 (eq_sym Hfails1)).
  apply recordReport_success. split; [exact Hclean | reflexivity].
Qed.

(** The successes of the [Union] parser do not depend on the options when
    those of its branches do not. *)
Lemma union_stable_step (types : list Parser) (u a : value) :
  Forall stable types ->
  UnionParser.parse types u o1 = PE.Success a ->
  UnionParser.parse types u o2 = PE.Success a.
Proof.
  intros Htypes. unfold UnionParser.parse.
  generalize UnionParser.initial at 1 as st1.
  generalize UnionParser.initial as st2.
  induction Htypes as [|p types Hp Htypes IH]; intros st2 st1; simpl.
  - unfold UnionParser.computeOutput.
    destruct (u_output st1) as [[l b]|]; [discriminate|].
    destruct (I.isNonEmpty (u_es st1)); discriminate.
  - unfold UnionParser.memberBody.
    destruct (p u o1) as [l1|l1 a1|a1] eqn:H1.
    + destruct (p u o2) as [l2|l2 a2|a2] eqn:H2.
      * apply IH.
      * destruct (u_output st2) as [[oleft oright]|];
          [destruct (UnionParser.unexpectedCount l2 <? UnionParser.unexpectedCount oleft)|];
          apply IH.
      * rewrite (Hp o2 o1 _ _ H2) in H1. discriminate.
    + destruct (p u o2) as [l2|l2 a2|a2] eqn:H2.
      * destruct (u_output st1) as [[oleft oright]|];
          [destruct (UnionParser.unexpectedCount l1 <? UnionParser.unexpectedCount oleft)|];
          apply IH.
      * destruct (u_output st1) as [[oleft oright]|];
          [destruct (UnionParser.unexpectedCount l1 <? UnionParser.unexpectedCount oleft)|];
          (destruct (u_output st2) as [[oleft2 oright2]|];
           [destruct (UnionParser.unexpectedCount l2
                      <? UnionParser.unexpectedCount oleft2)|]);
          apply IH.
      * rewrite (Hp o2 o1 _ _ H2) in H1. discriminate.
    + rewrite (Hp o1 o2 _ _ H1). intros H. exact H.
Qed.

End Stable.

Lemma stable_flatMap (decode : value -> ParseResult) (parser : Parser) :
  stable parser -> stable (fun u options => I.flatMap decode (parser u options)).
Proof.
  intros Hp o1 o2 x a. simpl.
  destruct (parser x o1) as [l|l b|b] eqn:H1; simpl.
  - discriminate.
  - destruct (decode b); discriminate.
  - rewrite (Hp o1 o2 _ _ H1). intros H. exact H.
Qed.

(** The successes of a compiled parser do not depend on the options. *)
Lemma go_stable (as_ : Direction) (ast : AST) :
  hookFree env -> blind as_ ast = true -> stable (go env as_ ast).
Proof.
  intros Hhooks.
  induction ast as [ast IH] using AST_children_ind.
  intros Hs. pose proof (@blind_cases as_ ast Hs) as Hc. clear Hs.
  destruct ast; simpl in *.
  - (* TypeAlias *)
    rewrite Hhooks. inversion IH as [|x xs Hx Hxs]; subst. apply Hx.
    apply blind_child. destruct Hc as [H | H]; [left; exact H | right].
    apply andb_true_iff in H. tauto.
  - (* Literal *) intros o1 o2 x a H. exact H.
  - (* UniqueSymbol *) intros o1 o2 x a H. exact H.
  - (* UndefinedKeyword *) intros o1 o2 x a H. exact H.
  - (* VoidKeyword *) intros o1 o2 x a H. exact H.
  - (* NeverKeyword *) intros o1 o2 x a H. exact H.
  - (* UnknownKeyword *) intros o1 o2 x a H. exact H.
  - (* AnyKeyword *) intros o1 o2 x a H. exact H.
  - (* StringKeyword *) intros o1 o2 x a H. exact H.
  - (* NumberKeyword *) intros o1 o2 x a H. exact H.
  - (* BooleanKeyword *) intros o1 o2 x a H. exact H.
  - (* BigIntKeyword *) intros o1 o2 x a H. exact H.
  - (* SymbolKeyword *) intros o1 o2 x a H. exact H.
  - (* ObjectKeyword *) intros o1 o2 x a H. exact H.
  - (* Tuple *)
    apply Forall_app in IH. destruct IH as [IHels IHrest].
    intros o1 o2 x a. apply tuple_stable_step.
    + apply (Forall_go as_ (@e_type AST) elements (blind as_) _ IHels).
      apply blind_forallb. destruct Hc as [H | H]; [left; exact H | right].
      apply andb_true_iff in H. tauto.
    + intros head tail Heq. destruct rest as [[h t]|]; [|discriminate].
      injection Heq as <- <-.
      inversion IHrest as [|y ys Hy Hys]; subst.
      split.
      * apply Hy. apply blind_child. destruct Hc as [H | H]; [left; exact H | right].
        apply andb_true_iff in H. destruct H as [_ H].
        apply andb_true_iff in H. tauto.
      * rewrite <- (map_id t) in Hys.
        apply (Forall_go as_ (fun a => a) t (blind as_) _ Hys).
        apply blind_forallb. destruct Hc as [H | H]; [left; exact H | right].
        apply andb_true_iff in H. destruct H as [_ H].
        apply andb_true_iff in H. tauto.
  - (* TypeLiteral *)
    apply Forall_app in IH. destruct IH as [IHps IHis].
    apply Forall_app in IHis. destruct IHis as [IHpar IHty].
    intros o1 o2 x a. apply record_stable_step.
    + apply (Forall_go as_ (@ps_type AST) propertySignatures (blind as_) _ IHps).
      apply blind_forallb. destruct Hc as [H | H]; [left; exact H | right].
      apply andb_true_iff in H. tauto.
    + assert (His : as_ = guard
                    \/ forallb (fun s => transformFree (is_parameter s)
                                         && transformFree (is_type s))
                         indexSignatures = true).
      { destruct Hc as [H | H]; [left; exact H | right].
        apply andb_true_iff in H. tauto. }
      clear - IHpar IHty His.
      induction indexSignatures as [|s l IHl]; simpl in *; constructor.
      * inversion IHpar as [|y ys Hy Hys]; inversion IHty as [|z zs Hz Hzs]; subst.
        simpl. split; [apply Hy | apply Hz]; apply blind_child;
          (destruct His as [H | H]; [left; exact H | right]);
          apply andb_true_iff in H; destruct H as [H _];
          apply andb_true_iff in H; tauto.
      * inversion IHpar as [|y ys Hy Hys]; inversion IHty as [|z zs Hz Hzs]; subst.
        apply IHl; try assumption.
        destruct His as [H | H]; [left; exact H | right].
        apply andb_true_iff in H. tauto.
  - (* Union *)
    intros o1 o2 x a. apply union_stable_step.
    rewrite <- (map_id types) in IH.
    apply (Forall_go as_ (fun a => a) types (blind as_) _ IH).
    apply blind_forallb. exact Hc.
  - (* Lazy *)
    inversion IH as [|y ys Hy Hys]; subst. intros o1 o2 x a.
    apply (Hy (@blind_child _ _ Hc) o1 o2 x a).
  - (* Enums *) intros o1 o2 x a H. exact H.
  - (* Refinement *)
    inversion IH as [|y ys Hy Hys]; subst.
    apply stable_flatMap. apply (Hy (@blind_child _ _ Hc)).
  - (* TemplateLiteral *) intros o1 o2 x a H. exact H.
  - (* Transform *)
    destruct Hc as [-> | H]; [|discriminate].
    inversion IH as [|y ys Hy Hys]; subst.
    inversion Hys as [|z zs Hz Hzs]; subst.
    apply Hz. reflexivity.
Qed.

(** X12.  A [Success] does not depend on the options: without hooks, when
    a parser that runs no function of a [Transform] (the guard of any
    schema, or any direction of a schema without [Transform]) yields
    [Success(a)] under some options, it yields [Success(a)] under all
    options.  So [allErrors] and [isUnexpectedAllowed] matter only for
    inputs that have something to report. *)
Theorem success_does_not_depend_on_options (as_ : Direction) (schema : AST)
  (u a : value) (o1 o2 : option ParseOptions) :
  hookFree env ->
  as_ = guard \/ transformFree schema = true ->
  go env as_ schema u o1 = PE.Success a ->
  go env as_ schema u o2 = PE.Success a.
Proof.
  intros Hhooks Hc.
  apply (@go_stable as_ schema Hhooks (@blind_child _ _ Hc) o1 o2 u a).
Qed.

(* ----------------------------------------------------------------- *)
(** ** What a tuple with a rest accepts *)

Lemma parsed_fatal (input : list value) (options : option ParseOptions) (i : nat)
  (parser : Parser) :
  Walk.isFatal (Walk.parsed input options i parser)
  = PE.isFailure (parser (nth i input VUndefined) options).
Proof. unfold Walk.parsed. destruct (parser _ options); reflexivity. Qed.

Lemma restRegion_no_fatal_iff (input : list value) (options : option ParseOptions)
  (head : Parser) (n : nat) :
  forall from,
    existsb Walk.isFatal (Walk.restRegion input options head from n) = false
    <-> forall i, from <= i -> i < from + n ->
                  PE.isFailure (head (nth i input VUndefined) options) = false.
Proof.
  unfold Walk.restRegion. induction n as [|n IH]; intros from; simpl.
  - split; [intros _ i H1 H2; lia | reflexivity].
  - rewrite orb_false_iff, IH, parsed_fatal. split.
    + intros [Hhere Hthere] i H1 H2.
      destruct (Nat.eq_dec i from) as [-> | Hne]; [exact Hhere|].
      apply Hthere; lia.
    + intros Hall. split.
      * apply Hall; lia.
      * intros i H1 H2. apply Hall; lia.
Qed.

Lemma postRestAsRun_no_fatal_iff (input : list value) (options : option ParseOptions)
  (start : nat) (tail : list Parser) :
  List.length tail <= 2 ->
  existsb Walk.isFatal (postRestAsRun input options start 0 tail) = false
  <-> forall j p,
        nth_error tail j = Some p ->
        start + j < List.length input
        /\ PE.isFailure (p (nth (start + j) input VUndefined) options) = false.
Proof.
  intros Hshort.
  destruct tail as [|a [|b [|c tail]]]; simpl in *; [| | |lia].
  - split; [|reflexivity]. intros _ j p Hj. destruct j; discriminate.
  - rewrite Nat.add_0_r. unfold Walk.present.
    destruct (Nat.ltb_spec start (List.length input)) as [Hlt | Hge]; simpl.
    + rewrite parsed_fatal, orb_false_r. split.
      * intros Ha j p Hj. destruct j as [|[|j]]; simpl in Hj; try discriminate.
        injection Hj as <-. rewrite Nat.add_0_r. split; assumption.
      * intros Hall. specialize (Hall 0 a eq_refl).
        rewrite Nat.add_0_r in Hall. tauto.
    + split; [discriminate|]. intros Hall. specialize (Hall 0 a eq_refl). lia.
  - rewrite Nat.add_0_r. unfold Walk.present.
    destruct (Nat.ltb_spec start (List.length input)) as [Hlt | Hge]; simpl.
    + destruct (Nat.ltb_spec (start + 1) (List.length input)) as [Hlt1 | Hge1]; simpl.
      * rewrite !parsed_fatal, orb_false_r, orb_false_iff. split.
        -- intros [Ha Hb] j p Hj. destruct j as [|[|[|j]]]; simpl in Hj; try discriminate.
           ++ injection Hj as <-. rewrite Nat.add_0_r. split; assumption.
           ++ injection Hj as <-. split; assumption.
        -- intros Hall.
           pose proof (Hall 0 a eq_refl) as H0. pose proof (Hall 1 b eq_refl) as H1.
           rewrite Nat.add_0_r in H0. tauto.
      * rewrite orb_true_r. split; [discriminate|].
        intros Hall. specialize (Hall 1 b eq_refl). lia.
    + split; [discriminate|]. intros Hall. specialize (Hall 0 a eq_refl). lia.
Qed.

(** X13.  A [Tuple] with a rest whose post-rest tail has two elements at
    most accepts an array (the result is not a [Failure]) exactly when
    every element is either present and accepted by its parser, or absent
    and optional; every position after the elements and before the last
    [tail.length] positions is accepted by the parser of the rest; and
    the post-rest elements are present and accepted at the positions that
    follow, which start after the elements also when the array is too
    short for them. *)
Theorem tuple_with_rest_accepts_iff (as_ : Direction) (elements : list (Element AST))
  (head : AST) (tail : list AST) (isReadonly : bool) (input : list value)
  (options : option ParseOptions) :
  List.length tail <= 2 ->
  (PE.isFailure
     (go env as_ (Tuple elements (Some (head, tail)) isReadonly) (VArray input) options)
   = false
   <-> (forall i e,
          nth_error elements i = Some e ->
          (i < List.length input
           /\ PE.isFailure (go env as_ (e_type e) (nth i input VUndefined) options) = false)
          \/ (List.length input <= i /\ e_isOptional e = true))
       /\ (forall i,
             List.length elements <= i ->
             i < List.length input - List.length tail ->
             PE.isFailure (go env as_ head (nth i input VUndefined) options) = false)
       /\ (forall j t,
             nth_error tail j = Some t ->
             let i := Nat.max (List.length elements)
                        (List.length input - List.length tail) + j in
             i < List.length input
             /\ PE.isFailure (go env as_ t (nth i input VUndefined) options) = false)).
Proof.
  intros Hshort. simpl. unfold TupleParser.parse.
  set (parsers := map (fun e => go env as_ (e_type e)) elements).
  destruct (parseArray_asRun input options elements parsers
              (Some (go env as_ head, map (go env as_) tail))) as [Hfails _].
  simpl in Hfails. rewrite Hfails. clear Hfails.
  unfold asRun, Walk.tuple, Walk.postRestStart.
  assert (Hlen : List.length (combine elements parsers) = List.length elements).
  { unfold parsers. rewrite length_combine, length_map. lia. }
  rewrite !existsb_app, !orb_false_iff, elements_no_fatal_iff,
    restRegion_no_fatal_iff, postRestAsRun_no_fatal_iff, Hlen, length_map
    by (rewrite length_map; exact Hshort).
  split.
  - intros [Hels [Hregion Hpost]]. split; [|split].
    + intros i e Hi.
      apply (Hels i e (go env as_ (e_type e))).
      apply nth_error_combine_with_map. exact Hi.
    + intros i H1 H2. apply Hregion; lia.
    + intros j t Hj. apply (Hpost j (go env as_ t)).
      rewrite nth_error_map, Hj. reflexivity.
  - intros [Hels [Hregion Hpost]]. split; [|split].
    + intros i e p Hi. apply nth_error_combine_map in Hi. destruct Hi as [Hi ->].
      apply (Hels i e Hi).
    + intros i H1 H2. apply Hregion; lia.
    + intros j p Hj. rewrite nth_error_map in Hj.
      destruct (nth_error tail j) as [t|] eqn:Ht; [|discriminate].
      injection Hj as <-. apply (Hpost j t Ht).
Qed.

(* ----------------------------------------------------------------- *)
(** ** The output of a tuple *)

Lemma report_value (os : list Walk.Outcome) :
  existsb Walk.isFatal os = false ->
  PE.valueOf (Walk.report os) = Some (VArray (Walk.valuesOf os)).
Proof.
  intros Hfatal. unfold Walk.report.
  destruct (Walk.errorsOf os); [reflexivity|]. rewrite Hfatal. reflexivity.
Qed.

Lemma valuesOf_app (os1 os2 : list Walk.Outcome) :
  Walk.valuesOf (os1 ++ os2) = Walk.valuesOf os1 ++ Walk.valuesOf os2.
Proof. unfold Walk.valuesOf. apply flat_map_app. Qed.

Lemma parsed_value (input : list value) (options : option ParseOptions) (i : nat)
  (parser : Parser) :
  Walk.isFatal (Walk.parsed input options i parser) = false ->
  exists a,
    Walk.valueOf (Walk.parsed input options i parser) = [a]
    /\ PE.valueOf (parser (nth i input VUndefined) options) = Some a.
Proof.
  unfold Walk.parsed.
  destruct (parser (nth i input VUndefined) options) as [l|l a|a]; simpl;
    [discriminate | |]; intros _; exists a; split; reflexivity.
Qed.

Lemma elements_values (input : list value) (options : option ParseOptions)
  (todo : list (Element AST * Parser)) :
  forall i0,
    existsb Walk.isFatal (Walk.elements input options i0 todo) = false ->
    List.length (Walk.valuesOf (Walk.elements input options i0 todo))
    = Nat.min (List.length input - i0) (List.length todo)
    /\ forall i e p,
         nth_error todo i = Some (e, p) ->
         i0 + i < List.length input ->
         PE.valueOf (p (nth (i0 + i) input VUndefined) options)
         = nth_error (Walk.valuesOf (Walk.elements input options i0 todo)) i.
Proof.
  induction todo as [|[e p] todo IH]; intros i0 Hfatal; simpl in *.
  - split; [lia|]. intros i e p Hi. destruct i; discriminate.
  - apply orb_false_iff in Hfatal. destruct Hfatal as [Hhere Hthere].
    destruct (IH (i0 + 1) Hthere) as [Hlen Hnth].
    unfold Walk.valuesOf in *. simpl.
    unfold Walk.element, Walk.present in *.
    destruct (Nat.ltb_spec i0 (List.length input)) as [Hlt | Hge].
    + destruct (parsed_value input options i0 p Hhere) as [a [Ha Hvalue]].
      rewrite Ha. simpl. split; [rewrite Hlen; lia|].
      intros i e' p' Hi Hin. destruct i as [|i]; simpl in *.
      * injection Hi as <- <-. rewrite Nat.add_0_r. exact Hvalue.
      * replace (i0 + S i) with (i0 + 1 + i) by lia.
        apply (Hnth i e' p' Hi). lia.
    + destruct (e_isOptional e); [|discriminate]. simpl.
      split; [rewrite Hlen; lia|].
      intros i e' p' Hi Hin. lia.
Qed.

Lemma restRegion_values (input : list value) (options : option ParseOptions)
  (head : Parser) (n : nat) :
  forall from,
    existsb Walk.isFatal (Walk.restRegion input options head from n) = false ->
    List.length (Walk.valuesOf (Walk.restRegion input options head from n)) = n
    /\ forall i,
         i < n ->
         PE.valueOf (head (nth (from + i) input VUndefined) options)
         = nth_error (Walk.valuesOf (Walk.restRegion input options head from n)) i.
Proof.
  unfold Walk.restRegion, Walk.valuesOf.
  induction n as [|n IH]; intros from Hfatal; simpl in *.
  - split; [reflexivity|]. intros i Hi. lia.
  - apply orb_false_iff in Hfatal. destruct Hfatal as [Hhere Hthere].
    destruct (IH (S from) Hthere) as [Hlen Hnth].
    destruct (parsed_value input options from head Hhere) as [a [Ha Hvalue]].
    rewrite Ha. simpl. split; [rewrite Hlen; reflexivity|].
    intros i Hi. destruct i as [|i]; simpl.
    + rewrite Nat.add_0_r. exact Hvalue.
    + replace (from + S i) with (S from + i) by lia. apply Hnth. lia.
Qed.

Lemma unexpectedRegion_values (input : list value) (options : option ParseOptions)
  (from n : nat) :
  Walk.valuesOf (Walk.unexpectedRegion input options from n) = [].
Proof.
  unfold Walk.unexpectedRegion, Walk.valuesOf. revert from.
  induction n as [|n IH]; intros from; simpl; [reflexivity|].
  rewrite IH. unfold Walk.unexpected.
  destruct (optIsUnexpectedAllowed options); reflexivity.
Qed.

(** X14.  The output array of a [Tuple] without post-rest elements holds,
    position by position, the outputs of the parsers: the output of the
    parser of element [i] at every position [i] of the input that has an
    element, and with a rest the output of its parser at every later
    position.  Without a rest the positions after the elements are left
    out of the output, also when they are tolerated as unexpected. *)
Theorem tuple_output (as_ : Direction) (elements : list (Element AST))
  (rest : option AST) (isReadonly : bool) (input : list value)
  (options : option ParseOptions) (a : value) :
  PE.valueOf
    (go env as_
       (Tuple elements (option_map (fun head => (head, [])) rest) isReadonly)
       (VArray input) options)
  = Some a ->
  exists output,
    a = VArray output
    /\ (forall i e,
          nth_error elements i = Some e ->
          i < List.length input ->
          PE.valueOf (go env as_ (e_type e) (nth i input VUndefined) options)
          = nth_error output i)
    /\ match rest with
       | None => List.length output = Nat.min (List.length input) (List.length elements)
       | Some head =>
           List.length output = List.length input
           /\ forall i,
                List.length elements <= i ->
                i < List.length input ->
                PE.valueOf (go env as_ head (nth i input VUndefined) options)
                = nth_error output i
       end.
Proof.
  simpl. unfold TupleParser.parse.
  set (parsers := map (fun e => go env as_ (e_type e)) elements).
  set (rest' := match option_map (fun head => (head, @nil AST)) rest with
                | Some (head, tail) => Some (go env as_ head, map (go env as_) tail)
                | None => None
                end).
  intros Hvalue.
  destruct (parseArray_asRun input options elements parsers rest') as [Hfails Hreport].
  simpl in Hfails, Hreport.
  assert (Hfatal : existsb Walk.isFatal (asRun input options elements parsers rest')
                   = false).
  { rewrite <- Hfails.
    destruct (TupleParser.parseArray input options elements parsers rest');
      [discriminate | reflexivity | reflexivity]. }
  rewrite (Hreport Hfatal), (report_value _ Hfatal) in Hvalue.
  injection Hvalue as <-.
  exists (Walk.valuesOf (asRun input options elements parsers rest')).
  split; [reflexivity|].
  assert (Hlen : List.length (combine elements parsers) = List.length elements).
  { unfold parsers. rewrite length_combine, length_map. lia. }
  unfold asRun, Walk.tuple in *. rewrite Hlen in *.
  rewrite existsb_app in Hfatal. apply orb_false_iff in Hfatal.
  destruct Hfatal as [Hels Hafter].
  destruct (elements_values input options (combine elements parsers) 0 Hels)
    as [Hcount Hnth].
  rewrite Nat.sub_0_r, Hlen in Hcount.
  rewrite valuesOf_app.
  split.
  - intros i e Hi Hin.
    assert (Hbound : i < List.length elements)
      by (apply nth_error_Some; rewrite Hi; discriminate).
    rewrite nth_error_app1 by (rewrite Hcount; lia).
    apply (Hnth i e (go env as_ (e_type e))); [|exact Hin].
    apply nth_error_combine_with_map. exact Hi.
  - destruct rest as [head|]; simpl in *.
    + rewrite app_nil_r, Nat.sub_0_r in *.
      destruct (restRegion_values input options (go env as_ head)
                  (List.length input - List.length elements)
                  (List.length elements) Hafter) as [Hregion Hrest].
      split; [rewrite length_app, Hcount, Hregion; lia|].
      intros i H1 H2.
      rewrite nth_error_app2 by (rewrite Hcount; lia).
      rewrite Hcount.
      replace (Nat.min (List.length input) (List.length elements))
        with (List.length elements) by lia.
      rewrite <- (Hrest (i - List.length elements)) by lia.
      replace (List.length elements + (i - List.length elements)) with i by lia.
      reflexivity.
    + rewrite unexpectedRegion_values, app_nil_r. exact Hcount.
Qed.

(* ----------------------------------------------------------------- *)
(** ** The output of a type literal *)

Lemma property_stores (input : list (PropertyKey * value))
  (options : option ParseOptions) (f : PropertySignature AST) (p : Parser)
  (out0 : PlainObject) :
  RecordWalk.isFatal (RecordWalk.property input options (f, p)) = false ->
  (hasOwnProperty input (ps_name f) = true
   /\ exists a,
        RecordWalk.store out0 (RecordWalk.property input options (f, p))
        = assign out0 (ps_name f) a
        /\ PE.valueOf (p (getProperty input (ps_name f)) options) = Some a)
  \/ (hasOwnProperty input (ps_name f) = false
      /\ RecordWalk.store out0 (RecordWalk.property input options (f, p)) = out0).
Proof.
  unfold RecordWalk.property, RecordWalk.parsed. simpl.
  destruct (hasOwnProperty input (ps_name f)).
  - destruct (p (getProperty input (ps_name f)) options) as [l|l a|a]; simpl;
      [discriminate | |]; intros _; left; (split; [reflexivity|]);
      exists a; split; reflexivity.
  - destruct (ps_isOptional f); [|discriminate].
    intros _. right. split; reflexivity.
Qed.

(** The first assignment to [__proto__] finds the accessor: it creates
    no own property. *)
Lemma assign_proto_first (o : PlainObject) (v : value) :
  lookupProto (o_prototype o) = FoundAccessor ->
  hasOwnProperty (o_own o) protoKey = false ->
  o_own (assign o protoKey v) = o_own o.
Proof.
  intros Hlookup Hown. unfold assign.
  rewrite PropertyKey_eqb_refl, Hown, Hlookup. simpl.
  destruct (typeofObject v); reflexivity.
Qed.

Lemma properties_output (input : list (PropertyKey * value))
  (options : option ParseOptions) (todo : list (PropertySignature AST * Parser)) :
  NoDup (map (fun q : PropertySignature AST * Parser => ps_name (fst q)) todo) ->
  existsb RecordWalk.isFatal (map (RecordWalk.property input options) todo) = false ->
  forall out0,
    (forall f p,
        In (f, p) todo ->
        hasOwnProperty input (ps_name f) = true ->
        ps_name f <> protoKey ->
        holdsOutput input options p
          (o_own (fold_left RecordWalk.store
                    (map (RecordWalk.property input options) todo) out0))
          (ps_name f))
    /\ (forall k,
          ~ In k (map (fun q : PropertySignature AST * Parser => ps_name (fst q)) todo)
          \/ hasOwnProperty input k = false ->
          hasOwnProperty
            (o_own (fold_left RecordWalk.store
                      (map (RecordWalk.property input options) todo) out0))
            k = hasOwnProperty (o_own out0) k
          /\ getProperty
               (o_own (fold_left RecordWalk.store
                         (map (RecordWalk.property input options) todo) out0))
               k = getProperty (o_own out0) k)
    /\ (lookupProto (o_prototype out0) = FoundAccessor ->
        hasOwnProperty (o_own out0) protoKey = false ->
        hasOwnProperty
          (o_own (fold_left RecordWalk.store
                    (map (RecordWalk.property input options) todo) out0))
          protoKey = false).
Proof.
  induction todo as [|[f p] todo IH]; intros Hnodup Hfatal out0.
  - simpl. split; [intros f p []|]. split.
    + intros k _. split; reflexivity.
    + intros _ H. exact H.
  - inversion Hnodup as [|x xs Hnotin Hnodup']; subst.
    simpl in Hfatal. apply orb_false_iff in Hfatal. destruct Hfatal as [Hhere Hthere].
    change (fold_left RecordWalk.store
              (map (RecordWalk.property input options) ((f, p) :: todo)) out0)
      with (fold_left RecordWalk.store (map (RecordWalk.property input options) todo)
              (RecordWalk.store out0 (RecordWalk.property input options (f, p)))).
    destruct (IH Hnodup' Hthere
                (RecordWalk.store out0 (RecordWalk.property input options (f, p))))
      as [IH1 [IH2 IH3]].
    pose proof (property_stores input options f p out0 Hhere) as Hstore.
    simpl in Hnotin.
    split; [|split].
    + intros f' p' [Heq | Hin] Hown Hordinary.
      * injection Heq as <- <-.
        destruct (IH2 (ps_name f) (or_introl Hnotin)) as [H1 H2].
        unfold holdsOutput. rewrite H1, H2.
        destruct Hstore as [[_ [a [-> Hvalue]]] | [Habsent _]]; [|congruence].
        rewrite (assign_ordinary out0 a Hordinary). simpl.
        rewrite hasOwnProperty_setProperty_same, getProperty_setProperty_same.
        split; [reflexivity | exact Hvalue].
      * apply IH1; assumption.
    + intros k Hk.
      assert (Hk' : ~ In k (map (fun q : PropertySignature AST * Parser =>
                                   ps_name (fst q)) todo)
                    \/ hasOwnProperty input k = false).
      { destruct Hk as [H | H]; [left | right; exact H].
        intros Hin. apply H. right. exact Hin. }
      destruct (IH2 k Hk') as [H1 H2]. rewrite H1, H2.
      destruct Hstore as [[Hpresent [a [-> _]]] | [_ ->]]; [|split; reflexivity].
      assert (Hne : k <> ps_name f).
      { intros ->. destruct Hk as [H | H]; [|congruence].
        apply H. left. reflexivity. }
      apply (assign_other out0 a Hne).
    + intros Hlookup Hown.
      destruct Hstore as [[Hpresent [a [Hstored _]]] | [_ Hstored]]; rewrite Hstored in *.
      * destruct (PropertyKey_eqb (ps_name f) protoKey) eqn:Hname.
        -- apply PropertyKey_eqb_eq in Hname. rewrite Hname in *.
           destruct (IH2 protoKey (or_introl Hnotin)) as [H1 _]. rewrite H1.
           rewrite (assign_proto_first out0 a Hlookup Hown). exact Hown.
        -- assert (Hordinary : ps_name f <> protoKey).
           { intros Heq. rewrite Heq, PropertyKey_eqb_refl in Hname. discriminate. }
           apply IH3; rewrite (assign_ordinary out0 a Hordinary); simpl.
           ++ exact Hlookup.
           ++ rewrite hasOwnProperty_setProperty_other by congruence. exact Hown.
      * apply IH3; assumption.
Qed.

Lemma unexpected_stores_nothing (input : list (PropertyKey * value))
  (options : option ParseOptions) (names keys : list PropertyKey) :
  forall out,
    fold_left RecordWalk.store (map (RecordWalk.unexpected input options names) keys) out
    = out.
Proof.
  induction keys as [|key keys IH]; intros out; simpl; [reflexivity|].
  rewrite <- (IH out) at 2. f_equal.
  unfold RecordWalk.unexpected.
  destruct (RecordWalk.expected names key); [reflexivity|].
  destruct (optIsUnexpectedAllowed options); reflexivity.
Qed.

Lemma recordReport_value (os : list RecordWalk.Outcome) :
  existsb RecordWalk.isFatal os = false ->
  PE.valueOf (RecordWalk.report os) = Some (VObject (RecordWalk.outputOf os)).
Proof.
  intros Hfatal. unfold RecordWalk.report.
  destruct (RecordWalk.errorsOf os); [reflexivity|]. rewrite Hfatal. reflexivity.
Qed.

Lemma names_combine_map (B : Type) (g : PropertySignature AST -> B)
  (l : list (PropertySignature AST)) :
  map (fun q : PropertySignature AST * B => ps_name (fst q)) (combine l (map g l))
  = map (@ps_name AST) l.
Proof.
  induction l as [|f l IH]; simpl; [reflexivity|]. rewrite IH. reflexivity.
Qed.

(** X15.  The output object of a [TypeLiteral] without index signatures,
    whose property signatures have distinct names, holds for every
    property signature that the input has the output of its parser on
    the input's property, and has no property for a signature that the
    input lacks: no default is filled in for an absent optional
    property.  The name [__proto__] is the exception: the value parsed
    for it is assigned through the accessor of [Object.prototype], so
    that the output never has [__proto__] as an own property. *)
Theorem typeLiteral_output_values (as_ : Direction)
  (propertySignatures : list (PropertySignature AST))
  (input : list (PropertyKey * value)) (options : option ParseOptions) (a : value) :
  propertySignatures <> [] ->
  NoDup (map (@ps_name AST) propertySignatures) ->
  PE.valueOf (go env as_ (TypeLiteral propertySignatures []) (VObject input) options)
  = Some a ->
  exists output,
    a = VObject output
    /\ hasOwnProperty output protoKey = false
    /\ forall f,
         In f propertySignatures ->
         ps_name f <> protoKey ->
         if hasOwnProperty input (ps_name f)
         then hasOwnProperty output (ps_name f) = true
              /\ PE.valueOf
                   (go env as_ (ps_type f) (getProperty input (ps_name f)) options)
                 = Some (getProperty output (ps_name f))
         else hasOwnProperty output (ps_name f) = false.
Proof.
  intros Hnonempty Hnodup. simpl. unfold RecordParser.parse.
  set (parsers := map (fun f => go env as_ (ps_type f)) propertySignatures).
  assert (Hslow : (List.length parsers =? 0) && (List.length (@nil (Parser * Parser)) =? 0)
                  = false).
  { unfold parsers. destruct propertySignatures; [congruence | reflexivity]. }
  rewrite Hslow.
  destruct (parseObject_walk input options propertySignatures parsers [] [])
    as [Hfails Hreport].
  simpl in Hfails, Hreport.
  set (os := RecordWalk.record input options propertySignatures parsers [] []) in *.
  intros Hvalue.
  assert (Hfatal : existsb RecordWalk.isFatal os = false).
  { rewrite <- Hfails.
    destruct (RecordParser.parseObject input options propertySignatures parsers [] []);
      [discriminate | reflexivity | reflexivity]. }
  rewrite (Hreport Hfatal), (recordReport_value _ Hfatal) in Hvalue.
  injection Hvalue as <-.
  exists (RecordWalk.outputOf os). split; [reflexivity|].
  unfold os, RecordWalk.record, RecordWalk.outputOf in *.
  rewrite fold_left_app, unexpected_stores_nothing.
  rewrite existsb_app in Hfatal. apply orb_false_iff in Hfatal.
  destruct Hfatal as [Hprops _].
  assert (Hnames : NoDup (map (fun q : PropertySignature AST * Parser => ps_name (fst q))
                            (combine propertySignatures parsers))).
  { unfold parsers. rewrite names_combine_map. exact Hnodup. }
  destruct (properties_output input options (combine propertySignatures parsers)
              Hnames Hprops emptyObject) as [Hpresent [Habsent Hproto]].
  split; [apply Hproto; reflexivity|].
  intros f Hf Hordinary.
  destruct (hasOwnProperty input (ps_name f)) eqn:Hown.
  - apply (Hpresent f (go env as_ (ps_type f))); [|exact Hown | exact Hordinary].
    apply in_combine_map. split; [exact Hf | reflexivity].
  - destruct (Habsent (ps_name f) (or_intror Hown)) as [H _]. exact H.
Qed.

(* ----------------------------------------------------------------- *)
(** ** The expected types that the errors name *)

Lemma flat_map_no_fatal (B : Type) (f : B -> list RecordWalk.Outcome) (l : list B) :
  (forall x, In x l -> existsb RecordWalk.isFatal (f x) = false) ->
  existsb RecordWalk.isFatal (flat_map f l) = false.
Proof.
  induction l as [|b l IH]; simpl; intros H; [reflexivity|].
  rewrite existsb_app, (H b (or_introl eq_refl)), IH; [reflexivity|].
  intros x Hx. apply H. right. exact Hx.
Qed.

Lemma unknownArray_accepts (as_ : Direction) (input : list value)
  (options : option ParseOptions) :
  PE.isFailure (go env as_ unknownArray (VArray input) options) = false.
Proof.
  unfold unknownArray, AST.tuple, AST.unknownKeyword. simpl. unfold TupleParser.parse.
  destruct (parseArray_asRun input options [] []
              (Some (go env as_ UnknownKeyword, []))) as [Hfails _].
  simpl in Hfails. simpl. rewrite Hfails.
  unfold asRun, Walk.tuple. simpl. rewrite app_nil_r.
  apply restRegion_no_fatal_iff. intros i _ _. reflexivity.
Qed.

Lemma unknownRecord_accepts (as_ : Direction) (input : list (PropertyKey * value))
  (options : option ParseOptions) :
  PE.isFailure (go env as_ unknownRecord (VObject input) options) = false.
Proof.
  unfold unknownRecord, AST.typeLiteral, AST.indexSignature, AST.unknownKeyword,
    AST.stringKeyword, AST.symbolKeyword.
  simpl. unfold RecordParser.parse. simpl.
  match goal with
  | |- PE.isFailure (RecordParser.parseObject ?i ?o ?ps ?ts ?sigs ?sps) = false =>
      destruct (parseObject_walk i o ps ts sigs sps) as [Hfails _]
  end.
  simpl in Hfails. rewrite Hfails. clear Hfails.
  unfold RecordWalk.record, RecordWalk.indexSignature. simpl.
  rewrite app_nil_r, existsb_app.
  rewrite !flat_map_no_fatal; [reflexivity | |].
  - intros key Hkey. unfold getOwnPropertySymbols in Hkey.
    apply filter_In in Hkey. destruct Hkey as [_ Hkey].
    destruct key as [s|id]; [discriminate|].
    apply indexKey_not_fatal_iff. split; reflexivity.
  - intros key Hkey. unfold objectKeys in Hkey.
    apply filter_In in Hkey. destruct Hkey as [_ Hkey].
    destruct key as [s|id]; [|discriminate].
    apply indexKey_not_fatal_iff. split; reflexivity.
Qed.

(** X16.  The expected types that the errors name are exact: the guard
    of [unknownArray] holds of the arrays and of nothing else, the guard
    of [unknownRecord] holds of the objects and of nothing else, and the
    guard of [primitive] holds of the strings, numbers and booleans; a
    value that a [Tuple] accepts is accepted by [unknownArray], and a
    value that a [TypeLiteral] with a property or an index signature
    accepts is accepted by [unknownRecord]. *)
Theorem expected_types_are_exact (u : value) (options : option ParseOptions) :
  (is_ env unknownArray u options = true <-> exists items, u = VArray items)
  /\ (is_ env unknownRecord u options = true <-> exists props, u = VObject props)
  /\ is_ env primitive u options = isString u || isNumber u || isBoolean u
  /\ (forall elements rest isReadonly,
         is_ env (Tuple elements rest isReadonly) u options = true ->
         is_ env unknownArray u options = true)
  /\ (forall propertySignatures indexSignatures,
         propertySignatures <> [] \/ indexSignatures <> [] ->
         is_ env (TypeLiteral propertySignatures indexSignatures) u options = true ->
         is_ env unknownRecord u options = true).
Proof.
  assert (Harray : is_ env unknownArray u options = true <-> exists items, u = VArray items).
  { unfold is_, parserFor. split.
    - destruct u; try discriminate. intros _. exists items. reflexivity.
    - intros [items ->]. rewrite unknownArray_accepts. reflexivity. }
  assert (Hrecord : is_ env unknownRecord u options = true
                    <-> exists props, u = VObject props).
  { unfold is_, parserFor. split.
    - destruct u; try discriminate. intros _. exists props. reflexivity.
    - intros [props ->]. rewrite unknownRecord_accepts. reflexivity. }
  split; [exact Harray|]. split; [exact Hrecord|]. split; [|split].
  - unfold is_, parserFor. destruct u; reflexivity.
  - intros elements rest isReadonly H. apply Harray.
    unfold is_, parserFor in H. simpl in H. unfold TupleParser.parse in H.
    destruct u; try discriminate. exists items. reflexivity.
  - intros propertySignatures indexSignatures Hnonempty H. apply Hrecord.
    unfold is_, parserFor in H. simpl in H. unfold RecordParser.parse in H.
    rewrite (@fast_path_not_taken _ _ _ _ _ _ Hnonempty) in H.
    destruct u; try discriminate. exists props. reflexivity.
Qed.

(* ----------------------------------------------------------------- *)
(** ** The output of a record *)

Section IndexOutput.
Variable input : list (PropertyKey * value).
Variable options : option ParseOptions.
Variables parameter type : Parser.

Lemma indexKey_stores (key : PropertyKey) (out0 : PlainObject) :
  existsb RecordWalk.isFatal (RecordWalk.indexKey input options parameter type key)
  = false ->
  exists a,
    fold_left RecordWalk.store (RecordWalk.indexKey input options parameter type key) out0
    = assign out0 key a
    /\ PE.valueOf (type (getProperty input key) options) = Some a.
Proof.
  unfold RecordWalk.indexKey, RecordWalk.parsed.
  destruct (parameter (keyValue key) options) as [l|l b|b]; simpl;
    [discriminate | |];
    (destruct (type (getProperty input key) options) as [l'|l' a|a]; simpl;
     [discriminate | |]; intros _; exists a; split; reflexivity).
Qed.

Lemma holdsOutput_assigned (out0 : PlainObject) (key : PropertyKey) (a : value) :
  key <> protoKey ->
  PE.valueOf (type (getProperty input key) options) = Some a ->
  holdsOutput input options type (o_own (assign out0 key a)) key.
Proof.
  intros Hordinary Hvalue. rewrite (assign_ordinary out0 a Hordinary). simpl. split.
  - apply hasOwnProperty_setProperty_same.
  - rewrite getProperty_setProperty_same. exact Hvalue.
Qed.

Lemma holdsOutput_kept (out0 : PlainObject) (key k : PropertyKey) (a : value) :
  PE.valueOf (type (getProperty input key) options) = Some a ->
  holdsOutput input options type (o_own out0) k ->
  holdsOutput input options type (o_own (assign out0 key a)) k.
Proof.
  intros Hvalue [Hown Hget].
  destruct (PropertyKey_eqb k key) eqn:Heq.
  - apply PropertyKey_eqb_eq in Heq. subst k.
    unfold assign. rewrite Hown, andb_false_r. simpl. split.
    + apply hasOwnProperty_setProperty_same.
    + rewrite getProperty_setProperty_same. exact Hvalue.
  - assert (Hne : k <> key).
    { intros ->. rewrite PropertyKey_eqb_refl in Heq. discriminate. }
    destruct (assign_other out0 a Hne) as [H1 H2].
    split; [rewrite H1; exact Hown | rewrite H2; exact Hget].
Qed.

Lemma index_output (keys : list PropertyKey) :
  existsb RecordWalk.isFatal
    (flat_map (RecordWalk.indexKey input options parameter type) keys) = false ->
  forall out0,
    (forall key,
        In key keys ->
        key <> protoKey ->
        holdsOutput input options type
          (o_own (fold_left RecordWalk.store
                    (flat_map (RecordWalk.indexKey input options parameter type) keys)
                    out0))
          key)
    /\ (forall k,
          holdsOutput input options type (o_own out0) k ->
          holdsOutput input options type
            (o_own (fold_left RecordWalk.store
                      (flat_map (RecordWalk.indexKey input options parameter type) keys)
                      out0))
            k).
Proof.
  induction keys as [|key0 keys IH]; intros Hfatal out0; simpl in *.
  - split; [intros key []|]. intros k H. exact H.
  - rewrite existsb_app in Hfatal. apply orb_false_iff in Hfatal.
    destruct Hfatal as [Hhere Hthere].
    rewrite fold_left_app.
    destruct (indexKey_stores key0 out0 Hhere) as [a [-> Hvalue]].
    destruct (IH Hthere (assign out0 key0 a)) as [IH1 IH2].
    split.
    + intros key [<- | Hin] Hordinary.
      * apply IH2. apply holdsOutput_assigned; assumption.
      * apply IH1; assumption.
    + intros k Hk. apply IH2. apply holdsOutput_kept; assumption.
Qed.

Lemma index_output_other (k : PropertyKey) (keys : list PropertyKey) :
  ~ In k keys ->
  existsb RecordWalk.isFatal
    (flat_map (RecordWalk.indexKey input options parameter type) keys) = false ->
  forall out0,
    hasOwnProperty
      (o_own (fold_left RecordWalk.store
                (flat_map (RecordWalk.indexKey input options parameter type) keys) out0))
      k
    = hasOwnProperty (o_own out0) k.
Proof.
  induction keys as [|key0 keys IH]; intros Hnotin Hfatal out0; simpl in *.
  - reflexivity.
  - rewrite existsb_app in Hfatal. apply orb_false_iff in Hfatal.
    destruct Hfatal as [Hhere Hthere].
    rewrite fold_left_app.
    destruct (indexKey_stores key0 out0 Hhere) as [a [-> _]].
    rewrite IH; [|intros Hin; apply Hnotin; right; exact Hin | exact Hthere].
    apply assign_other. intros ->. apply Hnotin. left. reflexivity.
Qed.

(** When the keys are distinct, [__proto__] is assigned once at most,
    through the accessor. *)
Lemma index_output_proto (keys : list PropertyKey) :
  NoDup keys ->
  existsb RecordWalk.isFatal
    (flat_map (RecordWalk.indexKey input options parameter type) keys) = false ->
  forall out0,
    lookupProto (o_prototype out0) = FoundAccessor ->
    hasOwnProperty (o_own out0) protoKey = false ->
    hasOwnProperty
      (o_own (fold_left RecordWalk.store
                (flat_map (RecordWalk.indexKey input options parameter type) keys) out0))
      protoKey
    = false.
Proof.
  induction keys as [|key0 keys IH]; intros Hnodup Hfatal out0 Hlookup Hown; simpl in *.
  - exact Hown.
  - inversion Hnodup as [|x xs Hnotin Hnodup']; subst.
    rewrite existsb_app in Hfatal. apply orb_false_iff in Hfatal.
    destruct Hfatal as [Hhere Hthere].
    rewrite fold_left_app.
    destruct (indexKey_stores key0 out0 Hhere) as [a [-> _]].
    destruct (PropertyKey_eqb key0 protoKey) eqn:Hkey.
    + apply PropertyKey_eqb_eq in Hkey. subst key0.
      rewrite (@index_output_other protoKey keys Hnotin Hthere).
      rewrite (assign_proto_first out0 a Hlookup Hown). exact Hown.
    + assert (Hordinary : key0 <> protoKey).
      { intros ->. rewrite PropertyKey_eqb_refl in Hkey. discriminate. }
      apply (IH Hnodup' Hthere); rewrite (assign_ordinary out0 a Hordinary); simpl.
      * exact Hlookup.
      * rewrite hasOwnProperty_setProperty_other by congruence. exact Hown.
Qed.

End IndexOutput.

(** X17.  The output object of a [TypeLiteral] that is a record (no
    property signature, one index signature) holds, for every key of the
    input of the index signature's kind other than [__proto__], the
    output of the value parser on the input's property, under the key of
    the input: the output of the parameter parser on the key is not
    used.  The value parsed for the key [__proto__] is assigned through
    the accessor of [Object.prototype]: the keys of an object being
    distinct, the output does not have [__proto__] as an own
    property. *)
Theorem record_output_values (as_ : Direction) (sig : IndexSignature AST)
  (input : list (PropertyKey * value)) (options : option ParseOptions) (a : value) :
  PE.valueOf (go env as_ (TypeLiteral [] [sig]) (VObject input) options) = Some a ->
  exists output,
    a = VObject output
    /\ (forall key,
          In key (I.getKeysForIndexSignature input (is_parameter sig)) ->
          key <> protoKey ->
          hasOwnProperty output key = true
          /\ PE.valueOf (go env as_ (is_type sig) (getProperty input key) options)
             = Some (getProperty output key))
    /\ (NoDup (I.getKeysForIndexSignature input (is_parameter sig)) ->
        hasOwnProperty output protoKey = false).
Proof.
  simpl. unfold RecordParser.parse. simpl.
  destruct (parseObject_walk input options [] [] [sig]
              [(go env as_ (is_parameter sig), go env as_ (is_type sig))])
    as [Hfails Hreport].
  simpl in Hfails, Hreport.
  set (os := RecordWalk.record input options [] [] [sig]
               [(go env as_ (is_parameter sig), go env as_ (is_type sig))]) in *.
  intros Hvalue.
  assert (Hfatal : existsb RecordWalk.isFatal os = false).
  { rewrite <- Hfails.
    destruct (RecordParser.parseObject input options [] [] [sig]
                [(go env as_ (is_parameter sig), go env as_ (is_type sig))]);
      [discriminate | reflexivity | reflexivity]. }
  rewrite (Hreport Hfatal), (recordReport_value _ Hfatal) in Hvalue.
  injection Hvalue as <-.
  exists (RecordWalk.outputOf os). split; [reflexivity|].
  unfold os, RecordWalk.record, RecordWalk.indexSignature, RecordWalk.outputOf in *.
  simpl in *. rewrite app_nil_r in *.
  split.
  - intros key Hkey Hordinary.
    apply (proj1 (index_output input options _ _ _ Hfatal emptyObject) key Hkey Hordinary).
  - intros Hnodup.
    apply (index_output_proto input options _ _ Hnodup Hfatal emptyObject);
      reflexivity.
Qed.

End Further.


(* ----------------------------------------------------------------- *)
(** ** The further properties on concrete schemas *)

Lemma hookFree_host : hookFree Host.env.
Proof. intros ast. reflexivity. Defined.

Lemma encode_is_decode_transformFree_witness :
  transformFree kindUnion = true
  /\ encode Host.env kindUnion kindBExtra None = decode Host.env kindUnion kindBExtra None.
Proof.
  split; [reflexivity|].
  apply (@encode_is_decode_transformFree Host.env kindUnion kindBExtra None).
  reflexivity.
Defined.

Lemma throwing_variants_witness :
  transformFree recordA = true
  /\ encodeOrThrow Host.env (fun _ => "invalid") recordA (VNumber 1) None
     = decodeOrThrow Host.env (fun _ => "invalid") recordA (VNumber 1) None
  /\ (asserts Host.env (fun _ => "invalid") recordA (VNumber 1) None = Throws "invalid"
      <-> decodeOrThrow Host.env (fun _ => "invalid") recordA (VNumber 1) None
          = Throws "invalid").
Proof.
  split; [reflexivity|].
  destruct (@throwing_variants Host.env (fun _ => "invalid") recordA (VNumber 1) None)
    as [_ [_ H]].
  destruct (H eq_refl) as [Hencode Hasserts].
  split; [exact Hencode | exact (Hasserts "invalid")].
Defined.

Lemma tuple_long_tail_rejects_every_array_witness :
  3 <= List.length [StringKeyword; StringKeyword; StringKeyword]
  /\ PE.isFailure
       (go Host.env decoder restThenThreeStrings
          (VArray [VString "a"; VString "b"; VString "c"]) None) = true.
Proof.
  split; [simpl; lia|].
  apply (@tuple_long_tail_rejects_every_array Host.env decoder [] UnknownKeyword
           [StringKeyword; StringKeyword; StringKeyword] true
           [VString "a"; VString "b"; VString "c"] None).
  simpl; lia.
Defined.

Lemma tuple_accepts_iff_witness :
  PE.isFailure (go Host.env decoder oneString (VArray [VString "a"]) None) = false
  /\ (optIsUnexpectedAllowed None = true \/ 1 <= 1).
Proof.
  split; [reflexivity|].
  apply (proj1 (@tuple_accepts_iff Host.env decoder [Host.element StringKeyword] true
                  [VString "a"] None) eq_refl).
Defined.

Lemma typeLiteral_accepts_iff_witness :
  ([Host.property "__proto__" StringKeyword] <> [] \/ @nil (IndexSignature AST) <> [])
  /\ PE.isFailure
       (go Host.env decoder (TypeLiteral [Host.property "__proto__" StringKeyword] [])
          (VObject [(protoKey, VString "x")]) None) = true.
Proof.
  assert (Hnonempty : [Host.property "__proto__" StringKeyword] <> []
                      \/ @nil (IndexSignature AST) <> [])
    by (left; discriminate).
  split; [exact Hnonempty|].
  destruct (PE.isFailure
              (go Host.env decoder
                 (TypeLiteral [Host.property "__proto__" StringKeyword] [])
                 (VObject [(protoKey, VString "x")]) None)) eqn:Hresult;
    [reflexivity|].
  exfalso.
  destruct (proj1 (@typeLiteral_accepts_iff Host.env decoder
                     [Host.property "__proto__" StringKeyword] []
                     [(protoKey, VString "x")] None Hnonempty) Hresult)
    as [_ [_ Hkeys]].
  destruct (Hkeys eq_refl) as [Hallowed | Hexpected]; [discriminate|].
  destruct (Hexpected protoKey (or_introl eq_refl)) as [_ Htwice].
  specialize (Htwice eq_refl). vm_compute in Htwice. lia.
Defined.

Lemma typeLiteral_output_keys_witness :
  ([Host.property "a" StringKeyword] <> [] \/ @nil (IndexSignature AST) <> [])
  /\ PE.valueOf
       (go Host.env decoder recordA
          (VObject [(KString "a", VString "x"); (KString "extra", VNumber 1)])
          (Host.opts true false))
     = Some (VObject [(KString "a", VString "x")])
  /\ exists output,
       VObject [(KString "a", VString "x")] = VObject output
       /\ forall key,
            hasOwnProperty output key = true ->
            hasOwnProperty [(KString "a", VString "x"); (KString "extra", VNumber 1)] key
            = true.
Proof.
  assert (Hnonempty : [Host.property "a" StringKeyword] <> []
                      \/ @nil (IndexSignature AST) <> [])
    by (left; discriminate).
  split; [exact Hnonempty|]. split; [reflexivity|].
  destruct (@typeLiteral_output_keys Host.env decoder [Host.property "a" StringKeyword] []
              [(KString "a", VString "x"); (KString "extra", VNumber 1)]
              (Host.opts true false) (VObject [(KString "a", VString "x")])
              Hnonempty eq_refl) as [output [Heq Hkeys]].
  exists output. split; [exact Heq|].
  intros key Hkey. apply (Hkeys key Hkey).
Defined.

Lemma strict_parse_never_warns_witness :
  hookFree Host.env
  /\ structural kindUnion = true
  /\ optIsUnexpectedAllowed (Host.opts false true) = false
  /\ PE.hasWarnings (go Host.env decoder kindUnion kindBExtra (Host.opts false true))
     = false.
Proof.
  split; [exact hookFree_host|]. split; [reflexivity|]. split; [reflexivity|].
  apply (@strict_parse_never_warns Host.env decoder kindUnion kindBExtra
           (Host.opts false true) hookFree_host eq_refl eq_refl).
Defined.

Lemma allErrors_changes_failures_only_witness :
  hookFree Host.env
  /\ optIsUnexpectedAllowed (Host.opts false false)
     = optIsUnexpectedAllowed (Host.opts false true)
  /\ agree (go Host.env guard booleanFromString (VString "true") (Host.opts false false))
           (go Host.env guard booleanFromString (VString "true") (Host.opts false true))
  /\ is_ Host.env emptyThenString (VArray [VNumber 1; VNumber 2]) (Host.opts false false)
     = is_ Host.env emptyThenString (VArray [VNumber 1; VNumber 2]) (Host.opts false true).
Proof.
  split; [exact hookFree_host|]. split; [reflexivity|]. split.
  - apply (proj1 (@allErrors_changes_failures_only Host.env booleanFromString
                    (VString "true") (Host.opts false false) (Host.opts false true)
                    hookFree_host eq_refl) guard (or_introl eq_refl)).
  - apply (proj2 (@allErrors_changes_failures_only Host.env emptyThenString
                    (VArray [VNumber 1; VNumber 2]) (Host.opts false false)
                    (Host.opts false true) hookFree_host eq_refl)).
Defined.


Lemma results_are_well_formed_witness :
  hookFree Host.env
  /\ structural kindUnion = true
  /\ wellFormedResult (go Host.env decoder kindUnion kindBExtra (Host.opts false true))
     = true.
Proof.
  split; [exact hookFree_host|]. split; [reflexivity|].
  apply (@results_are_well_formed Host.env decoder kindUnion kindBExtra
           (Host.opts false true) hookFree_host eq_refl).
Defined.

Lemma errors_name_their_position_witness :
  ([Host.property "a" StringKeyword] <> [] \/ @nil (IndexSignature AST) <> [])
  /\ forallb PE.isKey
       (PE.errorsOf
          (go Host.env decoder recordA
             (VObject [(KString "a", VNumber 1); (KString "b", VNumber 2)])
             (Host.opts false true)))
     = true.
Proof.
  assert (Hnonempty : [Host.property "a" StringKeyword] <> []
                      \/ @nil (IndexSignature AST) <> [])
    by (left; discriminate).
  split; [exact Hnonempty|].
  apply (proj2 (@errors_name_their_position Host.env decoder (Host.opts false true))
           [Host.property "a" StringKeyword] []
           [(KString "a", VNumber 1); (KString "b", VNumber 2)] Hnonempty).
Defined.

Lemma success_does_not_depend_on_options_witness :
  hookFree Host.env
  /\ (decoder = guard \/ transformFree oneString = true)
  /\ go Host.env decoder oneString (VArray [VString "a"]) (Host.opts false false)
     = PE.Success (VArray [VString "a"])
  /\ go Host.env decoder oneString (VArray [VString "a"]) (Host.opts true true)
     = PE.Success (VArray [VString "a"]).
Proof.
  split; [exact hookFree_host|]. split; [right; reflexivity|]. split; [reflexivity|].
  apply (@success_does_not_depend_on_options Host.env decoder oneString
           (VArray [VString "a"]) (VArray [VString "a"])
           (Host.opts false false) (Host.opts true true)
           hookFree_host (or_intror eq_refl) eq_refl).
Defined.

Lemma tuple_with_rest_accepts_iff_witness :
  List.length [StringKeyword; StringKeyword] <= 2
  /\ PE.isFailure
       (go Host.env decoder restThenTwoStrings
          (VArray [VNumber 1; VString "a"; VString "b"]) None) = false
  /\ (1 < 3
      /\ PE.isFailure (go Host.env decoder StringKeyword (VString "a") None) = false).
Proof.
  assert (Hshort : List.length [StringKeyword; StringKeyword] <= 2) by (simpl; lia).
  split; [exact Hshort|]. split; [reflexivity|].
  destruct (@tuple_with_rest_accepts_iff Host.env decoder [] UnknownKeyword
              [StringKeyword; StringKeyword] true
              [VNumber 1; VString "a"; VString "b"] None Hshort) as [Hforward _].
  destruct (Hforward eq_refl) as [_ [_ Hpost]].
  exact (Hpost 0 StringKeyword eq_refl).
Defined.

Lemma tuple_output_witness :
  PE.valueOf
    (go Host.env decoder oneString (VArray [VString "a"; VNumber 1])
       (Host.opts true false))
  = Some (VArray [VString "a"])
  /\ exists output,
       VArray [VString "a"] = VArray output /\ List.length output = Nat.min 2 1.
Proof.
  split; [reflexivity|].
  destruct (@tuple_output Host.env decoder [Host.element StringKeyword] None true
              [VString "a"; VNumber 1] (Host.opts true false) (VArray [VString "a"])
              eq_refl) as [output [Heq [_ Hlen]]].
  exists output. split; [exact Heq | exact Hlen].
Defined.

Lemma typeLiteral_output_values_witness :
  [Host.property "a" StringKeyword; Host.property "__proto__" UnknownKeyword] <> []
  /\ NoDup (map (@ps_name AST)
              [Host.property "a" StringKeyword; Host.property "__proto__" UnknownKeyword])
  /\ PE.valueOf
       (go Host.env decoder
          (TypeLiteral
             [Host.property "a" StringKeyword; Host.property "__proto__" UnknownKeyword]
             [])
          (VObject [(KString "a", VString "x"); (protoKey, VNumber 1)])
          (Host.opts true false))
     = Some (VObject [(KString "a", VString "x")])
  /\ exists output,
       VObject [(KString "a", VString "x")] = VObject output
       /\ hasOwnProperty output protoKey = false
       /\ hasOwnProperty output (KString "a") = true
       /\ Some (VString "x") = Some (getProperty output (KString "a")).
Proof.
  assert (Hnonempty : [Host.property "a" StringKeyword;
                       Host.property "__proto__" UnknownKeyword] <> []) by discriminate.
  assert (Hnodup : NoDup (map (@ps_name AST)
                            [Host.property "a" StringKeyword;
                             Host.property "__proto__" UnknownKeyword])).
  { constructor; [intros [H | []]; discriminate|].
    constructor; [intros [] | constructor]. }
  split; [exact Hnonempty|]. split; [exact Hnodup|]. split; [reflexivity|].
  destruct (@typeLiteral_output_values Host.env decoder
              [Host.property "a" StringKeyword; Host.property "__proto__" UnknownKeyword]
              [(KString "a", VString "x"); (protoKey, VNumber 1)]
              (Host.opts true false) (VObject [(KString "a", VString "x")])
              Hnonempty Hnodup eq_refl) as [output [Heq [Hproto Hvalues]]].
  exists output. split; [exact Heq|]. split; [exact Hproto|].
  apply (Hvalues (Host.property "a" StringKeyword) (or_introl eq_refl)).
  discriminate.
Defined.

Lemma expected_types_are_exact_witness :
  is_ Host.env oneString (VArray [VString "a"]) None = true
  /\ is_ Host.env unknownArray (VArray [VString "a"]) None = true.
Proof.
  split; [reflexivity|].
  destruct (@expected_types_are_exact Host.env (VArray [VString "a"]) None)
    as [_ [_ [_ [Htuple _]]]].
  apply (Htuple [Host.element StringKeyword] None true). reflexivity.
Defined.


Lemma record_output_values_witness :
  PE.valueOf
    (go Host.env decoder
       (TypeLiteral [] [AST.indexSignature StringKeyword UnknownKeyword true])
       (VObject [(protoKey, VNumber 1); (KString "a", VNumber 2)]) None)
  = Some (VObject [(KString "a", VNumber 2)])
  /\ NoDup (I.getKeysForIndexSignature
              [(protoKey, VNumber 1); (KString "a", VNumber 2)] StringKeyword)
  /\ exists output,
       VObject [(KString "a", VNumber 2)] = VObject output
       /\ hasOwnProperty output protoKey = false
       /\ hasOwnProperty output (KString "a") = true
       /\ Some (VNumber 2) = Some (getProperty output (KString "a")).
Proof.
  assert (Hnodup : NoDup (I.getKeysForIndexSignature
                            [(protoKey, VNumber 1); (KString "a", VNumber 2)]
                            StringKeyword)).
  { constructor; [intros [H | []]; discriminate|].
    constructor; [intros [] | constructor]. }
  split; [reflexivity|]. split; [exact Hnodup|].
  destruct (@record_output_values Host.env decoder
              (AST.indexSignature StringKeyword UnknownKeyword true)
              [(protoKey, VNumber 1); (KString "a", VNumber 2)] None
              (VObject [(KString "a", VNumber 2)]) eq_refl)
    as [output [Heq [Hvalues Hproto]]].
  exists output. split; [exact Heq|]. split; [exact (Hproto Hnodup)|].
  apply (Hvalues (KString "a")); [right; left; reflexivity | discriminate].
Defined.
